(** * SharkPad: a shallow embedding of the note-taking application

    The development follows the Python sources module by module:
    - [Py]: the fragments of Python's [str] and [os.path] the program calls;
    - [Qt]: the value types of the GUI toolkit the program computes with;
    - [Drawing]: [drawing_operations.py] (image objects, canvas, drawing pad);
    - [Files]: [file_operations.py] ([save_file]);
    - [Voice]: [voice_operations.py] (the single retained voice worker);
    - [Spell]: [ai_operations.py] (background spell check and highlighting);
    - [Summarize]: [summarization_operations.py].

    Python integers are unbounded and are modelled by [Z]; a Python [str] is
    a sequence of code points, modelled by [list N].  Objects that are
    mutated through several references (the image objects of the canvas, the
    voice worker) live in an explicit store indexed by object identity. *)

From Stdlib Require Import ZArith NArith String Ascii DecimalString.
From stdpp Require Import base option list gmap.

Local Open Scope Z_scope.

(* ===================================================================== *)
(** * Python strings and paths *)
(* ===================================================================== *)

Module Py.

(** A Python [str]: a finite sequence of Unicode code points. *)
Abbreviation str := (list N).

(** A source-code literal (ASCII text) as a [str]. *)
Definition lit (s : string) : str :=
  map N_of_ascii (list_ascii_of_string s).

(** [str(n)] for an integer: its decimal numeral. *)
Definition str_of_int (z : Z) : str :=
  lit (NilZero.string_of_int (Z.to_int z)).

(** [len(s)] *)
Definition len (s : str) : Z := Z.of_nat (length s).

(** [s.startswith(p)] *)
Fixpoint startswith (s p : str) {struct p} : bool :=
  match p, s with
  | [], _ => true
  | c :: p', d :: s' => if N.eqb c d then startswith s' p' else false
  | _ :: _, [] => false
  end.

(** [s.endswith(p)] *)
Definition endswith (s p : str) : bool :=
  startswith (rev s) (rev p).

(** [p in s] for strings: [p] occurs as a contiguous substring of [s]. *)
Fixpoint contains (s p : str) : bool :=
  startswith s p ||
  match s with
  | [] => false
  | _ :: s' => contains s' p
  end.

(** [str.isspace] on one code point: the characters Python treats as
    white space ([str.strip()] with no argument removes exactly these). *)
Definition isspace (c : N) : bool :=
  ((9 <=? c) && (c <=? 13) || (28 <=? c) && (c <=? 32) ||
   (c =? 133) || (c =? 160) || (c =? 5760) ||
   (8192 <=? c) && (c <=? 8202) || (c =? 8232) || (c =? 8233) ||
   (c =? 8239) || (c =? 8287) || (c =? 12288))%N.

Fixpoint lstrip (s : str) : str :=
  match s with
  | c :: s' => if isspace c then lstrip s' else s
  | [] => []
  end.

(** [s.strip()] *)
Definition strip (s : str) : str :=
  rev (lstrip (rev (lstrip s))).

(** [s.rfind(c) + 1] for a one-character needle [c]: the length of the
    shortest prefix of [s] that contains every occurrence of [c]
    ([0] when [c] does not occur, as [rfind] then returns [-1]). *)
Fixpoint rfind1 (c : N) (s : str) : nat :=
  match s with
  | [] => O
  | d :: s' =>
      match rfind1 c s' with
      | O => if N.eqb d c then 1%nat else O
      | S k => S (S k)
      end
  end.

Fixpoint lstrip1 (c : N) (s : str) : str :=
  match s with
  | d :: s' => if N.eqb d c then lstrip1 c s' else s
  | [] => []
  end.

(** [s.rstrip(c)] for a one-character set. *)
Definition rstrip1 (c : N) (s : str) : str :=
  rev (lstrip1 c (rev s)).

(** ** [os.path] (the POSIX flavour, [posixpath.py]) *)

Definition sep : N := 47.      (* "/" *)
Definition extsep : N := 46.   (* "." *)

(** [os.path.dirname]: everything up to the last separator, with trailing
    separators removed unless the head consists of separators only. *)
Definition dirname (p : str) : str :=
  let head := take (rfind1 sep p) p in
  if bool_decide (head <> []) && negb (forallb (N.eqb sep) head)
  then rstrip1 sep head else head.

(** [os.path.basename]: everything after the last separator. *)
Definition basename (p : str) : str :=
  drop (rfind1 sep p) p.

(** [os.path.splitext]: split at the last dot of the last component, unless
    that component has nothing but dots before it. *)
Definition splitext (p : str) : str * str :=
  let si := rfind1 sep p in
  let di := rfind1 extsep p in
  if bool_decide (si < di)%nat &&
     existsb (fun c => negb (N.eqb c extsep)) (take (di - 1 - si) (drop si p))
  then (take (di - 1) p, drop (di - 1) p)
  else (p, []).

(** [os.path.join(a, b)] with two arguments. *)
Definition join (a b : str) : str :=
  if startswith b [sep] then b
  else if bool_decide (a = []) || endswith a [sep] then a ++ b
  else a ++ [sep] ++ b.

(** [str.lower] restricted to ASCII text (the letters A-Z). *)
Definition ascii_lower (s : str) : str :=
  map (fun c => if (65 <=? c) && (c <=? 90) then c + 32 else c)%N s.

(** A directory name as [dirname] returns it: nothing but separators, or
    no separator at the end. *)
Definition dir_normal (f : str) : Prop :=
  forallb (N.eqb sep) f = true \/ endswith f [sep] = false.

(** The outcome of a call: a value, or an exception (known by its
    [str(e)]) that propagates to the caller. *)
Inductive PyResult (A : Type) :=
| Returned (a : A)
| Raised (exc : str).
Arguments Returned {A} a.
Arguments Raised {A} exc.

(** Truth value of a variable holding [None] or a [str]. *)
Definition str_bool (o : option str) : bool :=
  match o with
  | Some (_ :: _) => true
  | _ => false
  end.

End Py.

(* ===================================================================== *)
(** * Qt value types *)
(* ===================================================================== *)

Module Qt.

Record QPoint := mkPoint { px : Z; py : Z }.

(** PySide exposes [isNull] as the truth value of a [QPoint]: the origin is
    falsy. *)
Definition QPoint_bool (p : QPoint) : bool :=
  negb ((px p =? 0) && (py p =? 0)).

(** [QRect(x, y, w, h)] stores its corners: [(x, y)] and
    [(x + w - 1, y + h - 1)].  Qt keeps them as 32-bit integers; the model
    is for coordinates within that range. *)
Record QRect := mkRect { x1 : Z; y1 : Z; x2 : Z; y2 : Z }.

Definition QRect_xywh (x y w h : Z) : QRect :=
  mkRect x y (x + w - 1) (y + h - 1).

(** [QRect::contains(const QPoint&)] (edges included; a rectangle whose
    corners are in the wrong order is normalised first). *)
Definition QRect_contains (r : QRect) (p : QPoint) : bool :=
  let '(l, rr) := if x2 r <? x1 r - 1 then (x2 r, x1 r) else (x1 r, x2 r) in
  let '(t, b) := if y2 r <? y1 r - 1 then (y2 r, y1 r) else (y1 r, y2 r) in
  negb ((px p <? l) || (rr <? px p)) && negb ((py p <? t) || (b <? py p)).

Record QColor := mkColor { red : N; green : N; blue : N; alpha : N }.

Definition hexdigit (n : N) : N :=
  (if n <? 10 then 48 + n else 87 + n)%N.

Definition hex2 (n : N) : Py.str :=
  [hexdigit ((n / 16) mod 16); hexdigit (n mod 16)]%N.

(** [QColor::name()]: the colour as [#rrggbb]; the alpha channel is not
    part of the name. *)
Definition name (c : QColor) : Py.str :=
  35%N :: hex2 (red c) ++ hex2 (green c) ++ hex2 (blue c).

Definition black : QColor := mkColor 0 0 0 255.

(** A pixmap is known by its size and by the image data it was loaded
    with. *)
Record QPixmap := mkPixmap { pm_width : Z; pm_height : Z; pm_data : N }.

Inductive MouseButton := LeftButton | RightButton | MiddleButton | NoButton.

#[global] Instance MouseButton_eq_dec : EqDecision MouseButton.
Proof. solve_decision. Defined.

(** A mouse event: the button that caused it, whether the left button is
    held down ([event.buttons() & Qt.LeftButton]) and the position. *)
Record QMouseEvent := mkMouse {
  button : MouseButton;
  left_held : bool;
  pos : QPoint
}.

End Qt.

(* ===================================================================== *)
(** * drawing_operations.py *)
(* ===================================================================== *)

Module Drawing.
Import Qt.

Definition pad_size_width : Z := 450.
Definition pad_size_height : Z := 400.

(** ** class ImageObject *)

Record ImageObject := mkImage {
  pixmap : QPixmap;
  x : Z;
  y : Z;
  width : Z;
  height : Z;
  selected : bool
}.

(** [ImageObject.__init__] *)
Definition ImageObject_init (pm : QPixmap) (x0 y0 : Z) : ImageObject :=
  mkImage pm x0 y0 (pm_width pm) (pm_height pm) false.

Definition get_rect (o : ImageObject) : QRect :=
  QRect_xywh (x o) (y o) (width o) (height o).

Definition contains_point (o : ImageObject) (p : QPoint) : bool :=
  QRect_contains (get_rect o) p.

Definition move (o : ImageObject) (dx dy : Z) : ImageObject :=
  mkImage (pixmap o) (x o + dx) (y o + dy) (width o) (height o) (selected o).

Definition resize (o : ImageObject) (new_width new_height : Z) : ImageObject :=
  mkImage (pixmap o) (x o) (y o) (Z.max 20 new_width) (Z.max 20 new_height)
          (selected o).

Definition set_selected (b : bool) (o : ImageObject) : ImageObject :=
  mkImage (pixmap o) (x o) (y o) (width o) (height o) b.

(** ** class DrawingCanvas *)

(** Image objects are shared between the [images] list and
    [selected_image]; they are kept in a store and referred to by identity. *)
Definition objid := nat.

Inductive Mode := DrawMode | SelectMode.

#[global] Instance Mode_eq_dec : EqDecision Mode.
Proof. solve_decision. Defined.

(** One segment painted on the drawing layer by [mouseMoveEvent]. *)
Record Stroke := mkStroke {
  st_erase : bool;
  st_color : QColor;
  st_width : Z;
  st_from : QPoint;
  st_to : QPoint
}.

(** What a painter was asked to draw, in order. *)
Inductive PaintOp :=
| FillWhite (w h : Z)
| DrawScaled (at_x at_y : Z) (pm : QPixmap) (to_w to_h : Z)
| DrawSelection (r : QRect)
| DrawHandle (hx hy hw hh : Z)
| DrawLayer (strokes : list Stroke).

Definition Picture := list PaintOp.

Record DrawingCanvas := mkCanvas {
  canvas_width : Z;
  canvas_height : Z;
  drawing : bool;
  last_point : QPoint;
  current_color : QColor;
  pen_width : Z;
  eraser_mode : bool;
  has_drawn : bool;
  mode : Mode;
  objs : gmap objid ImageObject;       (* the image objects, by identity *)
  images : list objid;
  selected_image : option objid;
  dragging_image : bool;
  resizing_image : bool;
  drag_start_pos : option QPoint;
  drawing_layer : list Stroke;
  shown : Picture                      (* the label's pixmap *)
}.

(** Functional update of the fields the methods assign. *)
Definition with_images (c : DrawingCanvas) (l : list objid) : DrawingCanvas :=
  mkCanvas (canvas_width c) (canvas_height c) (drawing c) (last_point c)
    (current_color c) (pen_width c) (eraser_mode c) (has_drawn c) (mode c)
    (objs c) l (selected_image c) (dragging_image c) (resizing_image c)
    (drag_start_pos c) (drawing_layer c) (shown c).

Definition with_objs (c : DrawingCanvas) (h : gmap objid ImageObject)
  : DrawingCanvas :=
  mkCanvas (canvas_width c) (canvas_height c) (drawing c) (last_point c)
    (current_color c) (pen_width c) (eraser_mode c) (has_drawn c) (mode c)
    h (images c) (selected_image c) (dragging_image c) (resizing_image c)
    (drag_start_pos c) (drawing_layer c) (shown c).

Definition with_selected_image (c : DrawingCanvas) (s : option objid)
  : DrawingCanvas :=
  mkCanvas (canvas_width c) (canvas_height c) (drawing c) (last_point c)
    (current_color c) (pen_width c) (eraser_mode c) (has_drawn c) (mode c)
    (objs c) (images c) s (dragging_image c) (resizing_image c)
    (drag_start_pos c) (drawing_layer c) (shown c).

Definition with_drag (c : DrawingCanvas) (dragging resizing : bool)
    (start : option QPoint) : DrawingCanvas :=
  mkCanvas (canvas_width c) (canvas_height c) (drawing c) (last_point c)
    (current_color c) (pen_width c) (eraser_mode c) (has_drawn c) (mode c)
    (objs c) (images c) (selected_image c) dragging resizing
    start (drawing_layer c) (shown c).

Definition with_pen (c : DrawingCanvas) (down : bool) (p : QPoint)
  : DrawingCanvas :=
  mkCanvas (canvas_width c) (canvas_height c) down p
    (current_color c) (pen_width c) (eraser_mode c) (has_drawn c) (mode c)
    (objs c) (images c) (selected_image c) (dragging_image c)
    (resizing_image c) (drag_start_pos c) (drawing_layer c) (shown c).

Definition with_has_drawn (c : DrawingCanvas) (b : bool) : DrawingCanvas :=
  mkCanvas (canvas_width c) (canvas_height c) (drawing c) (last_point c)
    (current_color c) (pen_width c) (eraser_mode c) b (mode c)
    (objs c) (images c) (selected_image c) (dragging_image c)
    (resizing_image c) (drag_start_pos c) (drawing_layer c) (shown c).

Definition with_layer (c : DrawingCanvas) (l : list Stroke) : DrawingCanvas :=
  mkCanvas (canvas_width c) (canvas_height c) (drawing c) (last_point c)
    (current_color c) (pen_width c) (eraser_mode c) (has_drawn c) (mode c)
    (objs c) (images c) (selected_image c) (dragging_image c)
    (resizing_image c) (drag_start_pos c) l (shown c).

Definition with_shown (c : DrawingCanvas) (p : Picture) : DrawingCanvas :=
  mkCanvas (canvas_width c) (canvas_height c) (drawing c) (last_point c)
    (current_color c) (pen_width c) (eraser_mode c) (has_drawn c) (mode c)
    (objs c) (images c) (selected_image c) (dragging_image c)
    (resizing_image c) (drag_start_pos c) (drawing_layer c) p.

(** The image objects of the list, bottom layer first (an identity that is
    not in the store denotes no object and is skipped). *)
Definition image_objects (c : DrawingCanvas) : list ImageObject :=
  omap (fun i => objs c !! i) (images c).

(** The paint operations of [update_canvas] for one image. *)
Definition paint_image (indicators : bool) (o : ImageObject) : Picture :=
  DrawScaled (x o) (y o) (pixmap o) (width o) (height o) ::
  (if indicators && selected o
   then [DrawSelection (get_rect o);
         DrawHandle (x o + width o - 10) (y o + height o - 10) 10 10]
   else []).

Definition compose (indicators : bool) (c : DrawingCanvas) : Picture :=
  FillWhite (canvas_width c) (canvas_height c) ::
  concat (map (paint_image indicators) (image_objects c)) ++
  [DrawLayer (drawing_layer c)].

(** [update_canvas]: redraw images (with selection indicators) and the
    drawing layer, and show the result. *)
Definition update_canvas (c : DrawingCanvas) : DrawingCanvas :=
  with_shown c (compose true c).

(** [DrawingCanvas.__init__] *)
Definition DrawingCanvas_init (w h : Z) : DrawingCanvas :=
  update_canvas
    (mkCanvas w h false (mkPoint 0 0) black 3 false false DrawMode
              ∅ [] None false false None [] []).

(** [img.contains_point(pos)] for the object with identity [i]. *)
Definition hit (c : DrawingCanvas) (p : QPoint) (i : objid) : bool :=
  match objs c !! i with
  | Some o => contains_point o p
  | None => false
  end.

(** [img.selected] for the object with identity [i]. *)
Definition is_selected (c : DrawingCanvas) (i : objid) : bool :=
  match objs c !! i with
  | Some o => selected o
  | None => false
  end.

(** [for img in self.images: img.selected = False] *)
Definition deselect_all (h : gmap objid ImageObject) (l : list objid)
  : gmap objid ImageObject :=
  foldl (fun h i => alter (set_selected false) i h) h l.

Definition mousePressEvent (c : DrawingCanvas) (ev : QMouseEvent)
  : DrawingCanvas :=
  if bool_decide (button ev = LeftButton) then
    let p := pos ev in
    if bool_decide (mode c = SelectMode) then
      (* first hit from the top layer down *)
      let clicked_image := List.find (hit c p) (rev (images c)) in
      let h1 := deselect_all (objs c) (images c) in
      match clicked_image with
      | Some i =>
          let h2 := alter (set_selected true) i h1 in
          let c1 := with_selected_image (with_objs c h2) (Some i) in
          let on_corner :=
            match h2 !! i with
            | Some o =>
                QRect_contains
                  (QRect_xywh (x o + width o - 10) (y o + height o - 10) 10 10)
                  p
            | None => false
            end in
          update_canvas
            (if on_corner
             then with_drag c1 (dragging_image c1) true (Some p)
             else with_drag c1 true (resizing_image c1) (Some p))
      | None =>
          update_canvas (with_selected_image (with_objs c h1) None)
      end
    else with_pen c true p
  else c.

(** Truth value of [self.drag_start_pos]. *)
Definition start_bool (s : option QPoint) : bool :=
  match s with
  | Some p => QPoint_bool p
  | None => false
  end.

(** The last branch of [mouseMoveEvent]: paint one segment on the drawing
    layer while the pen is down. *)
Definition draw_segment (c : DrawingCanvas) (ev : QMouseEvent)
  : DrawingCanvas :=
  let p := pos ev in
  if drawing c && left_held ev then
    let s := if eraser_mode c
             then mkStroke true (mkColor 0 0 0 0) 15 (last_point c) p
             else mkStroke false (current_color c) (pen_width c)
                           (last_point c) p in
    with_has_drawn
      (update_canvas
         (with_pen (with_layer c (drawing_layer c ++ [s])) (drawing c) p))
      true
  else c.

Definition mouseMoveEvent (c : DrawingCanvas) (ev : QMouseEvent)
  : DrawingCanvas :=
  let p := pos ev in
  match selected_image c with
  | Some i =>
      if dragging_image c && start_bool (drag_start_pos c) then
        (* move the image *)
        let start := default (mkPoint 0 0) (drag_start_pos c) in
        let dx := px p - px start in
        let dy := py p - py start in
        let h := alter (fun o => move o dx dy) i (objs c) in
        with_has_drawn
          (update_canvas
             (with_drag (with_objs c h) (dragging_image c) (resizing_image c)
                        (Some p)))
          true
      else if resizing_image c && start_bool (drag_start_pos c) then
        (* resize the image *)
        let start := default (mkPoint 0 0) (drag_start_pos c) in
        let dx := px p - px start in
        let dy := py p - py start in
        let h := alter (fun o => resize o (width o + dx) (height o + dy)) i
                       (objs c) in
        with_has_drawn
          (update_canvas
             (with_drag (with_objs c h) (dragging_image c) (resizing_image c)
                        (Some p)))
          true
      else draw_segment c ev
  | None => draw_segment c ev
  end.

Definition mouseReleaseEvent (c : DrawingCanvas) (ev : QMouseEvent)
  : DrawingCanvas :=
  if bool_decide (button ev = LeftButton)
  then with_drag (with_pen c false (last_point c)) false false None
  else c.

(** [self.images.remove(x)]: drop the first occurrence. *)
Fixpoint list_remove (i : objid) (l : list objid) : list objid :=
  match l with
  | [] => []
  | j :: l' => if bool_decide (j = i) then l' else j :: list_remove i l'
  end.

(** [self.images.index(x)]: position of the first occurrence. *)
Fixpoint list_index (i : objid) (l : list objid) : option nat :=
  match l with
  | [] => None
  | j :: l' => if bool_decide (j = i) then Some O else S <$> list_index i l'
  end.

(** [l[a], l[b] = l[b], l[a]]: both reads happen before the writes. *)
Definition list_swap (a b : nat) (l : list objid) : list objid :=
  match l !! a, l !! b with
  | Some va, Some vb => <[b := va]> (<[a := vb]> l)
  | _, _ => l
  end.

(** The guard [self.selected_image and self.selected_image in self.images]:
    the selected identity when it passes. *)
Definition selected_in_images (c : DrawingCanvas) : option objid :=
  match selected_image c with
  | Some i => if bool_decide (i ∈ images c) then Some i else None
  | None => None
  end.

Definition delete_selected_image (c : DrawingCanvas) : bool * DrawingCanvas :=
  match selected_in_images c with
  | Some i =>
      (true, update_canvas (with_selected_image
                              (with_images c (list_remove i (images c))) None))
  | None => (false, c)
  end.

Definition bring_to_front (c : DrawingCanvas) : bool * DrawingCanvas :=
  match selected_in_images c with
  | Some i =>
      (true, update_canvas (with_images c (list_remove i (images c) ++ [i])))
  | None => (false, c)
  end.

Definition send_to_back (c : DrawingCanvas) : bool * DrawingCanvas :=
  match selected_in_images c with
  | Some i =>
      (true, update_canvas (with_images c (i :: list_remove i (images c))))
  | None => (false, c)
  end.

Definition bring_forward (c : DrawingCanvas) : bool * DrawingCanvas :=
  match selected_in_images c with
  | Some i =>
      match list_index i (images c) with
      | Some index =>
          if bool_decide (Z.of_nat index < Z.of_nat (length (images c)) - 1)
          then (true, update_canvas
                        (with_images c (list_swap index (index + 1) (images c))))
          else (false, c)
      | None => (false, c)
      end
  | None => (false, c)
  end.

Definition send_backward (c : DrawingCanvas) : bool * DrawingCanvas :=
  match selected_in_images c with
  | Some i =>
      match list_index i (images c) with
      | Some index =>
          if bool_decide (0 < index)%nat
          then (true, update_canvas
                        (with_images c (list_swap index (index - 1) (images c))))
          else (false, c)
      | None => (false, c)
      end
  | None => (false, c)
  end.

Definition clear_canvas (c : DrawingCanvas) : DrawingCanvas :=
  with_has_drawn
    (update_canvas
       (with_layer (with_selected_image (with_images c []) None) []))
    false.

(** [save_image]: the picture handed to [QPixmap.save(filepath, "PNG")]
    (no selection indicators). *)
Definition save_image (c : DrawingCanvas) : Picture :=
  compose false c.

(** ** class DrawingPad *)

Record DrawingPad := mkPad {
  recent_colors : list QColor;
  max_recent_colors : Z;
  recent_buttons : list QColor;     (* the colour buttons of the layout *)
  canvas : DrawingCanvas
}.

(** [DrawingPad.__init__] *)
Definition DrawingPad_init : DrawingPad :=
  mkPad [] 5 [] (DrawingCanvas_init pad_size_width pad_size_height).

Definition update_recent_colors_ui (pad : DrawingPad) : DrawingPad :=
  mkPad (recent_colors pad) (max_recent_colors pad) (recent_colors pad)
        (canvas pad).

Definition add_recent_color (pad : DrawingPad) (color : QColor) : DrawingPad :=
  (* remove if the colour already exists *)
  let l1 := filter (fun c => name c <> name color) (recent_colors pad) in
  (* add to front *)
  let l2 := color :: l1 in
  (* keep only the last five *)
  let l3 := if bool_decide (max_recent_colors pad < Z.of_nat (length l2))
            then removelast l2 else l2 in
  update_recent_colors_ui
    (mkPad l3 (max_recent_colors pad) (recent_buttons pad) (canvas pad)).

Definition has_drawing (pad : DrawingPad) : bool :=
  has_drawn (canvas pad).

Definition save_drawing (pad : DrawingPad) : Picture :=
  save_image (canvas pad).

(** The pad after a series of colour picks; [recent_colors] is assigned
    nowhere but in [add_recent_color]. *)
Definition after_picks (cs : list QColor) : DrawingPad :=
  foldl add_recent_color DrawingPad_init cs.

Definition names (l : list QColor) : list Py.str := name <$> l.

(** The invariant of the list of recent colours. *)
Record recent_ok (pad : DrawingPad) : Prop := {
  ok_max : max_recent_colors pad = 5;
  ok_len : (length (recent_colors pad) <= 5)%nat;
  ok_nodup : NoDup (names (recent_colors pad))
}.

(** The images other than [i], in list order. *)
Definition others (i : objid) (l : list objid) : list objid :=
  filter (fun j => j <> i) l.

(** What a one-step move does to the list: the selected image and its
    neighbour trade places and nothing else changes. *)
Record one_step (i : objid) (from to : nat) (l l' : list objid) : Prop := {
  step_target : l' !! to = Some i;
  step_neighbour : l' !! from = l !! to;
  step_elsewhere : forall k, k <> from -> k <> to -> l' !! k = l !! k;
  step_others : others i l' = others i l;
  step_perm : l' ≡ₚ l
}.

(** ** Sample states *)

(** An image under the resize handle, dragged up and to the left. *)
Definition resize_demo : DrawingCanvas :=
  mkCanvas 450 400 false (mkPoint 0 0) black 3 false true SelectMode
    {[ 0%nat := mkImage (mkPixmap 100 80 7) 10 10 100 80 true ]} [0%nat]
    (Some 0%nat) false true (Some (mkPoint 105 85)) [] [].

(** Three stacked images, the middle one selected; images 1 and 2
    overlap at the point (60, 60), image 0 does not reach it. *)
Definition layers_demo : DrawingCanvas :=
  mkCanvas 450 400 false (mkPoint 0 0) black 3 false true SelectMode
    {[ 0%nat := mkImage (mkPixmap 30 30 7) 0 0 30 30 false;
       1%nat := mkImage (mkPixmap 100 100 8) 10 10 100 100 true;
       2%nat := mkImage (mkPixmap 40 40 9) 50 50 40 40 false ]}
    [0%nat; 1%nat; 2%nat]
    (Some 1%nat) false false None [] [].

(** A pad whose canvas has been drawn on. *)
Definition pad_demo : DrawingPad := mkPad [] 5 [] resize_demo.

End Drawing.

(* ===================================================================== *)
(** * The text editor widget *)
(* ===================================================================== *)

Module Editor.

Inductive UnderlineStyle := NoUnderline | WaveUnderline.

(** [QTextCharFormat]: the properties the program sets. *)
Record QTextCharFormat := mkFormat {
  underline_style : UnderlineStyle;
  underline_color : option Qt.QColor
}.

(** [QTextCharFormat()] *)
Definition default_fmt : QTextCharFormat := mkFormat NoUnderline None.

(** A cursor into a document: [anchor] and [position] are equal when there
    is no selection. *)
Record QTextCursor := mkCursor { anchor : Z; position : Z }.

(** The editor: the characters of its document (as the UTF-16 code units Qt
    stores), one character format per character, the modification flag and
    the user's cursor. *)
Record QPlainTextEdit := mkEditor {
  chars : list N;
  formats : list QTextCharFormat;
  modified : bool;
  text_cursor : QTextCursor
}.

(** Decoding UTF-16 code units to code points: a high surrogate followed by
    a low surrogate is one code point. *)
Fixpoint utf16_decode (l : list N) : Py.str :=
  match l with
  | [] => []
  | u :: l' =>
      match l' with
      | v :: l'' =>
          if ((55296 <=? u) && (u <=? 56319) &&
              (56320 <=? v) && (v <=? 57343))%N
          then (65536 + (u - 55296) * 1024 + (v - 56320))%N :: utf16_decode l''
          else u :: utf16_decode l'
      | [] => [u]
      end
  end.

(** [editor.toPlainText()], for a document that holds none of the units
    U+00A0, U+2028, U+2029, U+FDD0 and U+FDD1 (Qt hands these out as a
    space or a line feed) and no surrogate without its partner. *)
Definition toPlainText (e : QPlainTextEdit) : Py.str :=
  utf16_decode (chars e).

Definition hasSelection (c : QTextCursor) : bool :=
  negb (position c =? anchor c).

Inductive MoveMode := MoveAnchor | KeepAnchor.

(** [QTextCursor::setPosition]: a position outside the document is refused
    (a warning is printed and the cursor stays); the last valid position is
    the one after the last character. *)
Definition setPosition (doc_len : Z) (c : QTextCursor) (p : Z) (m : MoveMode)
  : QTextCursor :=
  if (p <? 0) || (doc_len + 1 <=? p) then c
  else match m with
       | MoveAnchor => mkCursor p p
       | KeepAnchor => mkCursor (anchor c) p
       end.

(** Set the format of the characters at positions [lo <= i < hi]. *)
Definition set_range (fs : list QTextCharFormat) (lo hi : Z)
    (f : QTextCharFormat) : list QTextCharFormat :=
  imap (fun i old =>
          if (lo <=? Z.of_nat i) && (Z.of_nat i <? hi) then f else old) fs.

(** [QTextCursor::setCharFormat]: with a selection the format is applied to
    the selected characters; without one only the cursor's own current
    format changes and the document is untouched.  The result says whether
    the document was edited. *)
Definition setCharFormat (fs : list QTextCharFormat) (c : QTextCursor)
    (f : QTextCharFormat) : list QTextCharFormat * bool :=
  if hasSelection c
  then (set_range fs (Z.min (anchor c) (position c))
                     (Z.max (anchor c) (position c)) f, true)
  else (fs, false).

(** ** Sample states *)

(** An editor holding four letters, the last three selected. *)
Definition editor_demo : QPlainTextEdit :=
  mkEditor [104; 101; 108; 111]%N
           [default_fmt; default_fmt; default_fmt; default_fmt]
           false (mkCursor 1 4).

End Editor.

(* ===================================================================== *)
(** * file_operations.py *)
(* ===================================================================== *)

Module Files.
Import Py Drawing Editor.

(** What a file holds after it was written. *)
Inductive File :=
| TextFile (content : str)                 (* text, encoded as UTF-8 *)
| PngFile (picture : Picture).             (* an image in PNG format *)

(** The outside world [save_file] acts on: the files by path and the
    message boxes shown so far. *)
Record World := mkWorld {
  fs : gmap str File;
  boxes : list str
}.

(** The answers of the two dialogs [save_file] may open: the folder chosen
    and the file name typed (empty when the user cancels). *)
Record Dialogs := mkDialogs {
  folder_path : str;
  project_name : str
}.

(** Lines 60-80 of [save_file]: the file the text goes to; [None] when the
    user cancels a dialog.  A [current_file] that is [None] or empty is
    falsy and triggers the dialogs. *)
Definition ask_target (current_file : option str) (d : Dialogs) : option str :=
  if str_bool current_file then current_file
  else if bool_decide (folder_path d = []) then None
  else if bool_decide (project_name d = []) then None
  else if endswith (project_name d) (lit ".txt")
       then Some (project_name d)
       else Some (project_name d ++ lit ".txt").

(** The path of the picture that goes with the text file [current_file]. *)
Definition drawing_path_of (current_file : str) : str :=
  let folder := dirname current_file in
  let base_name := fst (splitext (basename current_file)) in
  join folder (base_name ++ lit "_drawing.png").

Section SaveFile.

(** Whether the operating system lets the program create or overwrite the
    file at a path. *)
Variable writable : str -> bool.

Definition save_file (editor : QPlainTextEdit) (current_file : option str)
    (drawing_pad : option DrawingPad) (d : Dialogs) (w : World)
  : PyResult (option str * QPlainTextEdit) * World :=
  let has_drawing :=
    match drawing_pad with
    | Some pad => has_drawing pad
    | None => false
    end in
  match ask_target current_file d with
  | None => (Returned (None, editor), w)
  | Some current_file =>
      (* save text file *)
      if negb (writable current_file)
      then (Raised (lit "OSError"), w)
      else
        let fs1 := <[current_file := TextFile (toPlainText editor)]> (fs w) in
        let editor1 := mkEditor (chars editor) (formats editor) false
                                (text_cursor editor) in
        (* save drawing if present *)
        let drawing_path := drawing_path_of current_file in
        let fs2 :=
          match drawing_pad with
          | Some pad =>
              if has_drawing && writable drawing_path
              then <[drawing_path := PngFile (save_drawing pad)]> fs1
              else fs1
          | None => fs1
          end in
        let msg := lit "Saved:" ++ [10%N] ++ basename current_file ++
                   (if has_drawing then [10%N] ++ basename drawing_path
                    else []) in
        (Returned (Some current_file, editor1),
         mkWorld fs2 (boxes w ++ [msg]))
  end.

End SaveFile.

(** ** Sample states *)

Definition world_demo : World := mkWorld ∅ [].

Definition always_writable (p : str) : bool := true.

(** A folder in which [notes/a_drawing.png] cannot be written (it is
    there as a folder, say) and everything else can. *)
Definition drawing_locked (p : str) : bool :=
  negb (bool_decide (p = lit "notes/a_drawing.png")).

End Files.

(* ===================================================================== *)
(** * voice_operations.py *)
(* ===================================================================== *)

Module Voice.
Import Py.

(** The life of a [QThread]: [isRunning()] holds between [start()] and the
    return of [run()]. *)
Inductive ThreadStatus := NotStarted | Running | Finished.

#[global] Instance ThreadStatus_eq_dec : EqDecision ThreadStatus.
Proof. solve_decision. Defined.

Record VoiceWorker := mkWorker {
  energy_threshold : Z;
  running : bool;               (* the flag the loop of [run] tests *)
  status : ThreadStatus;
  level_connected : bool;       (* [audio_level] connected to a callback *)
  delete_later : bool           (* [deleteLater()] was called *)
}.

(** [VoiceWorker.__init__] *)
Definition VoiceWorker_init : VoiceWorker :=
  mkWorker 600 true NotStarted false false.

Definition wid := nat.

(** The module's global and the worker objects created so far, by
    identity. *)
Record State := mkState {
  _voice_worker_ref : option wid;
  workers : gmap wid VoiceWorker;
  next_id : wid;
  printed : list str
}.

Definition initial : State := mkState None ∅ O [].

Definition with_ref (s : State) (r : option wid) : State :=
  mkState r (workers s) (next_id s) (printed s).

Definition with_workers (s : State) (m : gmap wid VoiceWorker) : State :=
  mkState (_voice_worker_ref s) m (next_id s) (printed s).

(** [w.isRunning()] *)
Definition isRunning (s : State) (w : wid) : bool :=
  match workers s !! w with
  | Some o => bool_decide (status o = Running)
  | None => false
  end.

(** [VoiceWorker.set_sensitivity] *)
Definition worker_set_sensitivity (value : Z) (o : VoiceWorker) : VoiceWorker :=
  mkWorker value (running o) (status o) (level_connected o) (delete_later o).

Definition set_status (st : ThreadStatus) (o : VoiceWorker) : VoiceWorker :=
  mkWorker (energy_threshold o) (running o) st (level_connected o)
           (delete_later o).

(** [VoiceWorker.stop]: clear the loop flag, then [wait()] without a time
    limit, which returns once [run] has returned. *)
Definition worker_stop (o : VoiceWorker) : VoiceWorker :=
  mkWorker (energy_threshold o) false
           (match status o with Running => Finished | st => st end)
           (level_connected o) (delete_later o).

(** [w.wait(ms)]: a running thread may or may not end within the limit
    ([ended] tells which). *)
Definition timed_wait (ended : bool) (o : VoiceWorker) : VoiceWorker :=
  match status o with
  | Running => if ended then set_status Finished o else o
  | _ => o
  end.

Definition worker_deleteLater (o : VoiceWorker) : VoiceWorker :=
  mkWorker (energy_threshold o) (running o) (status o) (level_connected o)
           true.

(** The shutdown sequence shared by [toggle_voice] and [stop_voice]. *)
Definition shutdown (s : State) (w : wid) (ended1 ended2 : bool) : State :=
  let s1 := with_workers s (alter worker_stop w (workers s)) in
  let s2 := with_workers s1 (alter (timed_wait ended1) w (workers s1)) in
  let s3 := if isRunning s2 w
            then (* terminate(), then wait(1000) *)
              with_workers s2 (alter (timed_wait ended2) w (workers s2))
            else s2 in
  let s4 := with_workers s3 (alter worker_deleteLater w (workers s3)) in
  with_ref s4 None.

Definition connect_level (cb : bool) (o : VoiceWorker) : VoiceWorker :=
  mkWorker (energy_threshold o) (running o) (status o) cb (delete_later o).

(** [w.start()] *)
Definition worker_start (o : VoiceWorker) : VoiceWorker :=
  match status o with
  | Running => o
  | _ => set_status Running o
  end.

(** The second half of [toggle_voice]: create a worker, configure it,
    keep it in the global and start it. *)
Definition start_worker (s : State) (level_callback : bool) (sensitivity : Z)
  : State :=
  let w := next_id s in
  let o := worker_start
             (connect_level level_callback
                (worker_set_sensitivity sensitivity VoiceWorker_init)) in
  mkState (Some w) (<[w := o]> (workers s)) (S w) (printed s).

(** [toggle_voice]; [level_callback] tells whether a callback was passed,
    [ended1] and [ended2] are the outcomes of the two timed waits. *)
Definition toggle_voice (s : State) (level_callback : bool) (sensitivity : Z)
    (ended1 ended2 : bool) : bool * State :=
  match _voice_worker_ref s with
  | Some w =>
      if isRunning s w then
        let s' := shutdown s w ended1 ended2 in
        (false,
         mkState (_voice_worker_ref s') (workers s') (next_id s')
                 (printed s' ++ [lit "Voice recognition stopped."]))
      else (true, start_worker s level_callback sensitivity)
  | None => (true, start_worker s level_callback sensitivity)
  end.

(** The module-level [set_sensitivity]. *)
Definition set_sensitivity (s : State) (value : Z) : State :=
  match _voice_worker_ref s with
  | Some w =>
      if isRunning s w
      then with_workers s (alter (worker_set_sensitivity value) w (workers s))
      else s
  | None => s
  end.

Definition is_voice_active (s : State) : bool :=
  match _voice_worker_ref s with
  | Some w => isRunning s w
  | None => false
  end.

Definition stop_voice (s : State) (ended1 ended2 : bool) : State :=
  match _voice_worker_ref s with
  | Some w => if isRunning s w then shutdown s w ended1 ended2 else s
  | None => s
  end.

(** [run] of worker [w] returns on its own (missing libraries, an error
    while the model or the microphone is set up). *)
Definition worker_exits (s : State) (w : wid) : State :=
  with_workers s
    (alter (fun o => match status o with
                     | Running => set_status Finished o
                     | _ => o
                     end) w (workers s)).

(** What can happen to the module, one event at a time. *)
Inductive Action :=
| ToggleVoice (level_callback : bool) (sensitivity : Z) (ended1 ended2 : bool)
| StopVoice (ended1 ended2 : bool)
| SetSensitivity (value : Z)
| WorkerExits (w : wid).

Definition step (s : State) (a : Action) : State :=
  match a with
  | ToggleVoice cb v e1 e2 => snd (toggle_voice s cb v e1 e2)
  | StopVoice e1 e2 => stop_voice s e1 e2
  | SetSensitivity v => set_sensitivity s v
  | WorkerExits w => worker_exits s w
  end.

Definition exec (l : list Action) : State := foldl step initial l.

(** The invariant of the module: a worker that is running is the one the
    global refers to, and identities not yet handed out are unused. *)
Record voice_ok (s : State) : Prop := {
  ok_running : forall w, isRunning s w = true -> _voice_worker_ref s = Some w;
  ok_fresh : forall w, is_Some (workers s !! w) -> (w < next_id s)%nat
}.

End Voice.

(* ===================================================================== *)
(** * ai_operations.py *)
(* ===================================================================== *)

Module Spell.
Import Py Editor.

(** One reported word: [(m.start(), m.end(), m.group())]. *)
Definition Occurrence : Type := Z * Z * str.

Definition is_letter (c : N) : bool :=
  ((65 <=? c) && (c <=? 90) || (97 <=? c) && (c <=? 122))%N.

Definition is_digit (c : N) : bool :=
  ((48 <=? c) && (c <=? 57))%N.

Section Engine.

(** [str.isalnum] on the code points outside ASCII (the Unicode database). *)
Variable uni_isalnum : N -> bool.

(** [str.lower] *)
Variable lower : str -> str.

(** The built-in [hash] on strings. *)
Variable hash : str -> Z.

(** [spell.unknown(words)]: the given words the dictionary does not know,
    in the order in which the returned set is iterated. *)
Variable unknown : gset str -> list str.

(** The regular expression's word characters: alphanumeric or
    underscore. *)
Definition is_word (c : N) : bool :=
  if (c <? 128)%N then is_letter c || is_digit c || (c =? 95)%N
  else uni_isalnum c.

Definition is_word_opt (o : option N) : bool :=
  match o with
  | Some c => is_word c
  | None => false
  end.

(** [\b] between two neighbouring characters (absent at either end of the
    text). *)
Definition boundary (before after : option N) : bool :=
  xorb (is_word_opt before) (is_word_opt after).

(** The greedy [[a-zA-Z]+]: how many letters the text starts with. *)
Fixpoint letters_run (s : str) : nat :=
  match s with
  | c :: s' => if is_letter c then S (letters_run s') else O
  | [] => O
  end.

(** Backtracking over the length of the run: the longest [k >= 1] with a
    word boundary after [k] characters. *)
Fixpoint try_end (s : str) (k : nat) : option nat :=
  match k with
  | O => None
  | S k' => if boundary (s !! k') (s !! k) then Some k else try_end s k'
  end.

(** A match of [\b[a-zA-Z]+\b] starting at the head of [s], which is
    preceded by [before]: its length. *)
Definition match_here (before : option N) (s : str) : option nat :=
  if boundary before (head s) then try_end s (letters_run s) else None.

(** [word_regex.finditer(text)]: scan from the left; after a match the
    search resumes where the match ended ([skip] counts the characters of
    the current match still ahead). *)
Fixpoint scan (before : option N) (s : str) (i : nat) (skip : nat)
  : list Occurrence :=
  match s with
  | [] => []
  | c :: s' =>
      match skip with
      | S k => scan (Some c) s' (S i) k
      | O =>
          match match_here before s with
          | Some n =>
              (Z.of_nat i, Z.of_nat (i + n), take n s)
                :: scan (Some c) s' (S i) (n - 1)
          | None => scan (Some c) s' (S i) O
          end
      end
  end.

Definition finditer (text : str) : list Occurrence :=
  scan None text O O.

Definition is_letter_opt (o : option N) : bool :=
  match o with
  | Some c => is_letter c
  | None => false
  end.

(** In the words of the specification: positions [a <= k < b] of [s] hold
    letters only, and neither the character before [a] (which is [before]
    for [a = 0]) nor the character at [b] is a word character: a maximal
    alphabetic word. *)
Definition word_in (before : option N) (s : str) (a b : nat) : Prop :=
  (a < b)%nat /\
  (forall k, (a <= k < b)%nat -> is_letter_opt (s !! k) = true) /\
  is_word_opt
    (match a with O => before | S a' => s !! a' end) = false /\
  is_word_opt (s !! b) = false.

(** An occurrence [(start, end, word)] of a maximal alphabetic word of
    [text]. *)
Definition word_occurrence (text : str) (m : Occurrence) : Prop :=
  exists a b : nat,
    m = (Z.of_nat a, Z.of_nat b, take (b - a) (drop a text)) /\
    word_in None text a b.

(** What [skip] stands for: we are inside a match, [skip] letters of which
    are still ahead, followed by the end of the match. *)
Definition inside (before : option N) (s : str) (skip : nat) : Prop :=
  match skip with
  | O => True
  | S _ => is_word_opt before = true /\
           (forall k, (k < skip)%nat -> is_letter_opt (s !! k) = true) /\
           is_word_opt (s !! skip) = false
  end.

Definition occ_at (s : str) (i a b : nat) : Occurrence :=
  (Z.of_nat (i + a), Z.of_nat (i + b), take (b - a) (drop a s)).

(** The first loop of [SpellCheckWorker.run]: group the occurrences that
    are not ignored by their lower-case form. *)
Definition add_match (ignored_words : gset str)
    (word_map : gmap str (list Occurrence)) (m : Occurrence)
  : gmap str (list Occurrence) :=
  let original := snd m in
  let lo := lower original in
  if bool_decide (lo ∈ ignored_words) then word_map
  else <[lo := default [] (word_map !! lo) ++ [m]]> word_map.

(** The occurrences filed under the key [k]: those whose lower-case form
    is [k] and is not ignored. *)
Definition kept (ignored_words : gset str) (k : str) (m : Occurrence) : Prop :=
  (lower (snd m) ∉ ignored_words) /\ lower (snd m) = k.

#[global] Instance kept_dec (ignored_words : gset str) (k : str)
    (m : Occurrence) : Decision (kept ignored_words k m).
Proof. unfold kept. apply _. Defined.

(** The second loop: the occurrences of each unknown word;
    [word_map[lower_word]] raises for a missing key. *)
Fixpoint collect (word_map : gmap str (list Occurrence)) (misspelled : list str)
  : PyResult (list Occurrence) :=
  match misspelled with
  | [] => Returned []
  | lower_word :: rest =>
      match word_map !! lower_word with
      | None => Raised (lit "KeyError")
      | Some occs =>
          match collect word_map rest with
          | Returned errors => Returned (occs ++ errors)
          | Raised e => Raised e
          end
      end
  end.

(** [SpellCheckWorker.run]: what [results_ready] is emitted with. *)
Definition run (ignored_words : gset str) (text : str)
  : PyResult (list Occurrence * str) :=
  let matches := finditer text in
  let word_map := foldl (add_match ignored_words) ∅ matches in
  let misspelled := unknown (dom word_map) in
  match collect word_map misspelled with
  | Returned errors => Returned (errors, str_of_int (hash text))
  | Raised e => Raised e
  end.

(** The module's globals. *)
Record SpellCheckWorker := mkSpellWorker {
  worker_text : str;
  worker_running : bool
}.

Record Globals := mkGlobals {
  ignored_words : gset str;
  _worker_ref : option SpellCheckWorker;
  _last_text_hash : option str
}.

Definition globals_init : Globals := mkGlobals ∅ None None.

Definition highlight_misspelled_words (g : Globals) (editor : QPlainTextEdit)
  : Globals :=
  let current_text := toPlainText editor in
  let current_hash := str_of_int (hash current_text) in
  (* a worker that is still running is terminated and replaced *)
  mkGlobals (ignored_words g)
            (Some (mkSpellWorker current_text true))
            (Some current_hash).

Definition error_fmt : QTextCharFormat :=
  mkFormat WaveUnderline (Some (Qt.mkColor 255 0 0 255)).

(** One round of the loop over [errors] in [apply_highlights]. *)
Definition underline (doc_len : Z)
    (acc : list QTextCharFormat * QTextCursor * bool) (e : Occurrence)
  : list QTextCharFormat * QTextCursor * bool :=
  let '(fs, format_cursor, edited) := acc in
  let '(start, end_, _) := e in
  let c1 := setPosition doc_len format_cursor start MoveAnchor in
  let c2 := setPosition doc_len c1 end_ KeepAnchor in
  let '(fs', ed) := setCharFormat fs c2 error_fmt in
  (fs', c2, edited || ed).

(** [apply_highlights]; an absent editor is falsy. *)
Definition apply_highlights (g : Globals) (editor : option QPlainTextEdit)
    (errors : list Occurrence) (text_hash : str) : option QPlainTextEdit :=
  match editor with
  | None => None
  | Some ed =>
      if bool_decide (Some text_hash <> _last_text_hash g) then Some ed
      else
        let doc_len := Z.of_nat (length (chars ed)) in
        (* save user cursor and selection *)
        let cursor := text_cursor ed in
        let old_pos := position cursor in
        let old_anchor := anchor cursor in
        let has_selection := hasSelection cursor in
        (* a separate cursor for formatting, selecting the document *)
        let format_cursor := mkCursor 0 doc_len in
        (* 1. reset all formatting *)
        let '(fs1, ed1) := setCharFormat (formats ed) format_cursor default_fmt in
        (* 2-3. underline all misspellings *)
        let '(fs2, _, ed2) :=
          foldl (underline doc_len) (fs1, format_cursor, ed1) errors in
        (* 4. restore original cursor position and selection *)
        let cursor' :=
          if has_selection
          then setPosition doc_len
                 (setPosition doc_len cursor old_anchor MoveAnchor)
                 old_pos KeepAnchor
          else setPosition doc_len cursor old_pos MoveAnchor in
        Some (mkEditor (chars ed) fs2 (modified ed || ed2) cursor')
  end.

(** [ignore_word], up to the re-check it starts. *)
Definition ignore_word (g : Globals) (word : str) : Globals :=
  mkGlobals ({[lower word]} ∪ ignored_words g) (_worker_ref g)
            (_last_text_hash g).

End Engine.

(** ** Sample states *)

(** A stand-in for the built-in [hash]. *)
Definition length_hash (s : str) : Z := len s.

(** No character outside ASCII counts as alphanumeric. *)
Definition ascii_only (c : N) : bool := false.

(** A dictionary of three words. *)
Definition dict_demo (w : str) : bool :=
  negb (bool_decide (w ∈ [lit "hello"; lit "world"; lit "dont"])).

Definition unknown_demo (ws : gset str) : list str :=
  filter (fun w => dict_demo w = true) (elements ws).

End Spell.

(* ===================================================================== *)
(** * summarization_operations.py *)
(* ===================================================================== *)

Module Summarize.
Import Py.

(** The API client: [OpenAI(api_key=..., base_url=...)]. *)
Record Client := mkClient { api_key : str; base_url : str }.

Record FreeTeacherSummarizer := mkSummarizer {
  client : option Client;
  model : str
}.

(** [FreeTeacherSummarizer.__init__] *)
Definition FreeTeacherSummarizer_init : FreeTeacherSummarizer :=
  mkSummarizer None (lit "llama-3.1-8b-instant").

Definition set_token (su : FreeTeacherSummarizer) (token : str)
  : bool * FreeTeacherSummarizer :=
  let token := strip token in
  if negb (startswith token (lit "gsk_")) then (false, su)
  else (true,
        mkSummarizer
          (Some (mkClient token (lit "https://api.groq.com/openai/v1")))
          (model su)).

(** The request passed to [chat.completions.create]. *)
Record Request := mkRequest {
  req_model : str;
  req_messages : list (str * str);      (* role, content *)
  req_temperature : str
}.

(** The part of the response the program reads: for each choice the
    message content, which may be [None]. *)
Record Response := mkResponse { choices : list (option str) }.

Section Remote.

(** [str.lower] *)
Variable lower : str -> str.

(** The remote call: it returns a response or raises an exception (a
    subclass of [Exception]), known here by its [str(e)]. *)
Variable create : Client -> Request -> PyResult Response.

Definition system_prompt (max_sentences : Z) : str :=
  lit "You are a brilliant, kind teacher. " ++
  lit "Explain the main points of the transcript provided. " ++
  lit "Ignore speech-to-text stutters or errors completely. " ++
  lit "Do not mention that the text is messy. " ++
  lit "Write a clear explanation in about " ++ str_of_int max_sentences ++
  lit " sentences.".

(** The arguments of the remote call. *)
Definition request_of (m : str) (text : str) (max_sentences : Z) : Request :=
  mkRequest m
    [(lit "system", system_prompt max_sentences); (lit "user", text)]
    (lit "0.5").

(** The body of the [try] block; indexing an empty list of choices and
    stripping a missing content raise. *)
Definition ask (cl : Client) (m : str) (text : str) (max_sentences : Z)
  : PyResult str :=
  match create cl (request_of m text max_sentences) with
  | Raised e => Raised e
  | Returned response =>
      match choices response with
      | [] => Raised (lit "list index out of range")
      | None :: _ =>
          Raised (lit "'NoneType' object has no attribute 'strip'")
      | Some content :: _ => Returned (strip content)
      end
  end.

Definition invalid_key_message : str :=
  lit "API Error: Invalid Groq Key. Make sure it starts with 'gsk_'.".

Definition rate_limit_message : str :=
  lit "Free tier limit reached. Please wait a minute and try again.".

(** The [except Exception as e] handler. *)
Definition on_error (e : str) : PyResult str :=
  let msg := lower e in
  if contains msg (lit "authentication") ||
     contains msg (lit "invalid api key") || contains msg (lit "401")
  then Returned invalid_key_message
  else if contains msg (lit "rate limit") || contains msg (lit "429")
  then Returned rate_limit_message
  else Returned (lit "API Error: " ++ e).

(** [summarize]; [kw_max_sentences] is the keyword argument [max_sentences]
    when it is given. *)
Definition summarize (su : FreeTeacherSummarizer) (text : str)
    (kw_max_sentences : option Z) : PyResult str :=
  match client su with
  | None => Returned (lit "Please enter your Groq API Key in Settings.")
  | Some cl =>
      if bool_decide (text = []) || (len (strip text) <? 10)
      then Returned (lit "The text box is too short for me to explain!")
      else
        let max_sentences := default 5 kw_max_sentences in
        match ask cl (model su) text max_sentences with
        | Returned r => Returned r
        | Raised e => on_error e
        end
  end.

End Remote.

(** ** Sample states *)

Definition client_demo : Client :=
  mkClient (lit "gsk_demo") (lit "https://api.groq.com/openai/v1").

(** A remote end that rejects every key. *)
Definition rejecting (cl : Client) (r : Request) : PyResult Response :=
  Raised (lit "Error code: 401 - Invalid API Key").

End Summarize.

(* ===================================================================== *)
(** * drawing_operations.py: the remaining canvas methods *)
(* ===================================================================== *)

Module DrawingMore.
Import Qt Drawing.

(** [QSize::scaled] with [Qt.KeepAspectRatio]: the largest size of the
    same proportions that fits into [to_w] by [to_h] (C++ integer
    division). *)
Definition scaled_size (wd ht to_w to_h : Z) : Z * Z :=
  if (wd =? 0) || (ht =? 0) then (to_w, to_h)
  else
    let rw := Z.quot (to_h * wd) ht in
    if rw <=? to_w then (rw, to_h) else (to_w, Z.quot (to_w * ht) wd).

(** [QPixmap.scaled(w, h, Qt.KeepAspectRatio, ...)] on a pixmap that is
    not null: neither side of the result is below one pixel. *)
Definition QPixmap_scaled (pm : QPixmap) (to_w to_h : Z) : QPixmap :=
  let '(w, h) := scaled_size (pm_width pm) (pm_height pm) to_w to_h in
  mkPixmap (Z.max w 1) (Z.max h 1) (pm_data pm).

(** The identity of an object created now: none of the objects that
    exist. *)
Definition new_objid (c : DrawingCanvas) : objid :=
  fresh (dom (objs c)).

(** [add_image]; [loaded] is the pixmap read (and converted) from the
    file, [None] when it is null. *)
Definition add_image (c : DrawingCanvas) (loaded : option QPixmap)
  : bool * DrawingCanvas :=
  match loaded with
  | None => (false, c)
  | Some pixmap =>
      (* scale down if too large *)
      let max_size := 200 in
      let pixmap :=
        if (max_size <? pm_width pixmap) || (max_size <? pm_height pixmap)
        then QPixmap_scaled pixmap max_size max_size
        else pixmap in
      (* place in centre *)
      let x0 := (canvas_width c - pm_width pixmap) / 2 in
      let y0 := (canvas_height c - pm_height pixmap) / 2 in
      let img_obj := ImageObject_init pixmap x0 y0 in
      let i := new_objid c in
      (true,
       with_has_drawn
         (update_canvas
            (with_images (with_objs c (<[i := img_obj]> (objs c)))
                         (images c ++ [i])))
         true)
  end.

Definition with_mode (c : DrawingCanvas) (m : Mode) : DrawingCanvas :=
  mkCanvas (canvas_width c) (canvas_height c) (drawing c) (last_point c)
    (current_color c) (pen_width c) (eraser_mode c) (has_drawn c) m
    (objs c) (images c) (selected_image c) (dragging_image c)
    (resizing_image c) (drag_start_pos c) (drawing_layer c) (shown c).

Definition with_tool (c : DrawingCanvas) (color : QColor) (eraser : bool)
  : DrawingCanvas :=
  mkCanvas (canvas_width c) (canvas_height c) (drawing c) (last_point c)
    color (pen_width c) eraser (has_drawn c) (mode c)
    (objs c) (images c) (selected_image c) (dragging_image c)
    (resizing_image c) (drag_start_pos c) (drawing_layer c) (shown c).

Definition set_color (c : DrawingCanvas) (color : QColor) : DrawingCanvas :=
  with_tool c color false.

Definition set_eraser (c : DrawingCanvas) : DrawingCanvas :=
  with_tool c (current_color c) true.

(** [set_mode]: switching to draw mode deselects every image. *)
Definition set_mode (c : DrawingCanvas) (m : Mode) : DrawingCanvas :=
  let c1 := with_mode c m in
  match m with
  | DrawMode =>
      update_canvas
        (with_selected_image
           (with_objs c1 (deselect_all (objs c1) (images c1))) None)
  | SelectMode => c1
  end.

(** What can be done to a canvas, one call at a time. *)
Inductive CanvasAction :=
| AddImage (loaded : option QPixmap)
| Press (ev : QMouseEvent)
| Move (ev : QMouseEvent)
| Release (ev : QMouseEvent)
| DeleteSelected
| BringToFront
| SendToBack
| BringForward
| SendBackward
| SetMode (m : Mode)
| SetColor (color : QColor)
| SetEraser
| ClearCanvas.

Definition canvas_step (c : DrawingCanvas) (a : CanvasAction) : DrawingCanvas :=
  match a with
  | AddImage loaded => snd (add_image c loaded)
  | Press ev => mousePressEvent c ev
  | Move ev => mouseMoveEvent c ev
  | Release ev => mouseReleaseEvent c ev
  | DeleteSelected => snd (delete_selected_image c)
  | BringToFront => snd (bring_to_front c)
  | SendToBack => snd (send_to_back c)
  | BringForward => snd (bring_forward c)
  | SendBackward => snd (send_backward c)
  | SetMode m => set_mode c m
  | SetColor color => set_color c color
  | SetEraser => set_eraser c
  | ClearCanvas => clear_canvas c
  end.

(** The canvas of a new drawing pad after a series of calls. *)
Definition canvas_run (l : list CanvasAction) : DrawingCanvas :=
  foldl canvas_step (DrawingCanvas_init pad_size_width pad_size_height) l.

(** The consistency of the list of images with the store and with the
    selection. *)
Record canvas_ok (c : DrawingCanvas) : Prop := {
  ok_distinct : NoDup (images c);
  ok_stored : forall i, i ∈ images c -> is_Some (objs c !! i);
  ok_selected_listed :
    forall i, selected_image c = Some i -> i ∈ images c;
  ok_selected_flag :
    forall j, j ∈ images c ->
              (is_selected c j = true <-> selected_image c = Some j)
}.

(** A paint operation that shows the selection. *)
Definition is_indicator (op : PaintOp) : bool :=
  match op with
  | DrawSelection _ | DrawHandle _ _ _ _ => true
  | _ => false
  end.

(** A paint operation other than a selection indicator. *)
Definition plain (op : PaintOp) : Prop := is_indicator op = false.

#[global] Instance plain_dec (op : PaintOp) : Decision (plain op).
Proof. unfold plain. apply _. Defined.

(** A mouse event among the calls. *)
Definition is_mouse (a : CanvasAction) : Prop :=
  match a with
  | Press _ | Move _ | Release _ => True
  | _ => False
  end.

(** The position of the last of a series of mouse events, [p0] when there
    is none. *)
Definition last_pos (p0 : QPoint) (evs : list QMouseEvent) : QPoint :=
  default p0 (pos <$> last evs).

(** [DrawingPad.pick_color]; [chosen] is the colour of the dialog, [None]
    when it is not valid (the dialog was cancelled). *)
Definition pick_color (pad : DrawingPad) (chosen : option QColor) : DrawingPad :=
  match chosen with
  | Some color =>
      add_recent_color
        (mkPad (recent_colors pad) (max_recent_colors pad)
               (recent_buttons pad) (set_color (canvas pad) color))
        color
  | None => pad
  end.

(** ** Sample states *)

(** A photograph of 800 by 600 pixels. *)
Definition photo_demo : QPixmap := mkPixmap 800 600 3.

(** The middle image of [layers_demo] being dragged, the button having
    gone down at (20, 20). *)
Definition drag_demo : DrawingCanvas :=
  with_drag layers_demo true false (Some (mkPoint 20 20)).

End DrawingMore.

(* ===================================================================== *)
(** * file_operations.py: new_file and open_file *)
(* ===================================================================== *)

Module FilesMore.
Import Py Drawing Editor Files.

(** The button pressed in the "Unsaved Changes" box. *)
Inductive Reply := Save | Discard | Cancel.

Definition unsaved_prompt : str :=
  lit "Do you want to save changes to the current file?".

(** [editor.clear()]: an empty document, not modified. *)
Definition editor_clear (e : QPlainTextEdit) : QPlainTextEdit :=
  mkEditor [] [] false (mkCursor 0 0).

(** [drawing_pad.canvas.clear_canvas()] when there is a pad. *)
Definition clear_pad (drawing_pad : option DrawingPad) : option DrawingPad :=
  match drawing_pad with
  | Some pad =>
      Some (mkPad (recent_colors pad) (max_recent_colors pad)
                  (recent_buttons pad) (clear_canvas (canvas pad)))
  | None => None
  end.

(** The test both functions start with:
    [editor.document().isModified() or (drawing_pad and drawing_pad.has_drawing())]. *)
Definition unsaved (editor : QPlainTextEdit) (drawing_pad : option DrawingPad)
  : bool :=
  modified editor ||
  match drawing_pad with
  | Some pad => has_drawing pad
  | None => false
  end.

(** Reading in text mode: a carriage return, alone or followed by a line
    feed, is read as one line feed. *)
Fixpoint universal_newlines (s : str) : str :=
  match s with
  | [] => []
  | c :: rest =>
      if (c =? 13)%N then
        match rest with
        | d :: rest' =>
            if (d =? 10)%N then 10%N :: universal_newlines rest'
            else 10%N :: universal_newlines rest
        | [] => [10%N]
        end
      else c :: universal_newlines rest
  end.

(** [open(file_path, "r", encoding="utf-8").read()]: a missing file and a
    file that is not UTF-8 text (a PNG never is) raise. *)
Definition read_text (w : World) (file_path : str) : PyResult str :=
  match fs w !! file_path with
  | None => Raised (lit "FileNotFoundError")
  | Some (TextFile content) => Returned (universal_newlines content)
  | Some (PngFile _) => Raised (lit "UnicodeDecodeError")
  end.

(** What the functions leave behind: the editor, the drawing pad and the
    outside world. *)
Definition Session : Type := QPlainTextEdit * option DrawingPad * World.

Section NewOpen.

Variable writable : str -> bool.

(** [editor.setPlainText(text)], the toolkit's. *)
Variable setPlainText : QPlainTextEdit -> str -> QPlainTextEdit.

(** The first half of both functions: ask about unsaved changes.  The
    result is [inl] of what the function returns at once (on Cancel, or
    when saving raises), or [inr] of the current file to go on with. *)
Definition settle_unsaved (editor : QPlainTextEdit) (current_file : option str)
    (drawing_pad : option DrawingPad) (reply : Reply) (d : Dialogs) (w : World)
  : (PyResult (option str) + option str) * (QPlainTextEdit * World) :=
  if unsaved editor drawing_pad then
    let w1 := mkWorld (fs w) (boxes w ++ [unsaved_prompt]) in
    match reply with
    | Save =>
        match save_file writable editor current_file drawing_pad d w1 with
        | (Returned (saved, editor1), w2) => (inr saved, (editor1, w2))
        | (Raised e, w2) => (inl (Raised e), (editor, w2))
        end
    | Cancel => (inl (Returned current_file), (editor, w1))
    | Discard => (inr current_file, (editor, w1))
    end
  else (inr current_file, (editor, w)).

Definition new_file (editor : QPlainTextEdit) (current_file : option str)
    (drawing_pad : option DrawingPad) (reply : Reply) (d : Dialogs) (w : World)
  : PyResult (option str) * Session :=
  match settle_unsaved editor current_file drawing_pad reply d w with
  | (inl r, (editor1, w1)) => (r, (editor1, drawing_pad, w1))
  | (inr _, (editor1, w1)) =>
      (Returned None, (editor_clear editor1, clear_pad drawing_pad, w1))
  end.

(** [open_file]; [file_path] is the answer of the file dialog, empty when
    it is cancelled. *)
Definition open_file (editor : QPlainTextEdit) (current_file : option str)
    (drawing_pad : option DrawingPad) (reply : Reply) (d : Dialogs)
    (file_path : str) (w : World)
  : PyResult (option str) * Session :=
  match settle_unsaved editor current_file drawing_pad reply d w with
  | (inl r, (editor1, w1)) => (r, (editor1, drawing_pad, w1))
  | (inr current_file, (editor1, w1)) =>
      if bool_decide (file_path <> []) then
        match read_text w1 file_path with
        | Returned text =>
            (Returned (Some file_path),
             (setPlainText editor1 text, clear_pad drawing_pad, w1))
        | Raised e => (Raised e, (editor1, drawing_pad, w1))
        end
      else (Returned current_file, (editor1, drawing_pad, w1))
  end.

End NewOpen.

(** ** Sample states *)

(** An editor with unsaved text. *)
Definition edited_demo : QPlainTextEdit :=
  mkEditor [104; 105]%N [default_fmt; default_fmt] true (mkCursor 2 2).

(** A stand-in for [setPlainText] on text of the Basic Multilingual
    Plane. *)
Definition set_text_demo (e : QPlainTextEdit) (text : str) : QPlainTextEdit :=
  mkEditor text (map (fun _ => default_fmt) text) false (mkCursor 0 0).

End FilesMore.

(* ===================================================================== *)
(** * ai_operations.py: ignoring a word; what highlighting leaves *)
(* ===================================================================== *)

Module SpellMore.
Import Py Editor Spell.

(** Whether position [i] lies in one of the reported ranges. *)
Definition covered (errors : list Occurrence) (i : nat) : bool :=
  existsb (fun e : Occurrence =>
             (fst (fst e) <=? Z.of_nat i) && (Z.of_nat i <? snd (fst e)))
          errors.

(** A reported range that lies in a document of [doc_len] characters. *)
Definition in_document (doc_len : Z) (e : Occurrence) : Prop :=
  0 <= fst (fst e) /\ fst (fst e) < snd (fst e) /\ snd (fst e) <= doc_len.

(** Matches that follow one another between [lo] and [hi] without
    overlap, each as long as its word. *)
Fixpoint in_order (lo hi : Z) (l : list Occurrence) : Prop :=
  match l with
  | [] => True
  | m :: rest =>
      lo <= fst (fst m) /\ fst (fst m) < snd (fst m) /\ snd (fst m) <= hi /\
      len (snd m) = snd (fst m) - fst (fst m) /\
      in_order (snd (fst m)) hi rest
  end.

Section Recheck.

Variable lower : str -> str.
Variable hash : str -> Z.

(** [ignore_word]: remember the lower-case word, then check the text
    again. *)
Definition ignore_word_and_check (g : Globals) (editor : QPlainTextEdit)
    (word : str) : Globals :=
  highlight_misspelled_words hash (ignore_word lower g word) editor.

End Recheck.

End SpellMore.

(* ===================================================================== *)
(** * summarization_operations.py: the shared summarizer; its callers *)
(* ===================================================================== *)

Module SummarizeMore.
Import Py Editor Summarize.

(** [get_summarizer]: the module keeps one summarizer in [_summarizer]
    and creates it on first use.  The result is the summarizer and the new
    value of the global. *)
Definition get_summarizer (_summarizer : option FreeTeacherSummarizer)
  : FreeTeacherSummarizer * option FreeTeacherSummarizer :=
  match _summarizer with
  | Some su => (su, _summarizer)
  | None => (FreeTeacherSummarizer_init, Some FreeTeacherSummarizer_init)
  end.

(** [set_api_token]: [set_token] on the shared summarizer. *)
Definition set_api_token (_summarizer : option FreeTeacherSummarizer)
    (token : str) : bool * option FreeTeacherSummarizer :=
  let r := set_token (fst (get_summarizer _summarizer)) token in
  (fst r, Some (snd r)).

(** [OpenAISettingsDialog.save_token] of main.py: the text of the input
    line is stripped and refused unless it starts with [gsk_]; otherwise
    it is stored in the settings and given to the summarizer.  The result
    holds the stored key, the global and whether the dialog was accepted. *)
Definition save_token (stored_key : option str)
    (_summarizer : option FreeTeacherSummarizer) (input : str)
  : option str * option FreeTeacherSummarizer * bool :=
  let token := strip input in
  if negb (startswith token (lit "gsk_")) then (stored_key, _summarizer, false)
  else (Some token, snd (set_api_token _summarizer token), true).

(** The start of [main] ("Auto-load API key"): a key found in the settings
    is given to the summarizer. *)
Definition load_key (stored_key : option str)
    (_summarizer : option FreeTeacherSummarizer)
  : option FreeTeacherSummarizer :=
  match stored_key with
  | Some k =>
      if str_bool stored_key then snd (set_api_token _summarizer k)
      else _summarizer
  | None => _summarizer
  end.

(** The key in use after the tokens [toks] were given to [set_api_token]
    one after the other. *)
Definition give_tokens (_summarizer : option FreeTeacherSummarizer)
    (toks : list str) : option FreeTeacherSummarizer :=
  foldl (fun g t => snd (set_api_token g t)) _summarizer toks.

(** The main window as far as the summary action changes it. *)
Record Window := mkWindow {
  title : str;
  info_boxes : list str
}.

(** "SharkPad", an em dash, "Teacher thinking...". *)
Definition thinking_title : str :=
  lit "SharkPad " ++ [8212%N] ++ lit " Teacher thinking...".

Section Remote.

Variable lower : str -> str.
Variable create : Client -> Request -> PyResult Response.

(** [editor.setPlainText(text)], the toolkit's. *)
Variable setPlainText : QPlainTextEdit -> str -> QPlainTextEdit.

(** [summarize_text]: [summarize] on the shared summarizer. *)
Definition summarize_text (_summarizer : option FreeTeacherSummarizer)
    (text : str) (kw_max_sentences : option Z)
  : PyResult str * option FreeTeacherSummarizer :=
  let r := get_summarizer _summarizer in
  (summarize lower create (fst r) text kw_max_sentences, snd r).

(** [summarize_text_trigger] of main.py ("AI Teacher Explain"). *)
Definition summarize_text_trigger
    (_summarizer : option FreeTeacherSummarizer) (editor : QPlainTextEdit)
    (win : Window)
  : PyResult (QPlainTextEdit * Window) * option FreeTeacherSummarizer :=
  let text := toPlainText editor in
  if bool_decide (strip text = []) then
    (Returned (editor,
               mkWindow (title win)
                        (info_boxes win ++ [lit "Please provide content!"])),
     _summarizer)
  else
    match summarize_text _summarizer text (Some 5) with
    | (Returned summary, g) =>
        (Returned (setPlainText editor summary,
                   mkWindow (lit "SharkPad")
                            (info_boxes win ++ [lit "Explanation complete!"])),
         g)
    | (Raised e, g) => (Raised e, g)
    end.

End Remote.

(** ** Notions used to state the properties *)

(** Nothing to strip at the front. *)
Definition clean_head (s : str) : Prop :=
  match s with
  | [] => True
  | c :: _ => isspace c = false
  end.

(** The address every client is created with. *)
Definition groq_url : str := lit "https://api.groq.com/openai/v1".

(** Whether [set_token] accepts [token]. *)
Definition is_key (token : str) : bool := startswith (strip token) (lit "gsk_").

(** The last of [toks] that [set_token] accepts, stripped. *)
Definition last_accepted (toks : list str) : option str :=
  last (strip <$> filter (fun t => is_key t = true) toks).

(** ** Sample states *)

(** A remote end that answers with an empty list of choices. *)
Definition answering_nothing (cl : Client) (r : Request) : PyResult Response :=
  Returned (mkResponse []).

End SummarizeMore.

(* ===================================================================== *)
(** * main.py: the Open action *)
(* ===================================================================== *)

Module MainWindow.
Import Py Drawing Editor Files FilesMore.

(** What reaches [open_file] and [save_file] as [current_file]: [None], a
    path, or a widget (the helper [open_file] of main.py passes the drawing
    pad in that place). *)
Inductive Arg := ArgNone | ArgPath (p : str) | ArgWidget.

Definition to_arg (o : option str) : Arg :=
  match o with
  | Some p => ArgPath p
  | None => ArgNone
  end.

Section Actions.

Variable writable : str -> bool.
Variable setPlainText : QPlainTextEdit -> str -> QPlainTextEdit.

(** [save_file] for any such [current_file].  A widget is true, so no
    dialog opens, and [open(current_file, "w")] raises [TypeError] before
    anything is written; [None] and a path are handled as in
    [Files.save_file]. *)
Definition save_file_any (editor : QPlainTextEdit) (current_file : Arg)
    (drawing_pad : option DrawingPad) (d : Dialogs) (w : World)
  : PyResult (Arg * QPlainTextEdit) * World :=
  let on_path (o : option str) :=
    match save_file writable editor o drawing_pad d w with
    | (Returned (saved, editor1), w1) => (Returned (to_arg saved, editor1), w1)
    | (Raised e, w1) => (Raised e, w1)
    end in
  match current_file with
  | ArgNone => on_path None
  | ArgPath p => on_path (Some p)
  | ArgWidget => (Raised (lit "TypeError"), w)
  end.

(** [file_operations.open_file] for any such [current_file]. *)
Definition open_file_any (editor : QPlainTextEdit) (current_file : Arg)
    (drawing_pad : option DrawingPad) (reply : Reply) (d : Dialogs)
    (file_path : str) (w : World)
  : PyResult Arg * Session :=
  let go_on (current_file : Arg) (editor1 : QPlainTextEdit) (w1 : World) :=
    if bool_decide (file_path <> []) then
      match read_text w1 file_path with
      | Returned text =>
          (Returned (ArgPath file_path),
           (setPlainText editor1 text, clear_pad drawing_pad, w1))
      | Raised e => (Raised e, (editor1, drawing_pad, w1))
      end
    else (Returned current_file, (editor1, drawing_pad, w1)) in
  if unsaved editor drawing_pad then
    let w1 := mkWorld (fs w) (boxes w ++ [unsaved_prompt]) in
    match reply with
    | Save =>
        match save_file_any editor current_file drawing_pad d w1 with
        | (Returned (saved, editor1), w2) => go_on saved editor1 w2
        | (Raised e, w2) => (Raised e, (editor, drawing_pad, w2))
        end
    | Cancel => (Returned current_file, (editor, drawing_pad, w1))
    | Discard => go_on current_file editor w1
    end
  else go_on current_file editor w.

(** The helper [open_file(editor, parent, drawing_pad=None)] of main.py,
    which the Open action and Ctrl+O call with the drawing pad:
    [file_operations.open_file(editor, parent, drawing_pad)], three
    positional arguments, so the pad arrives as [current_file] and
    [drawing_pad] keeps its default [None].  The result is discarded by
    the callers; the pad of the window is not among what the call can
    change. *)
Definition open_action (editor : QPlainTextEdit) (drawing_pad : DrawingPad)
    (reply : Reply) (d : Dialogs) (file_path : str) (w : World)
  : PyResult Arg * (QPlainTextEdit * DrawingPad * World) :=
  match open_file_any editor ArgWidget None reply d file_path w with
  | (r, (editor1, _, w1)) => (r, (editor1, drawing_pad, w1))
  end.

End Actions.

End MainWindow.

(* ===================================================================== *)
(** * Properties of the drawing pad *)
(* ===================================================================== *)

Module DrawingFacts.
Import Qt Drawing.

(** ** Resizing *)

Lemma draw_segment_objs (c : DrawingCanvas) (ev : QMouseEvent) :
  objs (draw_segment c ev) = objs c.
Proof. unfold draw_segment. destruct (drawing c && left_held ev); reflexivity. Qed.

(** In the resizing branch of [mouseMoveEvent] the selected object is
    replaced by its [resize]. *)
Lemma mouseMoveEvent_resizing (c : DrawingCanvas) (ev : QMouseEvent)
    (i : objid) (o : ImageObject) (start : QPoint) :
  selected_image c = Some i ->
  objs c !! i = Some o ->
  dragging_image c = false ->
  resizing_image c = true ->
  drag_start_pos c = Some start ->
  QPoint_bool start = true ->
  objs (mouseMoveEvent c ev) !! i =
    Some (resize o (width o + (px (pos ev) - px start))
                   (height o + (py (pos ev) - py start))).
Proof.
  intros Hs Ho Hd Hr Hp Hb. unfold mouseMoveEvent.
  rewrite Hs, Hd, Hr, Hp. simpl. rewrite Hb. simpl.
  rewrite lookup_alter_eq, Ho. reflexivity.
Qed.

(** Whatever branch a mouse move takes, no image gets narrower or lower
    than the smaller of 20 and its former size. *)
Lemma mouseMoveEvent_size (c : DrawingCanvas) (ev : QMouseEvent)
    (i : objid) (o : ImageObject) :
  objs c !! i = Some o ->
  exists o', objs (mouseMoveEvent c ev) !! i = Some o' /\
             Z.min 20 (width o) <= width o' /\
             Z.min 20 (height o) <= height o'.
Proof.
  intros Ho. unfold mouseMoveEvent.
  destruct (selected_image c) as [j|].
  2:{ rewrite draw_segment_objs. exists o. split; [exact Ho | lia]. }
  destruct (dragging_image c && start_bool (drag_start_pos c)).
  { simpl. destruct (decide (j = i)) as [->|Hne].
    - eexists. split; [rewrite lookup_alter_eq, Ho; reflexivity | simpl; lia].
    - exists o. rewrite lookup_alter_ne by exact Hne. split; [exact Ho | lia]. }
  destruct (resizing_image c && start_bool (drag_start_pos c)).
  { simpl. destruct (decide (j = i)) as [->|Hne].
    - eexists. split; [rewrite lookup_alter_eq, Ho; reflexivity | simpl; lia].
    - exists o. rewrite lookup_alter_ne by exact Hne. split; [exact Ho | lia]. }
  rewrite draw_segment_objs. exists o. split; [exact Ho | lia].
Qed.

(** C9: [resize] sets the width to [max(20, new_width)] and the height to
    [max(20, new_height)] and leaves [x] and [y] alone; hence a mouse move
    that resizes the selected image leaves it at least 20 by 20 pixels, at
    the same position, and no mouse move shrinks an image below 20 by 20. *)
Theorem resize_keeps_minimum_size :
  (forall (o : ImageObject) (new_width new_height : Z),
     let o' := resize o new_width new_height in
     width o' = Z.max 20 new_width /\ height o' = Z.max 20 new_height /\
     20 <= width o' /\ 20 <= height o' /\
     x o' = x o /\ y o' = y o) /\
  (forall (c : DrawingCanvas) (ev : QMouseEvent) (i : objid)
          (o : ImageObject) (start : QPoint),
     selected_image c = Some i ->
     objs c !! i = Some o ->
     dragging_image c = false ->
     resizing_image c = true ->
     drag_start_pos c = Some start ->
     QPoint_bool start = true ->
     exists o', objs (mouseMoveEvent c ev) !! i = Some o' /\
       width o' = Z.max 20 (width o + (px (pos ev) - px start)) /\
       height o' = Z.max 20 (height o + (py (pos ev) - py start)) /\
       20 <= width o' /\ 20 <= height o' /\ x o' = x o /\ y o' = y o) /\
  (forall (c : DrawingCanvas) (ev : QMouseEvent) (i : objid) (o : ImageObject),
     objs c !! i = Some o ->
     exists o', objs (mouseMoveEvent c ev) !! i = Some o' /\
       Z.min 20 (width o) <= width o' /\ Z.min 20 (height o) <= height o').
Proof.
  split; [|split].
  - intros o nw nh. simpl. repeat split; lia.
  - intros c ev i o start Hs Ho Hd Hr Hp Hb.
    eexists. split.
    + eapply mouseMoveEvent_resizing; eassumption.
    + simpl. repeat split; lia.
  - apply mouseMoveEvent_size.
Qed.

Lemma resize_keeps_minimum_size_witness :
  exists o', objs (mouseMoveEvent resize_demo
                     (mkMouse NoButton true (mkPoint 5 5))) !! 0%nat = Some o' /\
    width o' = 20 /\ height o' = 20 /\ x o' = 10 /\ y o' = 10.
Proof.
  destruct (proj1 (proj2 resize_keeps_minimum_size) resize_demo
              (mkMouse NoButton true (mkPoint 5 5)) 0%nat
              (mkImage (mkPixmap 100 80 7) 10 10 100 80 true)
              (mkPoint 105 85))
    as (o' & Ho & Hw & Hh & _ & _ & Hx & Hy);
    try reflexivity.
  exists o'. repeat split; assumption.
Defined.

(** ** Layer order *)

Lemma others_cons (i j : objid) (l : list objid) :
  others i (j :: l) = if decide (j = i) then others i l else j :: others i l.
Proof.
  unfold others. rewrite filter_cons.
  destruct (decide (j <> i)), (decide (j = i)); try reflexivity; tauto.
Qed.

Lemma others_app (i : objid) (l k : list objid) :
  others i (l ++ k) = others i l ++ others i k.
Proof. apply filter_app. Qed.



Lemma list_remove_perm (i : objid) (l : list objid) :
  i ∈ l -> i :: list_remove i l ≡ₚ l.
Proof.
  induction l as [|j l IH]; intros Hin.
  - apply elem_of_nil in Hin. contradiction.
  - simpl. case_bool_decide as Hj.
    + subst j. reflexivity.
    + apply elem_of_cons in Hin as [Hin|Hin]; [congruence|].
      rewrite Permutation_swap. f_equiv. auto.
Qed.

Lemma list_remove_others (i : objid) (l : list objid) :
  others i (list_remove i l) = others i l.
Proof.
  induction l as [|j l IH]; [reflexivity|].
  simpl. case_bool_decide as Hj.
  - subst j. rewrite others_cons. destruct (decide (i = i)); [reflexivity|congruence].
  - rewrite !others_cons. destruct (decide (j = i)); [congruence|].
    f_equal. exact IH.
Qed.

Lemma others_self (i : objid) : others i [i] = [].
Proof. rewrite others_cons. destruct (decide (i = i)); [reflexivity|congruence]. Qed.

Lemma list_index_lookup (i : objid) (l : list objid) (n : nat) :
  list_index i l = Some n ->
  l !! n = Some i /\ forall m j, (m < n)%nat -> l !! m = Some j -> j <> i.
Proof.
  revert n. induction l as [|j l IH]; intros n; [discriminate|].
  simpl. case_bool_decide as Hj.
  - intros [= <-]. split; [simpl; congruence|]. intros m k Hm. lia.
  - destruct (list_index i l) as [n'|]; [|discriminate].
    intros [= <-]. destruct (IH n' eq_refl) as [Hl Hfirst]. split; [exact Hl|].
    intros [|m] k Hm; simpl.
    + congruence.
    + apply Hfirst. lia.
Qed.

Lemma list_index_present (i : objid) (l : list objid) :
  i ∈ l -> is_Some (list_index i l).
Proof.
  induction l as [|j l IH]; intros Hin.
  - apply elem_of_nil in Hin. contradiction.
  - simpl. case_bool_decide as Hj; [eauto|].
    apply elem_of_cons in Hin as [Hin|Hin]; [congruence|].
    destruct (IH Hin) as [n ->]. eauto.
Qed.

(** Exchanging two neighbours, whichever of the two indices comes first in
    the assignment. *)
Lemma list_swap_split (l : list objid) (n : nat) (a b : objid) :
  l !! n = Some a -> l !! S n = Some b ->
  exists l1 l2, l = l1 ++ a :: b :: l2 /\ length l1 = n /\
    list_swap n (S n) l = l1 ++ b :: a :: l2 /\
    list_swap (S n) n l = l1 ++ b :: a :: l2.
Proof.
  intros Ha Hb.
  exists (take n l), (drop (S (S n)) l).
  assert (Hl : l = take n l ++ a :: b :: drop (S (S n)) l).
  { rewrite <- (take_drop n l) at 1. f_equal.
    rewrite (drop_S _ _ _ Ha). f_equal. rewrite (drop_S _ _ _ Hb). reflexivity. }
  assert (Hn : length (take n l) = n).
  { apply lookup_lt_Some in Ha. rewrite length_take. lia. }
  split; [exact Hl|]. split; [exact Hn|].
  unfold list_swap. rewrite Ha, Hb.
  set (l1 := take n l) in *. set (l2 := drop (S (S n)) l) in *.
  rewrite Hl. clearbody l1 l2. subst n. clear.
  split.
  - replace (S (length l1)) with (length l1 + 1)%nat by lia.
    rewrite (insert_app_r_alt l1 _ (length l1)) by lia.
    rewrite Nat.sub_diag. simpl.
    rewrite (insert_app_r_alt l1 _ (length l1 + 1)) by lia.
    replace (length l1 + 1 - length l1)%nat with 1%nat by lia. reflexivity.
  - replace (S (length l1)) with (length l1 + 1)%nat by lia.
    rewrite (insert_app_r_alt l1 _ (length l1 + 1)) by lia.
    replace (length l1 + 1 - length l1)%nat with 1%nat by lia. simpl.
    rewrite (insert_app_r_alt l1 _ (length l1)) by lia.
    rewrite Nat.sub_diag. reflexivity.
Qed.

Lemma one_step_up (i b : objid) (l1 l2 : list objid) :
  one_step i (length l1) (S (length l1))
           (l1 ++ i :: b :: l2) (l1 ++ b :: i :: l2).
Proof.
  split.
  - rewrite lookup_app_r by lia.
    replace (S (length l1) - length l1)%nat with 1%nat by lia. reflexivity.
  - rewrite !lookup_app_r by lia. rewrite Nat.sub_diag.
    replace (S (length l1) - length l1)%nat with 1%nat by lia. reflexivity.
  - intros k Hk1 Hk2. destruct (decide (k < length l1)%nat).
    + rewrite !lookup_app_l by lia. reflexivity.
    + rewrite !lookup_app_r by lia.
      destruct (k - length l1)%nat as [|[|m]] eqn:E; [lia|lia|reflexivity].
  - rewrite !others_app. f_equal. rewrite !others_cons.
    destruct (decide (i = i)); [|congruence].
    destruct (decide (b = i)); reflexivity.
  - apply Permutation_app_head. apply Permutation_swap.
Qed.

Lemma one_step_down (i b : objid) (l1 l2 : list objid) :
  one_step i (S (length l1)) (length l1)
           (l1 ++ b :: i :: l2) (l1 ++ i :: b :: l2).
Proof.
  split.
  - rewrite lookup_app_r by lia. rewrite Nat.sub_diag. reflexivity.
  - rewrite !lookup_app_r by lia. rewrite Nat.sub_diag.
    replace (S (length l1) - length l1)%nat with 1%nat by lia. reflexivity.
  - intros k Hk1 Hk2. destruct (decide (k < length l1)%nat).
    + rewrite !lookup_app_l by lia. reflexivity.
    + rewrite !lookup_app_r by lia.
      destruct (k - length l1)%nat as [|[|m]] eqn:E; [lia|lia|reflexivity].
  - rewrite !others_app. f_equal. rewrite !others_cons.
    destruct (decide (i = i)); [|congruence].
    destruct (decide (b = i)); reflexivity.
  - apply Permutation_app_head. apply Permutation_swap.
Qed.

Lemma selected_in_images_Some (c : DrawingCanvas) (i : objid) :
  selected_image c = Some i -> i ∈ images c -> selected_in_images c = Some i.
Proof.
  intros Hs Hin. unfold selected_in_images. rewrite Hs.
  rewrite bool_decide_true by exact Hin. reflexivity.
Qed.

Lemma bring_to_front_spec (c : DrawingCanvas) (i : objid) :
  selected_image c = Some i -> i ∈ images c ->
  let r := bring_to_front c in
  fst r = true /\ last (images (snd r)) = Some i /\
  others i (images (snd r)) = others i (images c) /\
  images (snd r) ≡ₚ images c.
Proof.
  intros Hs Hin. unfold bring_to_front.
  rewrite (selected_in_images_Some c i Hs Hin). simpl.
  split; [reflexivity|]. split; [apply last_snoc|]. split.
  - rewrite others_app, others_self, app_nil_r. apply list_remove_others.
  - rewrite <- Permutation_cons_append. apply list_remove_perm. exact Hin.
Qed.

Lemma send_to_back_spec (c : DrawingCanvas) (i : objid) :
  selected_image c = Some i -> i ∈ images c ->
  let r := send_to_back c in
  fst r = true /\ head (images (snd r)) = Some i /\
  others i (images (snd r)) = others i (images c) /\
  images (snd r) ≡ₚ images c.
Proof.
  intros Hs Hin. unfold send_to_back.
  rewrite (selected_in_images_Some c i Hs Hin). simpl.
  split; [reflexivity|]. split; [reflexivity|]. split.
  - rewrite others_cons. destruct (decide (i = i)); [|congruence].
    apply list_remove_others.
  - apply list_remove_perm. exact Hin.
Qed.

Lemma bring_forward_spec (c : DrawingCanvas) (i : objid) :
  selected_image c = Some i -> i ∈ images c ->
  exists index, list_index i (images c) = Some index /\
    images c !! index = Some i /\
    if bool_decide (S index = length (images c))
    then bring_forward c = (false, c)
    else fst (bring_forward c) = true /\
         one_step i index (S index) (images c) (images (snd (bring_forward c))).
Proof.
  intros Hs Hin. destruct (list_index_present i _ Hin) as [n Hn].
  exists n. split; [exact Hn|].
  destruct (list_index_lookup _ _ _ Hn) as [Hl _]. split; [exact Hl|].
  unfold bring_forward. rewrite (selected_in_images_Some c i Hs Hin), Hn.
  pose proof (lookup_lt_Some _ _ _ Hl) as Hlt.
  case_bool_decide as Hlast.
  - rewrite bool_decide_false by lia. reflexivity.
  - rewrite bool_decide_true by lia. simpl. split; [reflexivity|].
    destruct (lookup_lt_is_Some_2 (images c) (S n)) as [b Hb]; [lia|].
    destruct (list_swap_split _ _ _ _ Hl Hb) as (l1 & l2 & E & Hlen & Hsw & _).
    replace (n + 1)%nat with (S n) by lia. rewrite Hsw, E. subst n.
    apply one_step_up.
Qed.

Lemma send_backward_spec (c : DrawingCanvas) (i : objid) :
  selected_image c = Some i -> i ∈ images c ->
  exists index, list_index i (images c) = Some index /\
    images c !! index = Some i /\
    if bool_decide (index = O)
    then send_backward c = (false, c)
    else fst (send_backward c) = true /\
         one_step i index (index - 1) (images c)
                  (images (snd (send_backward c))).
Proof.
  intros Hs Hin. destruct (list_index_present i _ Hin) as [n Hn].
  exists n. split; [exact Hn|].
  destruct (list_index_lookup _ _ _ Hn) as [Hl _]. split; [exact Hl|].
  unfold send_backward. rewrite (selected_in_images_Some c i Hs Hin), Hn.
  case_bool_decide as Hfirst.
  - rewrite bool_decide_false by lia. reflexivity.
  - rewrite bool_decide_true by lia. simpl. split; [reflexivity|].
    destruct n as [|m]; [congruence|].
    replace (S m - 1)%nat with m by lia.
    pose proof (lookup_lt_Some _ _ _ Hl) as Hlt.
    destruct (lookup_lt_is_Some_2 (images c) m) as [b Hb]; [lia|].
    destruct (list_swap_split _ _ _ _ Hb Hl) as (l1 & l2 & E & Hlen & _ & Hsw).
    rewrite Hsw, E. subst m. apply one_step_down.
Qed.

Lemma no_selection_no_move (c : DrawingCanvas) :
  selected_in_images c = None ->
  bring_to_front c = (false, c) /\ send_to_back c = (false, c) /\
  bring_forward c = (false, c) /\ send_backward c = (false, c).
Proof.
  intros H. unfold bring_to_front, send_to_back, bring_forward, send_backward.
  rewrite H. repeat split.
Qed.

(** C2: with the selected image in the list, [bring_to_front] puts it
    last and [send_to_back] first; [bring_forward] exchanges it with the
    next image unless it is the last, [send_backward] with the previous one
    unless it is the first; each keeps the order of the other images and
    the images themselves; with nothing selected, and for the one-step
    moves at the boundary, the result is [False] and an unchanged canvas. *)
Theorem layer_moves (c : DrawingCanvas) :
  (selected_image c = None ->
   bring_to_front c = (false, c) /\ send_to_back c = (false, c) /\
   bring_forward c = (false, c) /\ send_backward c = (false, c)) /\
  (forall i : objid, selected_image c = Some i -> i ∈ images c ->
   (* to the top *)
   (fst (bring_to_front c) = true /\
    last (images (snd (bring_to_front c))) = Some i /\
    others i (images (snd (bring_to_front c))) = others i (images c) /\
    images (snd (bring_to_front c)) ≡ₚ images c) /\
   (* to the bottom *)
   (fst (send_to_back c) = true /\
    head (images (snd (send_to_back c))) = Some i /\
    others i (images (snd (send_to_back c))) = others i (images c) /\
    images (snd (send_to_back c)) ≡ₚ images c) /\
   (* one layer up, unless already on top *)
   (exists index, list_index i (images c) = Some index /\
      images c !! index = Some i /\
      if bool_decide (S index = length (images c))
      then bring_forward c = (false, c)
      else fst (bring_forward c) = true /\
           one_step i index (S index) (images c)
                    (images (snd (bring_forward c)))) /\
   (* one layer down, unless already at the bottom *)
   (exists index, list_index i (images c) = Some index /\
      images c !! index = Some i /\
      if bool_decide (index = O)
      then send_backward c = (false, c)
      else fst (send_backward c) = true /\
           one_step i index (index - 1) (images c)
                    (images (snd (send_backward c))))).
Proof.
  split.
  - intros Hs. apply no_selection_no_move. unfold selected_in_images.
    rewrite Hs. reflexivity.
  - intros i Hs Hin. split; [|split; [|split]].
    + apply bring_to_front_spec; assumption.
    + apply send_to_back_spec; assumption.
    + apply bring_forward_spec; assumption.
    + apply send_backward_spec; assumption.
Qed.

Lemma layer_moves_witness :
  images (snd (bring_to_front layers_demo)) = [0; 2; 1]%nat /\
  last (images (snd (bring_to_front layers_demo))) = Some 1%nat /\
  head (images (snd (send_to_back layers_demo))) = Some 1%nat.
Proof.
  assert (Hin : 1%nat ∈ images layers_demo).
  { apply list_elem_of_further, list_elem_of_here. }
  destruct (proj2 (layer_moves layers_demo) 1%nat eq_refl Hin)
    as ((_ & Hlast & _) & (_ & Hhead & _) & _).
  split; [reflexivity|]. split; assumption.
Defined.

(** ** Selecting by click *)

(** Searching the reversed list finds the last element that passes. *)
Lemma find_rev_Some {A} (f : A -> bool) (l : list A) (a : A) :
  List.find f (rev l) = Some a <->
  exists n, l !! n = Some a /\ f a = true /\
            forall m b, (n < m)%nat -> l !! m = Some b -> f b = false.
Proof.
  induction l as [|b l IH] using rev_ind.
  - simpl. split; [discriminate|]. intros (n & Hn & _). rewrite lookup_nil in Hn. discriminate.
  - rewrite rev_app_distr. simpl. destruct (f b) eqn:Hb.
    + split.
      * intros [= <-]. exists (length l). split; [|split; [exact Hb|]].
        -- rewrite lookup_app_r by lia. rewrite Nat.sub_diag. reflexivity.
        -- intros m c Hm Hc. apply lookup_lt_Some in Hc.
           rewrite length_app in Hc. simpl in Hc. lia.
      * intros (n & Hn & Ha & Hlast).
        destruct (decide (n < length l)%nat) as [Hlt|Hge].
        -- specialize (Hlast (length l) b Hlt).
           rewrite lookup_app_r, Nat.sub_diag in Hlast by lia.
           specialize (Hlast eq_refl). congruence.
        -- pose proof (lookup_lt_Some _ _ _ Hn) as Hlen.
           rewrite length_app in Hlen. simpl in Hlen.
           replace n with (length l) in Hn by lia.
           rewrite lookup_app_r, Nat.sub_diag in Hn by lia.
           simpl in Hn. congruence.
    + rewrite IH. split.
      * intros (n & Hn & Ha & Hlast). exists n.
        pose proof (lookup_lt_Some _ _ _ Hn) as Hlen.
        split; [rewrite lookup_app_l by lia; exact Hn|]. split; [exact Ha|].
        intros m c Hm Hc. destruct (decide (m < length l)%nat).
        -- rewrite lookup_app_l in Hc by lia. eauto.
        -- pose proof (lookup_lt_Some _ _ _ Hc) as Hlen'.
           rewrite length_app in Hlen'. simpl in Hlen'.
           replace m with (length l) in Hc by lia.
           rewrite lookup_app_r, Nat.sub_diag in Hc by lia.
           simpl in Hc. congruence.
      * intros (n & Hn & Ha & Hlast).
        destruct (decide (n < length l)%nat) as [Hlt|Hge].
        -- exists n. rewrite lookup_app_l in Hn by lia.
           split; [exact Hn|]. split; [exact Ha|].
           intros m c Hm Hc. apply (Hlast m c Hm).
           rewrite lookup_app_l; [exact Hc|]. apply lookup_lt_Some in Hc. exact Hc.
        -- pose proof (lookup_lt_Some _ _ _ Hn) as Hlen.
           rewrite length_app in Hlen. simpl in Hlen.
           replace n with (length l) in Hn by lia.
           rewrite lookup_app_r, Nat.sub_diag in Hn by lia.
           simpl in Hn. congruence.
Qed.

Lemma find_rev_None {A} (f : A -> bool) (l : list A) :
  (forall a, a ∈ l -> f a = false) -> List.find f (rev l) = None.
Proof.
  intros H. destruct (List.find f (rev l)) as [a|] eqn:E; [|reflexivity].
  apply find_rev_Some in E as (n & Hn & Ha & _).
  rewrite H in Ha; [discriminate|]. apply list_elem_of_lookup. eauto.
Qed.

Lemma deselect_all_lookup (h : gmap objid ImageObject) (l : list objid)
    (j : objid) :
  deselect_all h l !! j =
    (if bool_decide (j ∈ l) then set_selected false else id) <$> h !! j.
Proof.
  unfold deselect_all. revert h. induction l as [|i l IH]; intros h.
  - rewrite bool_decide_false by apply not_elem_of_nil.
    simpl. destruct (h !! j); reflexivity.
  - cbn [foldl]. rewrite IH. destruct (decide (i = j)) as [->|Hne].
    + rewrite lookup_alter_eq.
      rewrite (bool_decide_true (j ∈ j :: l)) by apply list_elem_of_here.
      destruct (h !! j) as [o|]; [|reflexivity]. simpl.
      case_bool_decide; reflexivity.
    + rewrite lookup_alter_ne by exact Hne.
      destruct (decide (j ∈ l)) as [Hin|Hnin].
      * rewrite !bool_decide_true; [reflexivity| |exact Hin].
        apply list_elem_of_further. exact Hin.
      * rewrite !bool_decide_false; [reflexivity| |exact Hnin].
        intros Hc. apply elem_of_cons in Hc as [Hc|Hc]; [congruence|tauto].
Qed.

Lemma deselect_all_selected (h : gmap objid ImageObject) (l : list objid)
    (j : objid) (o : ImageObject) :
  j ∈ l -> deselect_all h l !! j = Some o -> selected o = false.
Proof.
  intros Hin. rewrite deselect_all_lookup, bool_decide_true by exact Hin.
  destruct (h !! j); [|discriminate]. intros [= <-]. reflexivity.
Qed.

(** The store and the list after a click in select mode. *)
Lemma mousePressEvent_select (c : DrawingCanvas) (ev : QMouseEvent) :
  mode c = SelectMode -> button ev = LeftButton ->
  let c' := mousePressEvent c ev in
  let h1 := deselect_all (objs c) (images c) in
  images c' = images c /\
  match List.find (hit c (pos ev)) (rev (images c)) with
  | Some i => selected_image c' = Some i /\
              objs c' = alter (set_selected true) i h1
  | None => selected_image c' = None /\ objs c' = h1
  end.
Proof.
  intros Hm Hb. unfold mousePressEvent.
  rewrite (bool_decide_true _ Hb), (bool_decide_true _ Hm).
  destruct (List.find (hit c (pos ev)) (rev (images c))) as [i|].
  - match goal with |- context [update_canvas (if ?b then _ else _)] =>
      destruct b end; repeat split.
  - repeat split.
Qed.

(** C3: a left click at [p] in select mode selects the image at the
    greatest index among those whose rectangle contains [p] and deselects
    every other image of the list; when no rectangle contains [p], no image
    is selected afterwards. *)
Theorem click_selects_topmost (c : DrawingCanvas) (ev : QMouseEvent) :
  mode c = SelectMode -> button ev = LeftButton ->
  let p := pos ev in
  let c' := mousePressEvent c ev in
  images c' = images c /\
  (forall (n : nat) (i : objid),
     images c !! n = Some i -> hit c p i = true ->
     (forall m j, (n < m)%nat -> images c !! m = Some j -> hit c p j = false) ->
     selected_image c' = Some i /\ is_selected c' i = true /\
     forall j, j ∈ images c -> j <> i -> is_selected c' j = false) /\
  ((forall j, j ∈ images c -> hit c p j = false) ->
   selected_image c' = None /\
   forall j, j ∈ images c -> is_selected c' j = false).
Proof.
  intros Hm Hb p c'.
  destruct (mousePressEvent_select c ev Hm Hb) as [Himg Hsel].
  fold c' in Himg, Hsel. fold p in Hsel.
  split; [exact Himg|]. split.
  - intros n i Hn Hhit Htop.
    assert (Hf : List.find (hit c p) (rev (images c)) = Some i).
    { apply find_rev_Some. eauto. }
    rewrite Hf in Hsel. destruct Hsel as [Hs Ho].
    split; [exact Hs|]. unfold is_selected. rewrite Ho. split.
    + rewrite lookup_alter_eq. unfold hit in Hhit.
      rewrite deselect_all_lookup.
      destruct (objs c !! i); [reflexivity|discriminate].
    + intros j Hj Hne. rewrite lookup_alter_ne by congruence.
      destruct (deselect_all (objs c) (images c) !! j) as [o|] eqn:E;
        [|reflexivity].
      eapply deselect_all_selected; eassumption.
  - intros Hnone. rewrite (find_rev_None _ _ Hnone) in Hsel.
    destruct Hsel as [Hs Ho]. split; [exact Hs|].
    intros j Hj. unfold is_selected. rewrite Ho.
    destruct (deselect_all (objs c) (images c) !! j) as [o|] eqn:E;
      [|reflexivity].
    eapply deselect_all_selected; eassumption.
Qed.

Lemma click_selects_topmost_witness :
  selected_image (mousePressEvent layers_demo
                    (mkMouse LeftButton true (mkPoint 60 60))) = Some 2%nat.
Proof.
  destruct (click_selects_topmost layers_demo
              (mkMouse LeftButton true (mkPoint 60 60)) eq_refl eq_refl)
    as (_ & Hhit & _).
  destruct (Hhit 2%nat 2%nat eq_refl eq_refl) as [Hs _].
  - intros m j Hm Hj. apply lookup_lt_Some in Hj. simpl in Hj. lia.
  - exact Hs.
Defined.

(** ** Recent colours *)

Lemma removelast_take {A} (l : list A) :
  removelast l = take (length l - 1) l.
Proof.
  induction l as [|a l IH]; [reflexivity|].
  destruct l as [|b l]; [reflexivity|].
  change (removelast (a :: b :: l)) with (a :: removelast (b :: l)).
  rewrite IH. simpl. rewrite Nat.sub_0_r. reflexivity.
Qed.

Lemma names_filter_NoDup (l : list QColor) (n : Py.str) :
  NoDup (names l) -> NoDup (names (filter (fun c => name c <> n) l)).
Proof.
  unfold names. induction l as [|a l IH]; intros Hnd; [constructor|].
  rewrite fmap_cons in Hnd. apply NoDup_cons in Hnd as [Hn Hnd].
  rewrite filter_cons. case_decide.
  - rewrite fmap_cons. apply NoDup_cons. split; [|auto].
    intros Hin. apply Hn. apply list_elem_of_fmap in Hin as (c & Hc & Hin).
    apply list_elem_of_filter in Hin as [_ Hin].
    apply list_elem_of_fmap. eauto.
  - auto.
Qed.

Lemma names_filter_fresh (l : list QColor) (n : Py.str) :
  n ∉ names (filter (fun c => name c <> n) l).
Proof.
  unfold names. intros Hin. apply list_elem_of_fmap in Hin as (c & Hc & Hin).
  apply list_elem_of_filter in Hin as [Hne _]. congruence.
Qed.

Lemma filter_absent (l : list QColor) (n : Py.str) :
  n ∉ names l -> filter (fun c => name c <> n) l = l.
Proof.
  unfold names. induction l as [|a l IH]; intros Hn; [reflexivity|].
  rewrite fmap_cons in Hn. apply not_elem_of_cons in Hn as [Hne Hn].
  rewrite filter_cons. case_decide; [|congruence]. f_equal. auto.
Qed.

Lemma filter_present_shorter (l : list QColor) (n : Py.str) :
  n ∈ names l -> (length (filter (fun c => name c <> n) l) < length l)%nat.
Proof.
  unfold names. induction l as [|a l IH]; intros Hn.
  - apply elem_of_nil in Hn. contradiction.
  - rewrite filter_cons. case_decide as Hd.
    + rewrite fmap_cons in Hn. apply elem_of_cons in Hn as [Hn|Hn]; [congruence|].
      simpl. apply IH in Hn. lia.
    + simpl. pose proof (length_filter (fun c => name c <> n) l). lia.
Qed.

(** What [add_recent_color] leaves in the list, case by case. *)
Lemma add_recent_color_list (pad : DrawingPad) (c : QColor) :
  recent_ok pad ->
  recent_colors (add_recent_color pad c) =
    if bool_decide (name c ∈ names (recent_colors pad))
    then c :: filter (fun d => name d <> name c) (recent_colors pad)
    else if bool_decide (length (recent_colors pad) = 5%nat)
         then c :: removelast (recent_colors pad)
         else c :: recent_colors pad.
Proof.
  intros [Hmax Hlen Hnd]. unfold add_recent_color. simpl. rewrite Hmax.
  destruct (decide (name c ∈ names (recent_colors pad))) as [Hin|Hin].
  - rewrite (bool_decide_true _ Hin).
    apply filter_present_shorter in Hin.
    rewrite bool_decide_false by (simpl; lia). reflexivity.
  - rewrite (bool_decide_false _ Hin), (filter_absent _ _ Hin).
    destruct (decide (length (recent_colors pad) = 5%nat)) as [H5|H5].
    + rewrite (bool_decide_true _ H5).
      rewrite bool_decide_true by (simpl; lia).
      destruct (recent_colors pad); [discriminate|]. reflexivity.
    + rewrite (bool_decide_false _ H5).
      rewrite bool_decide_false by (simpl; lia). reflexivity.
Qed.

Lemma add_recent_color_ok (pad : DrawingPad) (c : QColor) :
  recent_ok pad -> recent_ok (add_recent_color pad c).
Proof.
  intros Hok. pose proof (add_recent_color_list pad c Hok) as Hl.
  destruct Hok as [Hmax Hlen Hnd]. split.
  - reflexivity || (unfold add_recent_color; simpl; exact Hmax).
  - rewrite Hl. case_bool_decide as Hin.
    + apply filter_present_shorter in Hin. simpl. lia.
    + case_bool_decide as H5.
      * simpl. rewrite removelast_take, length_take. lia.
      * simpl. lia.
  - rewrite Hl. case_bool_decide as Hin.
    + unfold names. rewrite fmap_cons. apply NoDup_cons. split.
      * apply names_filter_fresh.
      * apply names_filter_NoDup. exact Hnd.
    + assert (Hpre : forall k, NoDup (names (c :: take k (recent_colors pad)))).
      { intros k. unfold names. rewrite fmap_cons. apply NoDup_cons. split.
        - intros Hk. apply Hin. rewrite fmap_take in Hk.
          exact (subseteq_take _ _ _ Hk).
        - rewrite fmap_take. exact (sublist_NoDup _ _ Hnd (sublist_take _ _)). }
      case_bool_decide as H5.
      * rewrite removelast_take. apply Hpre.
      * specialize (Hpre (length (recent_colors pad))).
        rewrite take_ge in Hpre by lia. exact Hpre.
Qed.

Lemma after_picks_ok (cs : list QColor) : recent_ok (after_picks cs).
Proof.
  unfold after_picks. induction cs as [|c cs IH] using rev_ind.
  - split; simpl; [reflexivity | lia | constructor].
  - rewrite foldl_snoc. apply add_recent_color_ok. exact IH.
Qed.

(** C10: after every call of [add_recent_color] (on a pad that has seen
    any series of picks) the list holds at most five colours, no two of
    them with the same name, and the colour just added is at the front; a
    colour whose name was present replaces the old entry, and when five
    other colours are present the last one is dropped. *)
Theorem add_recent_color_bounded_distinct_front (cs : list QColor) (c : QColor) :
  let before := recent_colors (after_picks cs) in
  let after := recent_colors (after_picks (cs ++ [c])) in
  (length after <= 5)%nat /\
  NoDup (names after) /\
  head after = Some c /\
  after =
    (if bool_decide (name c ∈ names before)
     then c :: filter (fun d => name d <> name c) before
     else if bool_decide (length before = 5%nat)
          then c :: removelast before
          else c :: before).
Proof.
  intros before after.
  pose proof (after_picks_ok cs) as Hok.
  pose proof (after_picks_ok (cs ++ [c])) as [_ Hlen Hnd].
  assert (Hl : after = recent_colors (add_recent_color (after_picks cs) c)).
  { unfold after, after_picks. rewrite foldl_snoc. reflexivity. }
  rewrite (add_recent_color_list _ c Hok) in Hl. fold before in Hl.
  repeat split; try assumption.
  rewrite Hl. repeat case_bool_decide; reflexivity.
Qed.

End DrawingFacts.

(* ===================================================================== *)
(** * Properties of paths and of saving *)
(* ===================================================================== *)

Module FilesFacts.
Import Py Drawing Editor Files.

(** ** Paths *)

Lemma rfind1_absent (c : N) (s : str) : c ∉ s -> rfind1 c s = O.
Proof.
  induction s as [|d s IH]; intros Hn; [reflexivity|].
  apply not_elem_of_cons in Hn as [Hne Hn]. simpl. rewrite (IH Hn).
  destruct (N.eqb_spec d c); [congruence|reflexivity].
Qed.

Lemma rfind1_last (c : N) (a b : str) :
  c ∉ b -> rfind1 c (a ++ c :: b) = S (length a).
Proof.
  intros Hn. induction a as [|d a IH]; simpl.
  - rewrite (rfind1_absent _ _ Hn), N.eqb_refl. reflexivity.
  - rewrite IH. reflexivity.
Qed.

(** Either the character does not occur, or the text splits at its last
    occurrence. *)
Lemma rfind1_split (c : N) (s : str) :
  ((c ∉ s) /\ rfind1 c s = O) \/
  (exists a b, s = a ++ c :: b /\ (c ∉ b) /\ rfind1 c s = S (length a)).
Proof.
  induction s as [|d s IH].
  - left. split; [apply not_elem_of_nil|reflexivity].
  - destruct IH as [[Hn H0]|(a & b & -> & Hb & Hr)].
    + destruct (N.eqb_spec d c) as [->|Hne].
      * right. exists [], s. split; [reflexivity|]. split; [exact Hn|].
        apply (rfind1_last c [] s Hn).
      * left. split.
        -- apply not_elem_of_cons. split; [congruence|exact Hn].
        -- simpl. rewrite H0. destruct (N.eqb_spec d c); [congruence|reflexivity].
    + right. exists (d :: a), b. split; [reflexivity|]. split; [exact Hb|].
      apply (rfind1_last c (d :: a) b Hb).
Qed.

Lemma take_S_length {A} (a b : list A) (c : A) :
  take (S (length a)) (a ++ c :: b) = a ++ [c].
Proof.
  replace (a ++ c :: b) with ((a ++ [c]) ++ b) by (rewrite <- app_assoc; reflexivity).
  apply take_app_length'. rewrite length_app. simpl. lia.
Qed.

Lemma drop_S_length {A} (a b : list A) (c : A) :
  drop (S (length a)) (a ++ c :: b) = b.
Proof.
  replace (a ++ c :: b) with ((a ++ [c]) ++ b) by (rewrite <- app_assoc; reflexivity).
  apply drop_app_length'. rewrite length_app. simpl. lia.
Qed.

Lemma basename_no_sep (p : str) : sep ∉ basename p.
Proof.
  unfold basename. destruct (rfind1_split sep p) as [[Hn ->]|(a & b & -> & Hb & ->)].
  - exact Hn.
  - rewrite drop_S_length. exact Hb.
Qed.

(** [splitext] cuts its argument in two, and an extension starts with a
    dot. *)
Lemma splitext_parts (s : str) :
  s = fst (splitext s) ++ snd (splitext s) /\
  (snd (splitext s) = [] \/ exists e, snd (splitext s) = extsep :: e).
Proof.
  unfold splitext. destruct (_ && _) eqn:E; simpl.
  - split; [symmetry; apply take_drop|]. right.
    apply andb_true_iff in E as [E _]. apply bool_decide_eq_true in E.
    destruct (rfind1_split extsep s) as [[_ H0]|(a & b & Hs & _ & Hr)]; [lia|].
    rewrite Hr. replace (S (length a) - 1)%nat with (length a) by lia.
    rewrite Hs, drop_app_length. eauto.
  - split; [symmetry; apply app_nil_r | left; reflexivity].
Qed.

Lemma lstrip1_stable (c : N) (s : str) :
  startswith s [c] = false -> lstrip1 c s = s.
Proof.
  destruct s as [|d s]; [reflexivity|]. simpl.
  destruct (N.eqb_spec c d) as [->|Hne]; [intros H; discriminate H|].
  intros _. destruct (N.eqb_spec d c); [congruence|reflexivity].
Qed.

Lemma lstrip1_head (c : N) (s : str) : startswith (lstrip1 c s) [c] = false.
Proof.
  induction s as [|d s IH]; [reflexivity|]. simpl.
  destruct (N.eqb_spec d c) as [->|Hne]; [exact IH|].
  simpl. destruct (N.eqb_spec c d); [congruence|reflexivity].
Qed.

Lemma rstrip1_stable (c : N) (s : str) :
  endswith s [c] = false -> rstrip1 c s = s.
Proof.
  unfold endswith, rstrip1. simpl. intros H.
  rewrite (lstrip1_stable _ _ H). apply rev_involutive.
Qed.

Lemma rstrip1_tail (c : N) (s : str) : endswith (rstrip1 c s) [c] = false.
Proof.
  unfold endswith, rstrip1. rewrite rev_involutive. apply lstrip1_head.
Qed.

Lemma rstrip1_snoc (c : N) (s : str) : rstrip1 c (s ++ [c]) = rstrip1 c s.
Proof.
  unfold rstrip1. rewrite rev_app_distr. simpl. rewrite N.eqb_refl. reflexivity.
Qed.

Lemma endswith_snoc (c : N) (s : str) : endswith (s ++ [c]) [c] = true.
Proof.
  unfold endswith. rewrite rev_app_distr. simpl. rewrite N.eqb_refl. reflexivity.
Qed.

Lemma all_sep_snoc (s : str) (d : N) :
  forallb (N.eqb sep) (s ++ [d]) = true ->
  d = sep /\ forallb (N.eqb sep) s = true.
Proof.
  rewrite forallb_app. cbn [forallb]. rewrite andb_true_r.
  intros H. apply andb_true_iff in H as [Hs Hd].
  apply N.eqb_eq in Hd. split; [congruence|exact Hs].
Qed.

Lemma all_sep_endswith (s : str) :
  forallb (N.eqb sep) s = true -> s <> [] -> endswith s [sep] = true.
Proof.
  intros Hall Hne. destruct s as [|d s] using rev_ind; [congruence|].
  apply all_sep_snoc in Hall as [-> _]. apply endswith_snoc.
Qed.

Lemma endswith_not_all_sep (s : str) :
  s <> [] -> endswith s [sep] = false -> forallb (N.eqb sep) s = false.
Proof.
  intros Hne He. destruct (forallb (N.eqb sep) s) eqn:E; [|reflexivity].
  rewrite (all_sep_endswith s E Hne) in He. discriminate.
Qed.

Lemma dirname_normal (p : str) : dir_normal (dirname p).
Proof.
  unfold dirname, dir_normal. cbv zeta.
  set (head := take (rfind1 sep p) p).
  destruct (forallb (N.eqb sep) head) eqn:E2.
  - rewrite andb_false_r. left. exact E2.
  - destruct (decide (head = [])) as [E|E].
    + rewrite E in E2. discriminate.
    + rewrite (bool_decide_true _ E). simpl. right. apply rstrip1_tail.
Qed.

Lemma startswith_absent (c : N) (s : str) : c ∉ s -> startswith s [c] = false.
Proof.
  destruct s as [|d s]; [reflexivity|]. intros Hn.
  apply not_elem_of_cons in Hn as [Hne _]. simpl.
  destruct (N.eqb_spec c d); [congruence|reflexivity].
Qed.

(** Joining a directory name and a file name, and taking the result apart
    again. *)
Lemma join_dirname_basename (f n : str) :
  dir_normal f -> sep ∉ n ->
  dirname (join f n) = f /\ basename (join f n) = n.
Proof.
  intros Hf Hn. unfold join. rewrite (startswith_absent _ _ Hn).
  destruct (decide (f = [])) as [->|Hne].
  - simpl. unfold dirname, basename. rewrite (rfind1_absent _ _ Hn). split; reflexivity.
  - rewrite (bool_decide_false _ Hne). simpl.
    destruct (endswith f [sep]) eqn:He.
    + destruct Hf as [Hall|Hf]; [|congruence].
      destruct f as [|d f _] using rev_ind; [congruence|].
      destruct (all_sep_snoc _ _ Hall) as [-> _].
      unfold dirname, basename. rewrite <- app_assoc. simpl.
      rewrite (rfind1_last sep f n Hn), take_S_length, drop_S_length.
      rewrite Hall. rewrite andb_false_r. split; reflexivity.
    + unfold dirname, basename.
      rewrite (rfind1_last sep f n Hn), take_S_length, drop_S_length.
      split; [|reflexivity].
      rewrite bool_decide_true by (intros H; apply app_eq_nil in H as [_ H]; discriminate).
      rewrite forallb_app, (endswith_not_all_sep f Hne He). simpl.
      rewrite rstrip1_snoc. apply rstrip1_stable. exact He.
Qed.

Lemma drawing_suffix_no_sep : sep ∉ lit "_drawing.png".
Proof. refine (bool_decide_unpack _ _). vm_compute. exact I. Qed.

Lemma stem_no_sep (p : str) : sep ∉ fst (splitext (basename p)).
Proof.
  intros Hin. apply (basename_no_sep p).
  destruct (splitext_parts (basename p)) as [Hs _]. rewrite Hs.
  apply elem_of_app. left. exact Hin.
Qed.


Lemma startswith_app (p s : str) : startswith (p ++ s) p = true.
Proof.
  induction p as [|c p IH]; [reflexivity|]. simpl. rewrite N.eqb_refl. exact IH.
Qed.

Lemma endswith_app (s p : str) : endswith (s ++ p) p = true.
Proof. unfold endswith. rewrite rev_app_distr. apply startswith_app. Qed.

(** The picture lies in the folder of the text file, under the text
    file's name without its extension followed by [_drawing.png], and it
    is another file than the text file. *)
Lemma drawing_path_beside (p : str) :
  dirname (drawing_path_of p) = dirname p /\
  basename (drawing_path_of p) =
    fst (splitext (basename p)) ++ lit "_drawing.png" /\
  drawing_path_of p <> p.
Proof.
  assert (Hn : sep ∉ fst (splitext (basename p)) ++ lit "_drawing.png").
  { intros Hin. apply elem_of_app in Hin as [Hin|Hin].
    - exact (stem_no_sep p Hin).
    - exact (drawing_suffix_no_sep Hin). }
  destruct (join_dirname_basename (dirname p) _ (dirname_normal p) Hn) as [Hd Hb].
  unfold drawing_path_of. split; [exact Hd|]. split; [exact Hb|].
  intros Heq. rewrite Heq in Hb.
  destruct (splitext_parts (basename p)) as [Hs He].
  rewrite Hs in Hb at 1. apply app_inv_head in Hb.
  destruct He as [He|[e He]]; rewrite He in Hb; discriminate.
Qed.

(** ** Saving *)

Lemma ask_target_given (current_file : option str) (d : Dialogs) (t : str) :
  ask_target current_file d = Some t ->
  str_bool current_file = true -> current_file = Some t.
Proof. unfold ask_target. intros H Hb. rewrite Hb in H. exact H. Qed.

Lemma ask_target_txt (current_file : option str) (d : Dialogs) (t : str) :
  ask_target current_file d = Some t ->
  str_bool current_file = false -> endswith t (lit ".txt") = true.
Proof.
  unfold ask_target. intros H Hb. rewrite Hb in H.
  destruct (bool_decide (folder_path d = [])); [discriminate|].
  destruct (bool_decide (project_name d = [])); [discriminate|].
  destruct (endswith (project_name d) (lit ".txt")) eqn:E.
  - injection H as <-. exact E.
  - injection H as <-. apply endswith_app.
Qed.

Section SaveFile.

Variable writable : str -> bool.

(** The picture [save_image] composes, written out: the white canvas,
    each listed image at its place and size, the drawing layer. *)
Lemma save_image_ops (c : DrawingCanvas) :
  save_image c =
  FillWhite (canvas_width c) (canvas_height c) ::
  map (fun o => DrawScaled (x o) (y o) (pixmap o) (width o) (height o))
      (omap (fun i => objs c !! i) (images c)) ++
  [DrawLayer (drawing_layer c)].
Proof.
  unfold save_image, compose, image_objects. f_equal. f_equal.
  induction (omap (fun i => objs c !! i) (images c)) as [|o l IH];
    [reflexivity|].
  cbn [map concat paint_image andb app]. f_equal. exact IH.
Qed.

(** C1: a save with a known, writable target writes the editor's plain
    text to the target and returns it.  When the pad reports a drawing and
    the picture's path can be written, the picture is written there, named
    after the text file without its extension followed by [_drawing.png],
    in the text file's folder: the white canvas, every listed image in
    list order at its place and size, then the drawing layer, without
    selection marks.  When the pad reports a drawing and the picture's
    path cannot be written, [save_drawing] returns [False], which
    [save_file] does not look at: no picture is written, and the message box
    still names the picture among the saved files.  With no drawing no
    other file is touched and the box names the text file only.  A target
    obtained from the dialogs ends in [.txt]. *)
Theorem save_file_text_and_drawing (editor : QPlainTextEdit)
    (current_file : option str) (drawing_pad : option DrawingPad)
    (d : Dialogs) (w : World) (target : str) :
  ask_target current_file d = Some target ->
  writable target = true ->
  let png := drawing_path_of target in
  let r := save_file writable editor current_file drawing_pad d w in
  let saved_text := lit "Saved:" ++ [10%N] ++ basename target in
  (* the call returns the target *)
  (exists editor', fst r = Returned (Some target, editor') /\
                   toPlainText editor' = toPlainText editor) /\
  (* the text file *)
  fs (snd r) !! target = Some (TextFile (toPlainText editor)) /\
  (* the picture, when the pad reports a drawing and the path can be
     written *)
  (forall pad, drawing_pad = Some pad -> has_drawing pad = true ->
     writable png = true ->
     fs (snd r) !! png =
       Some (PngFile
         (FillWhite (canvas_width (canvas pad)) (canvas_height (canvas pad)) ::
          map (fun o => DrawScaled (x o) (y o) (pixmap o) (width o) (height o))
              (omap (fun i => objs (canvas pad) !! i) (images (canvas pad))) ++
          [DrawLayer (drawing_layer (canvas pad))])) /\
     boxes (snd r) =
       boxes w ++ [saved_text ++ [10%N] ++ basename png]) /\
  (* the picture cannot be written: none is, and it is announced all the
     same *)
  (forall pad, drawing_pad = Some pad -> has_drawing pad = true ->
     writable png = false ->
     fs (snd r) !! png = fs w !! png /\
     boxes (snd r) =
       boxes w ++ [saved_text ++ [10%N] ++ basename png]) /\
  (* no drawing: no file but the text file is touched *)
  (match drawing_pad with
   | Some pad => has_drawing pad = false
   | None => True
   end ->
   (forall path, path <> target -> fs (snd r) !! path = fs w !! path) /\
   boxes (snd r) = boxes w ++ [saved_text]) /\
  (* nothing else is ever written *)
  (forall path, path <> target -> path <> png ->
     fs (snd r) !! path = fs w !! path) /\
  (* where the picture goes *)
  dirname png = dirname target /\
  basename png = fst (splitext (basename target)) ++ lit "_drawing.png" /\
  png <> target /\
  (* which file is the target *)
  (str_bool current_file = true -> current_file = Some target) /\
  (str_bool current_file = false -> endswith target (lit ".txt") = true).
Proof.
  intros Ht Hw png r saved_text.
  destruct (drawing_path_beside target) as (Hdir & Hbase & Hne).
  fold png in Hdir, Hbase, Hne.
  assert (Hr : r =
    (Returned (Some target,
               mkEditor (chars editor) (formats editor) false
                        (text_cursor editor)),
     mkWorld
       (match drawing_pad with
        | Some pad =>
            if has_drawing pad && writable png
            then <[png := PngFile (save_drawing pad)]>
                   (<[target := TextFile (toPlainText editor)]> (fs w))
            else <[target := TextFile (toPlainText editor)]> (fs w)
        | None => <[target := TextFile (toPlainText editor)]> (fs w)
        end)
       (boxes w ++
        [lit "Saved:" ++ [10%N] ++ basename target ++
         (if match drawing_pad with
             | Some pad => has_drawing pad
             | None => false
             end
          then [10%N] ++ basename png else [])]))).
  { unfold r, save_file. rewrite Ht, Hw. destruct drawing_pad; reflexivity. }
  rewrite Hr. cbn [fst snd fs boxes].
  split; [eexists; split; reflexivity|].
  split; [|split; [|split; [|split; [|split]]]].
  - destruct drawing_pad as [pad|]; [|apply lookup_insert_eq].
    destruct (has_drawing pad && writable png).
    + rewrite lookup_insert_ne by exact Hne. apply lookup_insert_eq.
    + apply lookup_insert_eq.
  - intros pad -> Hd Hp. rewrite Hd, Hp. cbn [andb]. split.
    + rewrite lookup_insert_eq. unfold save_drawing.
      rewrite save_image_ops. reflexivity.
    + unfold saved_text. rewrite <- !app_assoc. reflexivity.
  - intros pad -> Hd Hp. rewrite Hd, Hp. cbn [andb]. split.
    + apply lookup_insert_ne. congruence.
    + unfold saved_text. rewrite <- !app_assoc. reflexivity.
  - intros Hno. split.
    + intros path Hpath. destruct drawing_pad as [pad|].
      * rewrite Hno. cbn [andb]. apply lookup_insert_ne. congruence.
      * apply lookup_insert_ne. congruence.
    + unfold saved_text. destruct drawing_pad as [pad|];
        [rewrite Hno|]; rewrite app_nil_r, <- ?app_assoc; reflexivity.
  - intros path Hp1 Hp2. destruct drawing_pad as [pad|].
    + destruct (has_drawing pad && writable png).
      * rewrite !lookup_insert_ne by congruence. reflexivity.
      * apply lookup_insert_ne. congruence.
    + apply lookup_insert_ne. congruence.
  - repeat split; try assumption.
    + apply (ask_target_given _ d). exact Ht.
    + apply (ask_target_txt current_file d). exact Ht.
Qed.

(** Without a writable target the call raises and writes nothing. *)
Lemma save_file_not_writable (editor : QPlainTextEdit)
    (current_file : option str) (drawing_pad : option DrawingPad)
    (d : Dialogs) (w : World) (target : str) :
  ask_target current_file d = Some target ->
  writable target = false ->
  save_file writable editor current_file drawing_pad d w =
    (Raised (lit "OSError"), w).
Proof. intros Ht Hw. unfold save_file. rewrite Ht, Hw. reflexivity. Qed.

(** A cancelled dialog returns [None] and writes nothing. *)
Lemma save_file_cancelled (editor : QPlainTextEdit)
    (current_file : option str) (drawing_pad : option DrawingPad)
    (d : Dialogs) (w : World) :
  ask_target current_file d = None ->
  save_file writable editor current_file drawing_pad d w =
    (Returned (None, editor), w).
Proof. intros Ht. unfold save_file. rewrite Ht. reflexivity. Qed.

End SaveFile.

Lemma save_file_text_and_drawing_witness :
  let r := save_file drawing_locked editor_demo (Some (lit "notes/a.txt"))
             (Some pad_demo) (mkDialogs [] []) world_demo in
  fst r = Returned (Some (lit "notes/a.txt"),
                    mkEditor (chars editor_demo) (formats editor_demo) false
                             (text_cursor editor_demo)) /\
  fs (snd r) !! lit "notes/a_drawing.png" = None /\
  boxes (snd r) =
    [lit "Saved:" ++ [10%N] ++ lit "a.txt" ++ [10%N] ++ lit "a_drawing.png"].
Proof.
  cbv zeta.
  destruct (proj1 (proj2 (proj2 (proj2
             (save_file_text_and_drawing drawing_locked editor_demo
                (Some (lit "notes/a.txt")) (Some pad_demo) (mkDialogs [] [])
                world_demo (lit "notes/a.txt") eq_refl eq_refl))))
             pad_demo eq_refl eq_refl eq_refl) as [Hpng Hbox].
  split; [reflexivity|]. split.
  - etransitivity; [exact Hpng | reflexivity].
  - etransitivity; [exact Hbox | reflexivity].
Defined.

End FilesFacts.

(* ===================================================================== *)
(** * Properties of the voice module *)
(* ===================================================================== *)

Module VoiceFacts.
Import Py Voice.

(** ** One voice worker *)

Lemma isRunning_alter (s : State) (f : VoiceWorker -> VoiceWorker)
    (w w' : wid) :
  (forall o, status (f o) = Running -> status o = Running) ->
  isRunning (with_workers s (alter f w (workers s))) w' = true ->
  isRunning s w' = true.
Proof.
  intros Hf. unfold isRunning. simpl.
  destruct (decide (w = w')) as [->|Hne].
  - rewrite lookup_alter_eq. destruct (workers s !! w') as [o|]; simpl; [|congruence].
    intros H. apply bool_decide_eq_true in H. apply bool_decide_eq_true. auto.
  - rewrite lookup_alter_ne by exact Hne. auto.
Qed.

Lemma alter_is_Some (m : gmap wid VoiceWorker) (f : VoiceWorker -> VoiceWorker)
    (w w' : wid) :
  is_Some (alter f w m !! w') <-> is_Some (m !! w').
Proof.
  destruct (decide (w = w')) as [->|Hne].
  - rewrite lookup_alter_eq. destruct (m !! w'); simpl; split; intros [? ?]; eauto; discriminate.
  - rewrite lookup_alter_ne by exact Hne. tauto.
Qed.

Lemma alter_dom (m : gmap wid VoiceWorker) (f : VoiceWorker -> VoiceWorker)
    (w : wid) :
  dom (alter f w m) = dom m.
Proof. apply dom_alter_L. Qed.

Lemma worker_stop_not_running (o : VoiceWorker) :
  status (worker_stop o) <> Running.
Proof. unfold worker_stop. simpl. destruct (status o); discriminate. Qed.

(** After the shutdown sequence nothing is running and nothing is
    retained; no worker object was created. *)
Lemma shutdown_spec (s : State) (w : wid) (e1 e2 : bool) :
  voice_ok s -> _voice_worker_ref s = Some w ->
  let s' := shutdown s w e1 e2 in
  _voice_worker_ref s' = None /\
  (forall w', isRunning s' w' = false) /\
  dom (workers s') = dom (workers s) /\
  next_id s' = next_id s.
Proof.
  intros [Hrun Hfresh] Href. unfold shutdown.
  set (s1 := with_workers s (alter worker_stop w (workers s))).
  set (s2 := with_workers s1 (alter (timed_wait e1) w (workers s1))).
  assert (H2 : forall w', isRunning s2 w' = false).
  { intros w'. destruct (isRunning s2 w') eqn:E; [|reflexivity]. exfalso.
    unfold s2 in E. apply isRunning_alter in E.
    2:{ intros o. unfold timed_wait. destruct (status o) eqn:Es;
          [rewrite Es; discriminate | reflexivity | rewrite Es; discriminate]. }
    assert (w' = w) as ->.
    { unfold s1 in E. apply isRunning_alter in E.
      - apply Hrun in E. congruence.
      - intros o Ho. exfalso. exact (worker_stop_not_running o Ho). }
    revert E. unfold isRunning, s1. simpl. rewrite lookup_alter_eq.
    destruct (workers s !! w) as [o|]; simpl; [|discriminate].
    intros E. apply bool_decide_eq_true in E.
    exact (worker_stop_not_running o E). }
  rewrite (H2 w). cbv zeta. split; [reflexivity|]. split; [|split].
  - intros w'. destruct (isRunning _ w') eqn:E; [|reflexivity].
    apply isRunning_alter in E; [|intros o Ho; exact Ho].
    rewrite H2 in E. discriminate.
  - simpl. rewrite !alter_dom. reflexivity.
  - reflexivity.
Qed.

(** Starting a worker when none is running: the new one is the only one
    running and the one retained. *)
Lemma start_worker_spec (s : State) (cb : bool) (v : Z) :
  voice_ok s -> is_voice_active s = false ->
  let s' := start_worker s cb v in
  let w := next_id s in
  workers s !! w = None /\
  _voice_worker_ref s' = Some w /\
  isRunning s' w = true /\
  (forall w', isRunning s' w' = true -> w' = w) /\
  dom (workers s') = {[w]} ∪ dom (workers s) /\
  next_id s' = S w.
Proof.
  intros [Hrun Hfresh] Hidle. simpl.
  assert (Hnone : workers s !! next_id s = None).
  { destruct (workers s !! next_id s) eqn:E; [|reflexivity].
    assert (is_Some (workers s !! next_id s)) as H by eauto.
    apply Hfresh in H. lia. }
  assert (Hquiet : forall w, isRunning s w = false).
  { intros w. destruct (isRunning s w) eqn:E; [|reflexivity].
    pose proof (Hrun w E) as Href. unfold is_voice_active in Hidle.
    rewrite Href in Hidle. congruence. }
  split; [exact Hnone|]. split; [reflexivity|]. split; [|split; [|split]].
  - unfold isRunning, start_worker. simpl. rewrite lookup_insert_eq. reflexivity.
  - intros w'. unfold isRunning, start_worker. simpl.
    destruct (decide (next_id s = w')) as [->|Hne]; [reflexivity|].
    rewrite lookup_insert_ne by exact Hne. intros E.
    specialize (Hquiet w'). unfold isRunning in Hquiet. congruence.
  - unfold start_worker. simpl. apply dom_insert_L.
  - reflexivity.
Qed.

Lemma voice_ok_initial : voice_ok initial.
Proof.
  split.
  - intros w. unfold isRunning. simpl. rewrite lookup_empty. discriminate.
  - intros w [o H]. simpl in H. rewrite lookup_empty in H. discriminate.
Qed.

Lemma voice_ok_shutdown (s : State) (w : wid) (e1 e2 : bool) :
  voice_ok s -> _voice_worker_ref s = Some w ->
  voice_ok (shutdown s w e1 e2).
Proof.
  intros Hok Href.
  destruct (shutdown_spec s w e1 e2 Hok Href) as (_ & Hq & Hdom & Hn).
  split.
  - intros w'. rewrite Hq. discriminate.
  - intros w' Hs. rewrite Hn. apply (ok_fresh s Hok).
    apply elem_of_dom. rewrite <- Hdom. apply elem_of_dom. exact Hs.
Qed.

Lemma voice_ok_start (s : State) (cb : bool) (v : Z) :
  voice_ok s -> is_voice_active s = false ->
  voice_ok (start_worker s cb v).
Proof.
  intros Hok Hidle.
  destruct (start_worker_spec s cb v Hok Hidle) as (_ & Href & _ & Hone & Hdom & Hn).
  split.
  - intros w' E. rewrite (Hone w' E). exact Href.
  - intros w' Hs. rewrite Hn. apply elem_of_dom in Hs. rewrite Hdom in Hs.
    apply elem_of_union in Hs as [Hs|Hs].
    + apply elem_of_singleton in Hs. lia.
    + apply elem_of_dom in Hs. apply (ok_fresh s Hok) in Hs. lia.
Qed.

Lemma voice_ok_alter (s : State) (f : VoiceWorker -> VoiceWorker) (w : wid) :
  (forall o, status (f o) = Running -> status o = Running) ->
  voice_ok s -> voice_ok (with_workers s (alter f w (workers s))).
Proof.
  intros Hf [Hrun Hfresh]. split.
  - intros w' E. apply isRunning_alter in E; [|exact Hf]. apply Hrun. exact E.
  - intros w' Hs. simpl in Hs. apply alter_is_Some in Hs. apply Hfresh. exact Hs.
Qed.

Lemma toggle_voice_cases (s : State) (cb : bool) (v : Z) (e1 e2 : bool) :
  toggle_voice s cb v e1 e2 =
    if is_voice_active s
    then match _voice_worker_ref s with
         | Some w =>
             let s' := shutdown s w e1 e2 in
             (false, mkState (_voice_worker_ref s') (workers s') (next_id s')
                       (printed s' ++ [lit "Voice recognition stopped."]))
         | None => (true, start_worker s cb v)
         end
    else (true, start_worker s cb v).
Proof.
  unfold toggle_voice, is_voice_active.
  destruct (_voice_worker_ref s) as [w|]; [|reflexivity].
  destruct (isRunning s w); reflexivity.
Qed.

Lemma voice_ok_printed (s : State) (p : list str) :
  voice_ok s ->
  voice_ok (mkState (_voice_worker_ref s) (workers s) (next_id s) p).
Proof. intros [Hrun Hfresh]. split; assumption. Qed.

Lemma voice_ok_step (s : State) (a : Action) :
  voice_ok s -> voice_ok (step s a).
Proof.
  intros Hok. destruct a as [cb v e1 e2|e1 e2|v|w]; simpl.
  - rewrite toggle_voice_cases. destruct (is_voice_active s) eqn:Hact.
    + destruct (_voice_worker_ref s) as [w|] eqn:Href; cbv zeta; cbn [snd].
      * apply (voice_ok_printed (shutdown s w e1 e2)).
        apply voice_ok_shutdown; assumption.
      * unfold is_voice_active in Hact. rewrite Href in Hact. discriminate.
    + apply voice_ok_start; assumption.
  - unfold stop_voice. destruct (_voice_worker_ref s) as [w|] eqn:Href; [|exact Hok].
    destruct (isRunning s w); [|exact Hok]. apply voice_ok_shutdown; assumption.
  - unfold set_sensitivity. destruct (_voice_worker_ref s) as [w|]; [|exact Hok].
    destruct (isRunning s w); [|exact Hok].
    apply voice_ok_alter; [|exact Hok]. intros o H. exact H.
  - unfold worker_exits. apply voice_ok_alter; [|exact Hok].
    intros o. destruct (status o) eqn:E; simpl; congruence.
Qed.

Lemma voice_ok_exec (l : list Action) : voice_ok (exec l).
Proof.
  unfold exec. induction l as [|a l IH] using rev_ind.
  - apply voice_ok_initial.
  - rewrite foldl_snoc. apply voice_ok_step. exact IH.
Qed.

(** C4: after any series of calls and worker exits, a worker that is
    running is the one the module retains, so at most one exists;
    [toggle_voice] with a running worker stops it, retains none, creates
    none and returns [False]; otherwise it creates one worker, starts and
    retains it and returns [True]; [is_voice_active] holds exactly when the
    retained worker is running; [stop_voice] leaves no worker running. *)
Theorem single_voice_worker (l : list Action) :
  let s := exec l in
  (* a running worker is the retained one *)
  (forall w, isRunning s w = true -> _voice_worker_ref s = Some w) /\
  (is_voice_active s = true <->
   exists w, _voice_worker_ref s = Some w /\ isRunning s w = true) /\
  (* toggling *)
  (forall cb v e1 e2,
     let r := toggle_voice s cb v e1 e2 in
     if is_voice_active s
     then fst r = false /\ _voice_worker_ref (snd r) = None /\
          (forall w, isRunning (snd r) w = false) /\
          dom (workers (snd r)) = dom (workers s)
     else fst r = true /\
          exists w, workers s !! w = None /\
            _voice_worker_ref (snd r) = Some w /\
            isRunning (snd r) w = true /\
            (forall w', isRunning (snd r) w' = true -> w' = w) /\
            dom (workers (snd r)) = {[w]} ∪ dom (workers s)) /\
  (* stopping *)
  (forall e1 e2,
     let s' := stop_voice s e1 e2 in
     (forall w, isRunning s' w = false) /\
     dom (workers s') = dom (workers s) /\
     if is_voice_active s then _voice_worker_ref s' = None
     else s' = s).
Proof.
  intros s. pose proof (voice_ok_exec l) as Hok. fold s in Hok.
  split; [apply (ok_running s Hok)|]. split; [|split].
  - unfold is_voice_active. split.
    + destruct (_voice_worker_ref s) as [w|]; [eauto | discriminate].
    + intros (w & -> & E). exact E.
  - intros cb v e1 e2 r. unfold r. rewrite toggle_voice_cases.
    destruct (is_voice_active s) eqn:Hact.
    + destruct (_voice_worker_ref s) as [w|] eqn:Href.
      * destruct (shutdown_spec s w e1 e2 Hok Href) as (Hr & Hq & Hdom & _).
        cbv zeta. cbn [fst snd _voice_worker_ref workers].
        repeat split; assumption.
      * unfold is_voice_active in Hact. rewrite Href in Hact. discriminate.
    + destruct (start_worker_spec s cb v Hok Hact)
        as (Hnone & Href & Hrun & Hone & Hdom & _).
      cbn [fst snd]. split; [reflexivity|]. exists (next_id s).
      repeat split; assumption.
  - intros e1 e2 s'. unfold s', stop_voice.
    destruct (is_voice_active s) eqn:Hact; unfold is_voice_active in Hact.
    + destruct (_voice_worker_ref s) as [w|] eqn:Href; [|discriminate].
      rewrite Hact.
      destruct (shutdown_spec s w e1 e2 Hok Href) as (Hr & Hq & Hdom & _).
      repeat split; assumption.
    + assert (Hquiet : forall w, isRunning s w = false).
      { intros w. destruct (isRunning s w) eqn:E; [|reflexivity].
        pose proof (ok_running s Hok w E) as Href.
        rewrite Href in Hact. congruence. }
      destruct (_voice_worker_ref s) as [w|] eqn:Href.
      * rewrite Hact. repeat split; auto.
      * repeat split; auto.
Qed.

End VoiceFacts.

(* ===================================================================== *)
(** * Properties of the spell checker *)
(* ===================================================================== *)

Module SpellFacts.
Import Py Editor Spell.

(** ** Highlighting *)

Section Highlight.

Variable hash : str -> Z.

Lemma highlight_records_hash (g : Globals) (editor : QPlainTextEdit) :
  _last_text_hash (highlight_misspelled_words hash g editor) =
    Some (str_of_int (hash (toPlainText editor))).
Proof. reflexivity. Qed.

Lemma apply_highlights_stale (g : Globals) (editor : option QPlainTextEdit)
    (errors : list Occurrence) (text_hash : str) :
  Some text_hash <> _last_text_hash g ->
  apply_highlights g editor errors text_hash = editor.
Proof.
  intros Hne. unfold apply_highlights. destruct editor as [ed|]; [|reflexivity].
  rewrite bool_decide_true by exact Hne. reflexivity.
Qed.


End Highlight.


Lemma set_range_length (fs : list QTextCharFormat) (lo hi : Z)
    (f : QTextCharFormat) :
  length (set_range fs lo hi f) = length fs.
Proof. unfold set_range. apply length_imap. Qed.

Lemma setCharFormat_length (fs : list QTextCharFormat) (c : QTextCursor)
    (f : QTextCharFormat) :
  length (fst (setCharFormat fs c f)) = length fs.
Proof.
  unfold setCharFormat. destruct (hasSelection c); simpl;
    [apply set_range_length | reflexivity].
Qed.

Lemma underline_length (n : Z)
    (acc : list QTextCharFormat * QTextCursor * bool) (e : Occurrence) :
  length (fst (fst (underline n acc e))) = length (fst (fst acc)).
Proof.
  destruct acc as [[fs fc] ed], e as [[s t] w]. unfold underline.
  pose proof (setCharFormat_length fs
    (setPosition n (setPosition n fc s MoveAnchor) t KeepAnchor) error_fmt) as H.
  destruct (setCharFormat fs _ error_fmt) as [fs' b]. exact H.
Qed.

Lemma underline_all_length (n : Z) (errors : list Occurrence)
    (acc : list QTextCharFormat * QTextCursor * bool) :
  length (fst (fst (foldl (underline n) acc errors))) = length (fst (fst acc)).
Proof.
  revert acc. induction errors as [|e errors IH]; intros acc; [reflexivity|].
  simpl. rewrite IH. apply underline_length.
Qed.

(** Putting a cursor back on the positions it came from. *)
Lemma restore_cursor (n : Z) (c : QTextCursor) :
  0 <= anchor c <= n -> 0 <= position c <= n ->
  (if hasSelection c
   then setPosition n (setPosition n c (anchor c) MoveAnchor)
                    (position c) KeepAnchor
   else setPosition n c (position c) MoveAnchor) = c.
Proof.
  intros Ha Hp. destruct c as [a p]. simpl in *.
  unfold hasSelection, setPosition. simpl.
  assert (Ea : (a <? 0) || (n + 1 <=? a) = false).
  { apply orb_false_intro; [apply Z.ltb_ge | apply Z.leb_gt]; lia. }
  assert (Ep : (p <? 0) || (n + 1 <=? p) = false).
  { apply orb_false_intro; [apply Z.ltb_ge | apply Z.leb_gt]; lia. }
  destruct (p =? a) eqn:E; simpl.
  - rewrite Ep. apply Z.eqb_eq in E. congruence.
  - rewrite Ea. simpl. rewrite Ep. reflexivity.
Qed.

(** C6: when [apply_highlights] reformats (the hash is the recorded one),
    the editor's cursor has the position and the anchor it had before, a
    selection exists afterwards exactly if it did before, and the
    characters of the document are the same; only formats change. *)
Theorem reformatting_preserves_cursor (g : Globals) (ed : QPlainTextEdit)
    (errors : list Occurrence) (text_hash : str) :
  _last_text_hash g = Some text_hash ->
  0 <= anchor (text_cursor ed) <= Z.of_nat (length (chars ed)) ->
  0 <= position (text_cursor ed) <= Z.of_nat (length (chars ed)) ->
  exists ed',
    apply_highlights g (Some ed) errors text_hash = Some ed' /\
    position (text_cursor ed') = position (text_cursor ed) /\
    anchor (text_cursor ed') = anchor (text_cursor ed) /\
    hasSelection (text_cursor ed') = hasSelection (text_cursor ed) /\
    chars ed' = chars ed /\
    toPlainText ed' = toPlainText ed /\
    length (formats ed') = length (formats ed).
Proof.
  intros Hh Ha Hp. unfold apply_highlights.
  rewrite bool_decide_false by (rewrite Hh; tauto).
  pose proof (setCharFormat_length (formats ed)
    (mkCursor 0 (Z.of_nat (length (chars ed)))) default_fmt) as H1.
  destruct (setCharFormat (formats ed) _ default_fmt) as [fs1 e1].
  pose proof (underline_all_length (Z.of_nat (length (chars ed))) errors
    (fs1, mkCursor 0 (Z.of_nat (length (chars ed))), e1)) as H2.
  destruct (foldl _ _ errors) as [[fs2 fc2] e2].
  rewrite (restore_cursor _ _ Ha Hp).
  eexists. split; [reflexivity|]. simpl in *.
  repeat split; congruence.
Qed.

Lemma reformatting_preserves_cursor_witness :
  exists ed',
    apply_highlights (highlight_misspelled_words length_hash globals_init
                        editor_demo)
      (Some editor_demo) [(0, 4, lit "helo")] (lit "4") = Some ed' /\
    text_cursor ed' = mkCursor 1 4 /\ chars ed' = chars editor_demo.
Proof.
  destruct (reformatting_preserves_cursor
              (highlight_misspelled_words length_hash globals_init editor_demo)
              editor_demo [(0, 4, lit "helo")] (lit "4"))
    as (ed' & Happ & Hp & Ha & _ & Hc & _).
  - reflexivity.
  - simpl. lia.
  - simpl. lia.
  - exists ed'. split; [exact Happ|]. split; [|exact Hc].
    destruct (text_cursor ed') as [a p]. simpl in Hp, Ha. congruence.
Defined.

(** ** The regular expression *)

Section Words.

Variable uni_isalnum : N -> bool.

Local Abbreviation word_in := (Spell.word_in uni_isalnum).
Local Abbreviation word_occurrence := (Spell.word_occurrence uni_isalnum).
Local Abbreviation inside := (Spell.inside uni_isalnum).
Local Abbreviation is_word := (is_word uni_isalnum).
Local Abbreviation is_word_opt := (is_word_opt uni_isalnum).
Local Abbreviation boundary := (boundary uni_isalnum).
Local Abbreviation try_end := (try_end uni_isalnum).
Local Abbreviation match_here := (match_here uni_isalnum).
Local Abbreviation scan := (scan uni_isalnum).
Local Abbreviation finditer := (finditer uni_isalnum).

Lemma is_letter_word (c : N) : is_letter c = true -> is_word c = true.
Proof.
  unfold Spell.is_word, is_letter. intros H.
  destruct (N.ltb_spec c 128) as [Hlt|Hge].
  - rewrite H. reflexivity.
  - exfalso. apply orb_true_iff in H as [H|H];
      apply andb_true_iff in H as [H1 H2];
      apply N.leb_le in H1, H2; lia.
Qed.

Lemma head_first (s : str) : head s = s !! O.
Proof. destruct s; reflexivity. Qed.

Lemma is_letter_opt_word (o : option N) :
  is_letter_opt o = true -> is_word_opt o = true.
Proof. destruct o as [c|]; [apply is_letter_word | discriminate]. Qed.

Lemma not_word_not_letter (o : option N) :
  is_word_opt o = false -> is_letter_opt o = false.
Proof.
  intros H. destruct (is_letter_opt o) eqn:E; [|reflexivity].
  apply is_letter_opt_word in E. congruence.
Qed.

Lemma letters_run_letter (s : str) (k : nat) :
  (k < letters_run s)%nat -> is_letter_opt (s !! k) = true.
Proof.
  revert k. induction s as [|c s IH]; intros k Hk; simpl in Hk; [lia|].
  destruct (is_letter c) eqn:E; [|lia].
  destruct k as [|k]; simpl; [exact E | apply IH; lia].
Qed.

Lemma letters_run_exact (s : str) (n : nat) :
  (forall k, (k < n)%nat -> is_letter_opt (s !! k) = true) ->
  is_letter_opt (s !! n) = false ->
  letters_run s = n.
Proof.
  revert n. induction s as [|c s IH]; intros n Hl Hn.
  - destruct n as [|n]; [reflexivity|]. specialize (Hl O ltac:(lia)). discriminate.
  - destruct n as [|n]; simpl in *.
    + rewrite Hn. reflexivity.
    + pose proof (Hl O ltac:(lia)) as H0. simpl in H0. rewrite H0.
      f_equal. apply IH; [|exact Hn].
      intros k Hk. apply (Hl (S k)). lia.
Qed.

Lemma try_end_Some (s : str) (k n : nat) :
  try_end s k = Some n ->
  (1 <= n <= k)%nat /\ boundary (s !! (n - 1)%nat) (s !! n) = true.
Proof.
  induction k as [|k IH]; simpl; [discriminate|].
  destruct (boundary (s !! k) (s !! S k)) eqn:E.
  - intros [= <-]. split; [lia|]. simpl. rewrite Nat.sub_0_r. exact E.
  - intros H. destruct (IH H) as [Hn Hb]. split; [lia|exact Hb].
Qed.

(** A match at the head of the text is a maximal word starting there. *)
Lemma match_here_word (before : option N) (s : str) (n : nat) :
  match_here before s = Some n <-> word_in before s O n.
Proof.
  unfold Spell.match_here, Spell.word_in. split.
  - destruct (boundary before (head s)) eqn:Eb; [|discriminate].
    intros H. apply try_end_Some in H as [Hn Hb].
    assert (Hl : forall k, (0 <= k < n)%nat -> is_letter_opt (s !! k) = true).
    { intros k Hk. apply letters_run_letter. lia. }
    assert (Hw : is_word_opt (s !! n) = false).
    { pose proof (is_letter_opt_word _ (Hl (n - 1)%nat ltac:(lia))) as H1.
      unfold Spell.boundary in Hb. rewrite H1 in Hb.
      destruct (is_word_opt (s !! n)); [discriminate|reflexivity]. }
    split; [lia|]. split; [exact Hl|]. split; [|exact Hw].
    pose proof (is_letter_opt_word _ (Hl O ltac:(lia))) as H0.
    rewrite <- head_first in H0. unfold Spell.boundary in Eb. rewrite H0 in Eb.
    destruct (is_word_opt before); [discriminate|reflexivity].
  - intros (Hn & Hl & Hb & He).
    assert (Hrun : letters_run s = n).
    { apply letters_run_exact; [intros k Hk; apply Hl; lia|].
      apply not_word_not_letter. exact He. }
    pose proof (is_letter_opt_word _ (Hl O ltac:(lia))) as H0.
    rewrite <- head_first in H0.
    unfold Spell.boundary at 1. rewrite Hb, H0. simpl. rewrite Hrun.
    destruct n as [|n]; [lia|]. simpl.
    pose proof (is_letter_opt_word _ (Hl n ltac:(lia))) as H1.
    unfold Spell.boundary. rewrite H1, He. reflexivity.
Qed.

(** A word that starts at the head ends where the run of letters ends. *)
Lemma word_in_head_unique (before : option N) (s : str) (n b : nat) :
  word_in before s O n -> word_in before s O b -> b = n.
Proof.
  intros (Hn & Hl & _ & He) (Hb & Hl' & _ & He').
  rewrite <- (letters_run_exact s n), <- (letters_run_exact s b); try reflexivity.
  - intros k Hk. apply Hl'. lia.
  - apply not_word_not_letter. exact He'.
  - intros k Hk. apply Hl. lia.
  - apply not_word_not_letter. exact He.
Qed.

(** Words that do not start at the head are the words of the tail. *)
Lemma word_in_tail (before : option N) (c : N) (s : str) (a b : nat) :
  word_in before (c :: s) (S a) (S b) <-> word_in (Some c) s a b.
Proof.
  unfold Spell.word_in. split.
  - intros (Hab & Hl & Hb & He). split; [lia|]. split; [|split].
    + intros k Hk. apply (Hl (S k)). lia.
    + destruct a as [|a]; exact Hb.
    + exact He.
  - intros (Hab & Hl & Hb & He). split; [lia|]. split; [|split].
    + intros [|k] Hk; [lia|]. simpl. apply Hl. lia.
    + destruct a as [|a]; exact Hb.
    + exact He.
Qed.

(** Inside a match no word starts before the match ends. *)
Lemma inside_no_head (before : option N) (s : str) (skip b : nat) :
  inside before s (S skip) -> ~ word_in before s O b.
Proof.
  intros (Hb & _ & _) (_ & _ & Hb' & _). congruence.
Qed.

Lemma inside_tail (before : option N) (c : N) (s : str) (k : nat) :
  inside before (c :: s) (S k) -> inside (Some c) s k.
Proof.
  intros (_ & Hl & He). destruct k as [|k]; [exact I|].
  split; [|split].
  - apply (is_letter_opt_word (Some c)). apply (Hl O). lia.
  - intros j Hj. apply (Hl (S j)). lia.
  - exact He.
Qed.

Lemma word_inside_tail (before : option N) (c : N) (s : str) (n : nat) :
  word_in before (c :: s) O n -> inside (Some c) s (n - 1).
Proof.
  intros (Hn & Hl & _ & He). destruct n as [|n]; [lia|].
  simpl. rewrite Nat.sub_0_r. destruct n as [|n]; [exact I|].
  split; [|split].
  - apply (is_letter_opt_word (Some c)). apply (Hl O). lia.
  - intros j Hj. apply (Hl (S j)). lia.
  - exact He.
Qed.

Lemma occ_at_tail (c : N) (s : str) (i a b : nat) :
  occ_at (c :: s) i (S a) (S b) = occ_at s (S i) a b.
Proof.
  unfold occ_at. simpl. repeat f_equal; lia.
Qed.

(** The scan yields exactly the maximal words of the text ahead. *)
Lemma scan_words (s : str) :
  forall (before : option N) (i skip : nat) (m : Occurrence),
    inside before s skip ->
    (m ∈ scan before s i skip <->
     exists a b, m = occ_at s i a b /\ word_in before s a b).
Proof.
  induction s as [|c s IH]; intros before i skip m Hin.
  - simpl. split.
    + intros H. apply elem_of_nil in H. contradiction.
    + intros (a & b & _ & Hab & Hl & _).
      specialize (Hl a ltac:(lia)). destruct a; discriminate Hl.
  - assert (Htail : forall before',
              (forall b, ~ word_in before' (c :: s) O b) ->
              ((exists a b, m = occ_at s (S i) a b /\ word_in (Some c) s a b) <->
               (exists a b, m = occ_at (c :: s) i a b /\
                            word_in before' (c :: s) a b))).
    { intros before' Hno. split.
      - intros (a & b & -> & Hw). exists (S a), (S b).
        rewrite occ_at_tail. split; [reflexivity|]. apply word_in_tail. exact Hw.
      - intros (a & b & -> & Hw). destruct a as [|a]; [destruct (Hno b Hw)|].
        destruct b as [|b]; [destruct Hw as [Hab _]; lia|].
        exists a, b. rewrite occ_at_tail. split; [reflexivity|].
        apply word_in_tail in Hw. exact Hw. }
    destruct skip as [|k].
    + cbn [Spell.scan]. destruct (match_here before (c :: s)) as [n|] eqn:Em.
      * apply match_here_word in Em.
        rewrite elem_of_cons, (IH (Some c) (S i) (n - 1)%nat m
                                 (word_inside_tail _ _ _ _ Em)).
        split.
        -- intros [->|(a & b & -> & Hw)].
           ++ exists O, n. split; [|exact Em]. unfold occ_at.
              rewrite Nat.add_0_r, Nat.sub_0_r. reflexivity.
           ++ exists (S a), (S b). rewrite occ_at_tail. split; [reflexivity|].
              apply word_in_tail. exact Hw.
        -- intros (a & b & -> & Hw). destruct a as [|a].
           ++ left. rewrite (word_in_head_unique _ _ _ _ Em Hw).
              unfold occ_at. rewrite Nat.add_0_r, Nat.sub_0_r. reflexivity.
           ++ right. destruct b as [|b]; [destruct Hw as [Hab _]; lia|].
              exists a, b. rewrite occ_at_tail. split; [reflexivity|].
              apply word_in_tail in Hw. exact Hw.
      * rewrite (IH (Some c) (S i) O m I). apply Htail.
        intros b Hw. apply match_here_word in Hw. congruence.
    + cbn [Spell.scan].
      rewrite (IH (Some c) (S i) k m (inside_tail _ _ _ _ Hin)).
      apply Htail. intros b. exact (inside_no_head _ _ _ b Hin).
Qed.

(** [finditer] against the specification's words. *)
Lemma finditer_words (text : str) (m : Occurrence) :
  m ∈ finditer text <-> word_occurrence text m.
Proof.
  unfold Spell.finditer, Spell.word_occurrence.
  rewrite (scan_words text None O O m I). unfold occ_at. simpl. reflexivity.
Qed.

End Words.

(** ** The report of the worker *)

Section Report.

Variable uni_isalnum : N -> bool.
Variable lower : str -> str.
Variable hash : str -> Z.
Variable unknown : gset str -> list str.

(** The dictionary: whether it reports a (lower-case) word as unknown. *)
Variable dict_unknown : str -> bool.

(** [spell.unknown] returns the words among those given that the
    dictionary does not know. *)
Hypothesis unknown_spec :
  forall (ws : gset str) (w : str),
    w ∈ unknown ws <-> (w ∈ ws) /\ dict_unknown w = true.

Variable ignored : gset str.

Local Abbreviation kept := (Spell.kept lower ignored).

Lemma build_lookup (ms : list Occurrence)
    (wm : gmap str (list Occurrence)) (k : str) :
  foldl (add_match lower ignored) wm ms !! k =
    if decide (filter (kept k) ms = []) then wm !! k
    else Some (default [] (wm !! k) ++ filter (kept k) ms).
Proof.
  revert wm. induction ms as [|m ms IH]; intros wm.
  - cbn [foldl]. rewrite decide_True by reflexivity. reflexivity.
  - cbn [foldl]. rewrite IH. unfold add_match.
    rewrite filter_cons.
    destruct (decide (lower (snd m) ∈ ignored)) as [Hi|Hi].
    + rewrite (bool_decide_true _ Hi).
      rewrite (decide_False (P := kept k m)) by (unfold Spell.kept; tauto). reflexivity.
    + rewrite (bool_decide_false _ Hi).
      destruct (decide (lower (snd m) = k)) as [Hk|Hk].
      * rewrite (decide_True (P := kept k m)) by (split; assumption).
        rewrite (decide_False (P := _ :: _ = [])) by discriminate.
        rewrite Hk, lookup_insert_eq. simpl.
        destruct (decide (filter (kept k) ms = [])) as [E|E].
        -- rewrite E. reflexivity.
        -- rewrite <- app_assoc. reflexivity.
      * rewrite (decide_False (P := kept k m)) by (unfold Spell.kept; tauto).
        rewrite lookup_insert_ne by exact Hk. reflexivity.
Qed.

Lemma build_member (ms : list Occurrence) (k : str)
    (occs : list Occurrence) :
  foldl (add_match lower ignored) ∅ ms !! k = Some occs ->
  forall m, m ∈ occs <-> (m ∈ ms) /\ kept k m.
Proof.
  rewrite build_lookup, lookup_empty. simpl.
  destruct (decide (filter (kept k) ms = [])); [discriminate|].
  intros [= <-] m. rewrite list_elem_of_filter. tauto.
Qed.

Lemma build_present (ms : list Occurrence) (m : Occurrence) :
  m ∈ ms -> lower (snd m) ∉ ignored ->
  is_Some (foldl (add_match lower ignored) ∅ ms !! lower (snd m)).
Proof.
  intros Hm Hi. rewrite build_lookup, lookup_empty.
  destruct (decide (filter (kept (lower (snd m))) ms = [])) as [E|E]; [|eauto].
  exfalso. assert (H : m ∈ filter (kept (lower (snd m))) ms).
  { apply list_elem_of_filter. split; [split; [exact Hi|reflexivity]|exact Hm]. }
  rewrite E in H. apply elem_of_nil in H. exact H.
Qed.

Lemma collect_returns (wm : gmap str (list Occurrence)) (ks : list str) :
  (forall k, k ∈ ks -> is_Some (wm !! k)) ->
  exists errors, collect wm ks = Returned errors /\
    forall m, m ∈ errors <->
              exists k occs, (k ∈ ks) /\ wm !! k = Some occs /\ (m ∈ occs).
Proof.
  induction ks as [|k ks IH]; intros Hk.
  - exists []. split; [reflexivity|]. intros m. split.
    + intros H. apply elem_of_nil in H. contradiction.
    + intros (k & occs & H & _). apply elem_of_nil in H. contradiction.
  - destruct (Hk k (list_elem_of_here _ _)) as [occs Ho].
    destruct IH as (errors & He & Hm).
    { intros k' Hk'. apply Hk. apply list_elem_of_further. exact Hk'. }
    exists (occs ++ errors). split.
    + simpl. rewrite Ho, He. reflexivity.
    + intros m. rewrite elem_of_app, Hm. split.
      * intros [H|(k' & occs' & H1 & H2 & H3)].
        -- exists k, occs. split; [apply list_elem_of_here|]. split; assumption.
        -- exists k', occs'. split; [apply list_elem_of_further; exact H1|].
           split; assumption.
      * intros (k' & occs' & H1 & H2 & H3).
        apply elem_of_cons in H1 as [->|H1].
        -- left. congruence.
        -- right. eauto.
Qed.

(** A reported word is made of letters. *)
Lemma word_occurrence_letters (text : str) (m : Occurrence) :
  word_occurrence uni_isalnum text m ->
  snd m <> [] /\ Forall (fun c => is_letter c = true) (snd m).
Proof.
  intros (a & b & -> & Hab & Hl & _ & _). simpl. split.
  - intros E. apply (f_equal length) in E. rewrite length_take, length_drop in E.
    simpl in E. specialize (Hl a ltac:(lia)).
    destruct (text !! a) as [c|] eqn:Ea; [|discriminate].
    apply lookup_lt_Some in Ea. lia.
  - apply Forall_lookup. intros i c Hi.
    apply lookup_take_Some in Hi as [Hi Hlt].
    rewrite lookup_drop in Hi. specialize (Hl (a + i)%nat ltac:(lia)).
    rewrite Hi in Hl. exact Hl.
Qed.

(** C7: for every text the worker's run ends with a report, and the
    report holds exactly the occurrences (start, end, spelling) of the
    maximal alphabetic words of the text whose lower-case form is not
    ignored and is unknown to the dictionary; every reported word is made
    of letters only. *)
Theorem spellcheck_reports_exactly (text : str) :
  exists errors,
    run uni_isalnum lower hash unknown ignored text =
      Returned (errors, str_of_int (hash text)) /\
    (forall m : Occurrence,
       m ∈ errors <->
       word_occurrence uni_isalnum text m /\
       (lower (snd m) ∉ ignored) /\
       dict_unknown (lower (snd m)) = true) /\
    (forall m : Occurrence,
       m ∈ errors ->
       snd m <> [] /\ Forall (fun c => is_letter c = true) (snd m)).
Proof.
  unfold run.
  set (ms := finditer uni_isalnum text).
  set (wm := foldl (add_match lower ignored) ∅ ms).
  destruct (collect_returns wm (unknown (dom wm))) as (errors & He & Hm).
  { intros k Hk. apply unknown_spec in Hk as [Hk _].
    apply elem_of_dom in Hk. exact Hk. }
  exists errors. rewrite He. split; [reflexivity|].
  assert (Hiff : forall m : Occurrence,
            m ∈ errors <->
            word_occurrence uni_isalnum text m /\
            (lower (snd m) ∉ ignored) /\
            dict_unknown (lower (snd m)) = true).
  { intros m. rewrite Hm, <- finditer_words. fold ms. split.
    - intros (k & occs & Hk & Ho & Hin).
      apply unknown_spec in Hk as [_ Hd].
      apply (build_member ms k occs Ho) in Hin as [Hin [Hi <-]].
      split; [exact Hin|]. split; assumption.
    - intros (Hin & Hi & Hd).
      destruct (build_present ms m Hin Hi) as [occs Ho]. fold wm in Ho.
      exists (lower (snd m)), occs. split; [|split; [exact Ho|]].
      + apply unknown_spec. split; [|exact Hd]. apply elem_of_dom. eauto.
      + apply (build_member ms _ occs Ho). split; [exact Hin|].
        split; [exact Hi|reflexivity]. }
  split; [exact Hiff|].
  intros m Hin. apply Hiff in Hin as [Hw _].
  apply word_occurrence_letters with (text := text). exact Hw.
Qed.

End Report.

Lemma unknown_demo_spec (ws : gset str) (w : str) :
  w ∈ unknown_demo ws <-> (w ∈ ws) /\ dict_demo w = true.
Proof.
  unfold unknown_demo. rewrite list_elem_of_filter, elem_of_elements. tauto.
Qed.

Lemma spellcheck_reports_exactly_witness :
  exists errors,
    run ascii_only ascii_lower length_hash unknown_demo ∅
        (lit "Helo world") = Returned (errors, lit "10") /\
    (0, 4, lit "Helo") ∈ errors.
Proof.
  destruct (spellcheck_reports_exactly ascii_only ascii_lower length_hash
              unknown_demo dict_demo unknown_demo_spec ∅ (lit "Helo world"))
    as (errors & Hr & Hiff & _).
  exists errors. split; [exact Hr|]. apply Hiff. split; [|split].
  - exists 0%nat, 4%nat. split; [reflexivity|].
    split; [lia|]. split; [|split; reflexivity].
    intros [|[|[|[|k]]]] Hk; try reflexivity. lia.
  - apply not_elem_of_empty.
  - reflexivity.
Defined.

End SpellFacts.

(* ===================================================================== *)
(** * Properties of the summarizer *)
(* ===================================================================== *)

Module SummarizeFacts.
Import Py Summarize.

(** ** Summaries *)

Section Remote.

Variable lower : str -> str.
Variable create : Client -> Request -> PyResult Response.

Lemma on_error_returns (e : str) :
  on_error lower e = Returned (invalid_key_message) \/
  on_error lower e = Returned (rate_limit_message) \/
  on_error lower e = Returned (lit "API Error: " ++ e).
Proof.
  unfold on_error.
  destruct (_ || _ || _); [left; reflexivity|].
  destruct (_ || _); [right; left; reflexivity | right; right; reflexivity].
Qed.

Lemma summarize_total (su : FreeTeacherSummarizer) (text : str)
    (kw : option Z) :
  exists s, summarize lower create su text kw = Returned s.
Proof.
  unfold summarize. destruct (client su) as [cl|]; [|eauto].
  destruct (_ || _); [eauto|].
  destruct (ask create cl (model su) text (default 5 kw)) as [r|e]; [eauto|].
  destruct (on_error_returns e) as [-> | [-> | ->]]; eauto.
Qed.

Lemma short_guard (text : str) :
  len (strip text) < 10 ->
  bool_decide (text = []) || (len (strip text) <? 10) = true.
Proof.
  intros H. apply orb_true_intro. right. apply Z.ltb_lt. exact H.
Qed.

Lemma long_guard (text : str) :
  10 <= len (strip text) ->
  bool_decide (text = []) || (len (strip text) <? 10) = false.
Proof.
  intros H. apply orb_false_intro.
  - apply bool_decide_eq_false. intros ->. vm_compute in H. apply H. reflexivity.
  - apply Z.ltb_ge. exact H.
Qed.

(** C8: [summarize] always returns a string and never raises; without a
    client it returns the request for an API key; with fewer than ten
    characters of stripped text it returns the too-short message; and an
    exception raised by the remote call is turned into the invalid-key
    message (authentication or 401), else the rate-limit message (rate
    limit or 429), else [API Error:] followed by the exception's text. *)
Theorem summarize_never_raises (su : FreeTeacherSummarizer) (text : str)
    (kw : option Z) :
  (exists s, summarize lower create su text kw = Returned s) /\
  (client su = None ->
   summarize lower create su text kw =
     Returned (lit "Please enter your Groq API Key in Settings.")) /\
  (forall cl, client su = Some cl -> len (strip text) < 10 ->
   summarize lower create su text kw =
     Returned (lit "The text box is too short for me to explain!")) /\
  (forall cl e,
     client su = Some cl -> 10 <= len (strip text) ->
     create cl (request_of (model su) text (default 5 kw)) = Raised e ->
     let msg := lower e in
     let auth := contains msg (lit "authentication") ||
                 contains msg (lit "invalid api key") ||
                 contains msg (lit "401") in
     let rate := contains msg (lit "rate limit") || contains msg (lit "429") in
     summarize lower create su text kw =
       Returned (if auth then invalid_key_message
                 else if rate then rate_limit_message
                 else lit "API Error: " ++ e)).
Proof.
  split; [apply summarize_total|]. split; [|split].
  - intros H. unfold summarize. rewrite H. reflexivity.
  - intros cl H Hs. unfold summarize. rewrite H, (short_guard _ Hs). reflexivity.
  - intros cl e H Hl Hc msg auth rate. unfold summarize.
    rewrite H, (long_guard _ Hl). unfold ask. rewrite Hc.
    unfold on_error. fold msg. fold auth. fold rate.
    destruct auth; [reflexivity|]. destruct rate; reflexivity.
Qed.

End Remote.

Lemma summarize_never_raises_witness :
  summarize ascii_lower rejecting
    (mkSummarizer (Some client_demo) (lit "llama-3.1-8b-instant"))
    (lit "The quick brown fox jumps.") (Some 5) =
  Returned invalid_key_message.
Proof.
  apply (proj2 (proj2 (proj2
           (summarize_never_raises ascii_lower rejecting
              (mkSummarizer (Some client_demo) (lit "llama-3.1-8b-instant"))
              (lit "The quick brown fox jumps.") (Some 5))))
         client_demo (lit "Error code: 401 - Invalid API Key")).
  - reflexivity.
  - vm_compute. discriminate.
  - reflexivity.
Defined.

End SummarizeFacts.

(* ===================================================================== *)
(** * Further properties of the canvas *)
(* ===================================================================== *)

Module CanvasFacts.
Import Qt Drawing DrawingMore DrawingFacts.

(** ** Deleting *)

Lemma list_remove_length (i : objid) (l : list objid) :
  i ∈ l -> S (length (list_remove i l)) = length l.
Proof.
  intros Hin. apply list_remove_perm in Hin.
  apply Permutation_length in Hin. exact Hin.
Qed.

Lemma list_remove_gone (i : objid) (l : list objid) :
  NoDup l -> i ∈ l -> i ∉ list_remove i l.
Proof.
  intros Hnd Hin. apply list_remove_perm in Hin.
  rewrite <- Hin in Hnd. apply NoDup_cons in Hnd as [Hn _]. exact Hn.
Qed.

Lemma list_remove_subset (i j : objid) (l : list objid) :
  j ∈ list_remove i l -> j ∈ l.
Proof.
  induction l as [|k l IH]; simpl; [tauto|].
  case_bool_decide as Hk.
  - intros Hj. apply list_elem_of_further. exact Hj.
  - intros Hj. apply elem_of_cons in Hj as [->|Hj].
    + apply list_elem_of_here.
    + apply list_elem_of_further. auto.
Qed.

Lemma list_remove_NoDup (i : objid) (l : list objid) :
  NoDup l -> NoDup (list_remove i l).
Proof.
  induction l as [|k l IH]; simpl; [tauto|]. intros Hnd.
  apply NoDup_cons in Hnd as [Hk Hnd]. case_bool_decide as Hki; [exact Hnd|].
  apply NoDup_cons. split; [|auto].
  intros Hc. apply Hk. eapply list_remove_subset. exact Hc.
Qed.

(** X1: [delete_selected_image] with nothing selected returns [False] and
    changes nothing; with the selected image in the list it returns
    [True], drops one entry (the selected image), keeps the others in
    order, clears the selection and leaves the objects alone; in a list
    without repetitions the image is gone afterwards. *)
Theorem delete_selected_image_removes (c : DrawingCanvas) :
  (selected_image c = None -> delete_selected_image c = (false, c)) /\
  (forall i : objid, selected_image c = Some i -> i ∈ images c ->
     let r := delete_selected_image c in
     fst r = true /\
     selected_image (snd r) = None /\
     others i (images (snd r)) = others i (images c) /\
     S (length (images (snd r))) = length (images c) /\
     objs (snd r) = objs c /\
     (NoDup (images c) -> i ∉ images (snd r))).
Proof.
  split.
  - intros Hs. unfold delete_selected_image, selected_in_images.
    rewrite Hs. reflexivity.
  - intros i Hs Hin. unfold delete_selected_image.
    rewrite (selected_in_images_Some c i Hs Hin). simpl.
    split; [reflexivity|]. split; [reflexivity|]. split; [|split; [|split]].
    + apply list_remove_others.
    + apply list_remove_length. exact Hin.
    + reflexivity.
    + intros Hnd. apply list_remove_gone; assumption.
Qed.

Lemma delete_selected_image_removes_witness :
  images (snd (delete_selected_image layers_demo)) = [0; 2]%nat /\
  1%nat ∉ images (snd (delete_selected_image layers_demo)).
Proof.
  assert (Hin : 1%nat ∈ images layers_demo).
  { apply list_elem_of_further, list_elem_of_here. }
  destruct (proj2 (delete_selected_image_removes layers_demo) 1%nat
              eq_refl Hin) as (_ & _ & _ & _ & _ & Hgone).
  split; [reflexivity|]. apply Hgone.
  repeat (apply NoDup_cons; split;
          [intros H; repeat (apply elem_of_cons in H as [H|H];
                             [discriminate H|]);
           apply elem_of_nil in H; exact H|]).
  apply NoDup_nil_2.
Defined.


(** ** Releasing the button *)

(** X4: once the left button is released, a mouse move changes nothing:
    no image is moved or resized and nothing is drawn. *)
Theorem release_ends_interaction (c : DrawingCanvas) (ev ev' : QMouseEvent) :
  button ev = LeftButton ->
  mouseMoveEvent (mouseReleaseEvent c ev) ev' = mouseReleaseEvent c ev.
Proof.
  intros Hb. unfold mouseReleaseEvent. rewrite (bool_decide_true _ Hb).
  unfold mouseMoveEvent, draw_segment. simpl.
  destruct (selected_image c); reflexivity.
Qed.

Lemma release_ends_interaction_witness :
  mouseMoveEvent
    (mouseReleaseEvent resize_demo (mkMouse LeftButton false (mkPoint 5 5)))
    (mkMouse NoButton false (mkPoint 90 90)) =
  mouseReleaseEvent resize_demo (mkMouse LeftButton false (mkPoint 5 5)).
Proof.
  apply (release_ends_interaction resize_demo
           (mkMouse LeftButton false (mkPoint 5 5))
           (mkMouse NoButton false (mkPoint 90 90))).
  reflexivity.
Defined.


(** ** The picture saved and the picture shown *)

Lemma paint_image_plain (b : bool) (o : ImageObject) :
  filter plain (paint_image b o) = paint_image false o.
Proof.
  unfold paint_image, Picture. rewrite filter_cons_True by reflexivity.
  destruct (b && selected o); reflexivity.
Qed.

Lemma paint_images_plain (b : bool) (l : list ImageObject) :
  filter plain (concat (map (paint_image b) l)) =
  concat (map (paint_image false) l).
Proof.
  induction l as [|o l IH]; [reflexivity|].
  cbn [map concat]. unfold Picture in *. rewrite filter_app.
  pose proof (paint_image_plain b o) as Ho. unfold Picture in Ho.
  rewrite Ho, IH. reflexivity.
Qed.

Lemma compose_plain (b : bool) (c : DrawingCanvas) :
  filter plain (compose b c) = compose false c.
Proof.
  unfold compose, Picture. rewrite filter_cons_True by reflexivity.
  rewrite filter_app. pose proof (paint_images_plain b (image_objects c)) as H.
  unfold Picture in H. rewrite H. reflexivity.
Qed.

(** X6: the picture [save_image] writes is the picture [update_canvas]
    shows with the selection rectangle and the resize handle left out; it
    never holds either of them, and with no image selected the two
    pictures are the same. *)
Theorem saved_picture_is_shown_without_indicators (c : DrawingCanvas) :
  save_image c = filter plain (shown (update_canvas c)) /\
  save_image (update_canvas c) = save_image c /\
  Forall plain (save_image c) /\
  ((forall j, j ∈ images c -> is_selected c j = false) ->
   save_image c = shown (update_canvas c)).
Proof.
  split; [symmetry; apply (compose_plain true c)|].
  split; [reflexivity|]. split.
  - unfold save_image. rewrite <- (compose_plain false c).
    apply Forall_forall. intros op Hop.
    apply list_elem_of_filter in Hop as [Hp _]. exact Hp.
  - intros Hno. unfold save_image, update_canvas. simpl. unfold compose.
    f_equal. f_equal. f_equal. unfold image_objects.
    assert (H : forall l, (forall j, j ∈ l -> is_selected c j = false) ->
              map (paint_image false) (omap (fun i => objs c !! i) l) =
              map (paint_image true) (omap (fun i => objs c !! i) l)).
    { induction l as [|j l IH]; intros Hl; [reflexivity|].
      simpl. specialize (Hl j (list_elem_of_here _ _)) as Hj.
      unfold is_selected in Hj. destruct (objs c !! j) as [o|].
      - cbn [map]. f_equal.
        + unfold paint_image. simpl. rewrite Hj. reflexivity.
        + apply IH. intros k Hk. apply Hl. apply list_elem_of_further. exact Hk.
      - apply IH. intros k Hk. apply Hl. apply list_elem_of_further. exact Hk. }
    apply H. exact Hno.
Qed.

(** ** Draw mode *)

Lemma draw_mode_step (c : DrawingCanvas) (a : CanvasAction) :
  is_mouse a -> mode c = DrawMode -> selected_image c = None ->
  let c' := canvas_step c a in
  mode c' = DrawMode /\ selected_image c' = None /\
  images c' = images c /\ objs c' = objs c.
Proof.
  intros Ha Hm Hs. destruct a as [| ev | ev | ev | | | | | | | | |];
    try contradiction; simpl.
  - unfold mousePressEvent. destruct (bool_decide (button ev = LeftButton)).
    + rewrite bool_decide_false by (rewrite Hm; discriminate).
      repeat split; assumption.
    + repeat split; assumption.
  - unfold mouseMoveEvent. rewrite Hs. unfold draw_segment.
    destruct (drawing c && left_held ev); repeat split; assumption.
  - unfold mouseReleaseEvent.
    destruct (bool_decide (button ev = LeftButton)); repeat split; assumption.
Qed.

(** X7: after [set_mode('draw')] no image is selected, and whatever
    mouse presses, moves and releases follow, the list of images, the
    selection and every image's position, size and pixmap stay as they
    are: drawing ignores the images. *)
Theorem draw_mode_ignores_images (c : DrawingCanvas) (l : list CanvasAction) :
  Forall is_mouse l ->
  let c0 := set_mode c DrawMode in
  let c' := foldl canvas_step c0 l in
  mode c' = DrawMode /\ selected_image c' = None /\
  images c' = images c /\ objs c' = objs c0 /\
  (forall j, j ∈ images c -> is_selected c' j = false) /\
  (forall j o, objs c !! j = Some o ->
     exists o', objs c' !! j = Some o' /\
       x o' = x o /\ y o' = y o /\ width o' = width o /\
       height o' = height o /\ pixmap o' = pixmap o).
Proof.
  intros Hl c0 c'.
  assert (H : mode c' = DrawMode /\ selected_image c' = None /\
              images c' = images c0 /\ objs c' = objs c0).
  { unfold c'. clear c'. revert Hl.
    induction l as [|a l IH] using rev_ind; intros Hl.
    - repeat split.
    - apply Forall_app in Hl as [Hl Ha]. apply Forall_cons in Ha as [Ha _].
      rewrite foldl_snoc. destruct (IH Hl) as (Hm & Hs & Hi & Ho).
      destruct (draw_mode_step _ a Ha Hm Hs) as (Hm' & Hs' & Hi' & Ho').
      repeat split; congruence. }
  destruct H as (Hm & Hs & Hi & Ho).
  split; [exact Hm|]. split; [exact Hs|]. split; [exact Hi|].
  split; [exact Ho|]. split.
  - intros j Hj. unfold is_selected. rewrite Ho. simpl.
    destruct (deselect_all (objs c) (images c) !! j) as [o|] eqn:E;
      [|reflexivity].
    eapply deselect_all_selected; eassumption.
  - intros j o Hj. rewrite Ho. simpl. rewrite deselect_all_lookup, Hj. simpl.
    eexists. split; [reflexivity|]. case_bool_decide; repeat split.
Qed.

Lemma draw_mode_ignores_images_witness :
  images (foldl canvas_step (set_mode layers_demo DrawMode)
            [Press (mkMouse LeftButton true (mkPoint 60 60));
             Move (mkMouse NoButton true (mkPoint 70 80));
             Release (mkMouse LeftButton false (mkPoint 70 80))]) =
  images layers_demo.
Proof.
  apply (draw_mode_ignores_images layers_demo
           [Press (mkMouse LeftButton true (mkPoint 60 60));
            Move (mkMouse NoButton true (mkPoint 70 80));
            Release (mkMouse LeftButton false (mkPoint 70 80))]).
  repeat (apply Forall_cons; split; [exact I|]). apply Forall_nil_2.
Defined.


(** ** Picking colours *)

Lemma recent_ok_canvas (pad : DrawingPad) (b : list QColor)
    (cv : DrawingCanvas) :
  recent_ok pad ->
  recent_ok (mkPad (recent_colors pad) (max_recent_colors pad) b cv).
Proof. intros [H1 H2 H3]. split; assumption. Qed.

(** X8: picking a colour makes it the pen colour, switches the eraser
    off, puts it first in the list of recent colours (an entry of the same
    name is replaced; of five others the last is dropped) and shows that
    list as buttons; picking the same colour again changes nothing, and so
    does a cancelled dialog. *)
Theorem pick_color_twice (pad : DrawingPad) (c : QColor) :
  recent_ok pad ->
  let pad1 := pick_color pad (Some c) in
  pick_color pad1 (Some c) = pad1 /\
  current_color (canvas pad1) = c /\
  eraser_mode (canvas pad1) = false /\
  head (recent_colors pad1) = Some c /\
  recent_colors pad1 =
    (if bool_decide (name c ∈ names (recent_colors pad))
     then c :: filter (fun d => name d <> name c) (recent_colors pad)
     else if bool_decide (length (recent_colors pad) = 5%nat)
          then c :: removelast (recent_colors pad)
          else c :: recent_colors pad) /\
  recent_buttons pad1 = recent_colors pad1 /\
  recent_ok pad1 /\
  pick_color pad None = pad.
Proof.
  intros Hok pad1.
  set (pad0 := mkPad (recent_colors pad) (max_recent_colors pad)
                     (recent_buttons pad) (set_color (canvas pad) c)).
  assert (Hok0 : recent_ok pad0) by (apply recent_ok_canvas; exact Hok).
  assert (Hok1 : recent_ok pad1) by (apply add_recent_color_ok; exact Hok0).
  pose proof (add_recent_color_list pad0 c Hok0) as Hl.
  change (add_recent_color pad0 c) with pad1 in Hl.
  change (recent_colors pad0) with (recent_colors pad) in Hl.
  assert (Hhead : exists rest, recent_colors pad1 = c :: rest /\
                               name c ∉ names rest).
  { destruct Hok1 as [_ _ Hnd].
    rewrite Hl in Hnd |- *.
    repeat case_bool_decide; eexists; (split; [reflexivity|]);
      unfold names in Hnd; rewrite fmap_cons in Hnd;
      apply NoDup_cons in Hnd as [Hn _]; exact Hn. }
  split; [|split; [reflexivity|split; [reflexivity|split; [|split;
    [exact Hl|split; [reflexivity|split; [exact Hok1|reflexivity]]]]]]].
  - destruct Hhead as (rest & Hrest & Hfresh).
    destruct Hok1 as [Hmax Hlen _].
    assert (Hshape : pad1 =
              mkPad (recent_colors pad1) (max_recent_colors pad1)
                    (recent_colors pad1) (set_color (canvas pad) c))
      by reflexivity.
    rewrite Hrest in Hlen. rewrite Hrest, Hmax in Hshape. rewrite Hshape.
    unfold pick_color, add_recent_color, update_recent_colors_ui.
    cbn [recent_colors max_recent_colors recent_buttons canvas].
    rewrite filter_cons_False by tauto.
    rewrite (filter_absent _ _ Hfresh).
    rewrite bool_decide_false by (simpl in *; lia).
    reflexivity.
  - destruct Hhead as (rest & -> & _). reflexivity.
Qed.

Lemma pick_color_twice_witness :
  pick_color (pick_color DrawingPad_init (Some (mkColor 255 0 0 255)))
             (Some (mkColor 255 0 0 255)) =
  pick_color DrawingPad_init (Some (mkColor 255 0 0 255)) /\
  recent_colors (pick_color DrawingPad_init (Some (mkColor 255 0 0 255))) =
  [mkColor 255 0 0 255].
Proof.
  assert (Hok : recent_ok DrawingPad_init)
    by (split; simpl; [reflexivity | lia | apply NoDup_nil_2]).
  destruct (pick_color_twice DrawingPad_init (mkColor 255 0 0 255) Hok)
    as (Htwice & _ & _ & _ & Hlist & _).
  split; [exact Htwice | exact Hlist].
Defined.


(** ** Adding an image *)

Lemma scaled_size_fits (w h : Z) :
  0 < w -> 0 < h ->
  let '(w', h') := scaled_size w h 200 200 in
  1 <= Z.max w' 1 <= 200 /\ 1 <= Z.max h' 1 <= 200 /\
  (Z.max w' 1 = 200 \/ Z.max h' 1 = 200) /\
  Z.abs (Z.max w' 1 * h - Z.max h' 1 * w) <= Z.max w h.
Proof.
  intros Hw Hh. unfold scaled_size.
  replace ((w =? 0) || (h =? 0)) with false
    by (symmetry; apply orb_false_intro; apply Z.eqb_neq; lia).
  rewrite !Z.quot_div_nonneg by lia.
  pose proof (Z.mul_div_le (200 * w) h Hh) as H1.
  pose proof (Z.mul_succ_div_gt (200 * w) h Hh) as H2.
  pose proof (Z.mul_div_le (200 * h) w Hw) as H3.
  pose proof (Z.mul_succ_div_gt (200 * h) w Hw) as H4.
  assert (H5 : 0 <= 200 * w / h) by (apply Z.div_pos; lia).
  assert (H6 : 0 <= 200 * h / w) by (apply Z.div_pos; lia).
  set (rw := 200 * w / h) in *. set (rh := 200 * h / w) in *.
  destruct (Z.leb_spec rw 200) as [Hle|Hgt].
  - split; [lia|]. split; [lia|]. split; [right; lia|].
    destruct (Z.eq_dec rw 0) as [E|E].
    + rewrite E in *. replace (Z.max 0 1) with 1 by lia.
      replace (Z.max 200 1) with 200 by lia. lia.
    + replace (Z.max rw 1) with rw by lia.
      replace (Z.max 200 1) with 200 by lia. lia.
  - assert (Hwh : h < w) by nia.
    assert (Hrh : rh < 200) by nia.
    split; [lia|]. split; [lia|]. split; [left; lia|].
    destruct (Z.eq_dec rh 0) as [E|E].
    + rewrite E in *. replace (Z.max 0 1) with 1 by lia.
      replace (Z.max 200 1) with 200 by lia. lia.
    + replace (Z.max rh 1) with rh by lia.
      replace (Z.max 200 1) with 200 by lia. lia.
Qed.

Lemma new_objid_unused (c : DrawingCanvas) : objs c !! new_objid c = None.
Proof.
  apply not_elem_of_dom. unfold new_objid. apply is_fresh.
Qed.

(** X3: [add_image] with a null pixmap returns [False] and changes
    nothing; otherwise it returns [True], marks the pad as drawn on and
    puts a new, unselected object on top of the list, all other objects
    untouched; the object is centred on the canvas, keeps its size when
    that is at most 200 by 200 and is otherwise fitted into 200 by 200
    with one side equal to 200 and its proportions kept up to rounding. *)
Theorem add_image_on_top (c : DrawingCanvas) (pm : QPixmap) :
  0 < pm_width pm -> 0 < pm_height pm ->
  add_image c None = (false, c) /\
  let r := add_image c (Some pm) in
  let i := new_objid c in
  fst r = true /\
  has_drawn (snd r) = true /\
  images (snd r) = images c ++ [i] /\
  objs c !! i = None /\
  (forall j, j <> i -> objs (snd r) !! j = objs c !! j) /\
  exists o, objs (snd r) !! i = Some o /\
    selected o = false /\
    pm_width (pixmap o) = width o /\ pm_height (pixmap o) = height o /\
    pm_data (pixmap o) = pm_data pm /\
    (* centred *)
    2 * x o <= canvas_width c - width o <= 2 * x o + 1 /\
    2 * y o <= canvas_height c - height o <= 2 * y o + 1 /\
    (* small images keep their size *)
    (pm_width pm <= 200 -> pm_height pm <= 200 ->
     width o = pm_width pm /\ height o = pm_height pm) /\
    (* large images are fitted into 200 by 200 *)
    (200 < pm_width pm \/ 200 < pm_height pm ->
     1 <= width o <= 200 /\ 1 <= height o <= 200 /\
     (width o = 200 \/ height o = 200) /\
     Z.abs (width o * pm_height pm - height o * pm_width pm)
       <= Z.max (pm_width pm) (pm_height pm)).
Proof.
  intros Hw Hh. split; [reflexivity|]. intros r i. subst i.
  split; [reflexivity|]. split; [reflexivity|]. split; [reflexivity|].
  split; [apply new_objid_unused|]. split.
  - intros j Hj. unfold r, add_image. cbn [snd]. simpl.
    apply lookup_insert_ne. congruence.
  - eexists. split.
    { unfold r, add_image. cbn [snd]. simpl. apply lookup_insert_eq. }
    cbn [selected pixmap width height x y ImageObject_init].
    split; [reflexivity|]. split; [reflexivity|]. split; [reflexivity|].
    split.
    { destruct (_ || _); [|reflexivity]. unfold QPixmap_scaled.
      destruct (scaled_size _ _ _ _); reflexivity. }
    split.
    { match goal with |- context [(?a - ?b) / 2] =>
        pose proof (Z.div_mod (a - b) 2 ltac:(lia));
        pose proof (Z.mod_pos_bound (a - b) 2 ltac:(lia)) end. lia. }
    split.
    { match goal with |- context [(canvas_height c - ?b) / 2] =>
        pose proof (Z.div_mod (canvas_height c - b) 2 ltac:(lia));
        pose proof (Z.mod_pos_bound (canvas_height c - b) 2 ltac:(lia)) end.
      lia. }
    split.
    { intros H1 H2.
      replace ((200 <? pm_width pm) || (200 <? pm_height pm)) with false
        by (symmetry; apply orb_false_intro; apply Z.ltb_ge; lia).
      split; reflexivity. }
    { intros Hbig.
      replace ((200 <? pm_width pm) || (200 <? pm_height pm)) with true
        by (symmetry; apply orb_true_iff;
            destruct Hbig; [left|right]; apply Z.ltb_lt; lia).
      unfold QPixmap_scaled.
      pose proof (scaled_size_fits (pm_width pm) (pm_height pm) Hw Hh) as H.
      destruct (scaled_size _ _ _ _) as [w' h']. exact H. }
Qed.

Lemma add_image_on_top_witness :
  fst (add_image layers_demo (Some photo_demo)) = true /\
  images (snd (add_image layers_demo (Some photo_demo))) =
    images layers_demo ++ [new_objid layers_demo].
Proof.
  destruct (add_image_on_top layers_demo photo_demo eq_refl eq_refl)
    as (_ & Hr & _ & Hi & _).
  split; assumption.
Defined.


(** ** Dragging *)

Lemma move_zero (o : ImageObject) : move o 0 0 = o.
Proof. destruct o. unfold move. simpl. f_equal; lia. Qed.

Lemma move_move (o : ImageObject) (a b a' b' : Z) :
  move (move o a b) a' b' = move o (a + a') (b + b').
Proof. unfold move. simpl. f_equal; lia. Qed.

Lemma drag_step (c : DrawingCanvas) (ev : QMouseEvent) (i : objid)
    (o : ImageObject) (p0 : QPoint) :
  selected_image c = Some i -> objs c !! i = Some o ->
  dragging_image c = true -> drag_start_pos c = Some p0 ->
  QPoint_bool p0 = true ->
  let c' := mouseMoveEvent c ev in
  selected_image c' = Some i /\
  objs c' !! i = Some (move o (px (pos ev) - px p0) (py (pos ev) - py p0)) /\
  (forall j, j <> i -> objs c' !! j = objs c !! j) /\
  dragging_image c' = true /\ drag_start_pos c' = Some (pos ev) /\
  images c' = images c /\ has_drawn c' = true.
Proof.
  intros Hs Ho Hd Hp Hb. unfold mouseMoveEvent.
  rewrite Hs, Hd, Hp. simpl. rewrite Hb. simpl.
  split; [exact Hs|]. split; [rewrite lookup_alter_eq, Ho; reflexivity|].
  split; [intros j Hj; apply lookup_alter_ne; congruence|].
  repeat split; assumption.
Qed.

(** X5: while an image is dragged, any series of mouse moves (none of
    them at the origin, which the code takes for no position) leaves the
    image displaced by the vector from the point where the drag started
    to the last pointer position, whatever the path; its size, the other
    images and the list are untouched. *)
Theorem drag_follows_pointer (c : DrawingCanvas) (evs : list QMouseEvent)
    (i : objid) (o : ImageObject) (p0 : QPoint) :
  selected_image c = Some i -> objs c !! i = Some o ->
  dragging_image c = true -> drag_start_pos c = Some p0 ->
  QPoint_bool p0 = true ->
  Forall (fun ev => QPoint_bool (pos ev) = true) evs ->
  let c' := foldl mouseMoveEvent c evs in
  let p := last_pos p0 evs in
  objs c' !! i = Some (move o (px p - px p0) (py p - py p0)) /\
  (forall j, j <> i -> objs c' !! j = objs c !! j) /\
  images c' = images c /\ selected_image c' = Some i /\
  drag_start_pos c' = Some p.
Proof.
  intros Hs Ho Hd Hp Hb Hall.
  assert (H : let c' := foldl mouseMoveEvent c evs in
              let p := last_pos p0 evs in
              objs c' !! i = Some (move o (px p - px p0) (py p - py p0)) /\
              (forall j, j <> i -> objs c' !! j = objs c !! j) /\
              images c' = images c /\ selected_image c' = Some i /\
              drag_start_pos c' = Some p /\ dragging_image c' = true /\
              QPoint_bool p = true).
  { revert Hall. induction evs as [|ev evs IH] using rev_ind; intros Hall.
    - unfold last_pos. simpl. rewrite !Z.sub_diag, move_zero.
      repeat split; assumption.
    - apply Forall_app in Hall as [Hall Hev]. apply Forall_cons in Hev as [Hev _].
      destruct (IH Hall) as (Ho' & Hoth & Hi & Hs' & Hp' & Hd' & Hb').
      cbv zeta. rewrite foldl_snoc.
      assert (Hlast : last_pos p0 (evs ++ [ev]) = pos ev)
        by (unfold last_pos; rewrite last_snoc; reflexivity).
      rewrite Hlast.
      destruct (drag_step _ ev i _ _ Hs' Ho' Hd' Hp' Hb')
        as (Hs2 & Ho2 & Hoth2 & Hd2 & Hp2 & Hi2 & _).
      split.
      { rewrite Ho2, move_move. repeat f_equal; lia. }
      split; [intros j Hj; rewrite Hoth2, Hoth by exact Hj; reflexivity|].
      split; [congruence|]. split; [exact Hs2|]. split; [exact Hp2|].
      split; [exact Hd2|exact Hev]. }
  destruct H as (H1 & H2 & H3 & H4 & H5 & _). repeat split; assumption.
Qed.

Lemma drag_follows_pointer_witness :
  objs (foldl mouseMoveEvent drag_demo
          [mkMouse NoButton true (mkPoint 30 30);
           mkMouse NoButton true (mkPoint 45 10)]) !! 1%nat =
  Some (mkImage (mkPixmap 100 100 8) 35 0 100 100 true).
Proof.
  destruct (drag_follows_pointer drag_demo
              [mkMouse NoButton true (mkPoint 30 30);
               mkMouse NoButton true (mkPoint 45 10)]
              1%nat (mkImage (mkPixmap 100 100 8) 10 10 100 100 true)
              (mkPoint 20 20) eq_refl eq_refl eq_refl eq_refl eq_refl)
    as (Ho & _).
  - repeat (apply Forall_cons; split; [reflexivity|]). apply Forall_nil_2.
  - exact Ho.
Defined.


(** ** The invariant of the canvas *)

(** A call that permutes the list, keeps the selection and keeps which
    objects exist and which are flagged as selected. *)
Lemma canvas_ok_frame (c c' : DrawingCanvas) :
  images c' ≡ₚ images c ->
  selected_image c' = selected_image c ->
  (forall j, selected <$> objs c' !! j = selected <$> objs c !! j) ->
  canvas_ok c -> canvas_ok c'.
Proof.
  intros Hi Hs Ho [H1 H2 H3 H4].
  assert (Hsel : forall j, is_selected c' j = is_selected c j).
  { intros j. unfold is_selected. specialize (Ho j).
    destruct (objs c' !! j), (objs c !! j); simpl in Ho; congruence. }
  split.
  - rewrite Hi. exact H1.
  - intros i Hin. rewrite Hi in Hin. specialize (H2 i Hin). specialize (Ho i).
    destruct H2 as [o Hoo]. rewrite Hoo in Ho.
    destruct (objs c' !! i); [eauto|discriminate].
  - intros i Hsi. rewrite Hi. apply H3. congruence.
  - intros j Hj. rewrite Hi in Hj. rewrite Hsel, Hs. apply H4. exact Hj.
Qed.

Lemma selected_in_images_inv (c : DrawingCanvas) (i : objid) :
  selected_in_images c = Some i -> selected_image c = Some i /\ i ∈ images c.
Proof.
  unfold selected_in_images. destruct (selected_image c) as [j|]; [|discriminate].
  case_bool_decide as Hin; [|discriminate]. intros [= ->]. split; [reflexivity|exact Hin].
Qed.

Lemma layer_ops_frame (c : DrawingCanvas) (a : CanvasAction) :
  match a with
  | BringToFront | SendToBack | BringForward | SendBackward => True
  | _ => False
  end ->
  images (canvas_step c a) ≡ₚ images c /\
  selected_image (canvas_step c a) = selected_image c /\
  objs (canvas_step c a) = objs c.
Proof.
  intros Ha.
  destruct (selected_in_images c) as [i|] eqn:E.
  - apply selected_in_images_inv in E as [Hs Hin].
    destruct a; try contradiction; cbn [canvas_step].
    + destruct (bring_to_front_spec c i Hs Hin) as (_ & _ & _ & Hp).
      split; [exact Hp|]. unfold bring_to_front.
      destruct (selected_in_images c); split; reflexivity.
    + destruct (send_to_back_spec c i Hs Hin) as (_ & _ & _ & Hp).
      split; [exact Hp|]. unfold send_to_back.
      destruct (selected_in_images c); split; reflexivity.
    + destruct (bring_forward_spec c i Hs Hin) as (n & _ & _ & H).
      case_bool_decide.
      * rewrite H. simpl. split; [reflexivity|]. split; reflexivity.
      * destruct H as [_ [_ _ _ _ Hp]]. split; [exact Hp|].
        unfold bring_forward. destruct (selected_in_images c); [|split; reflexivity].
        destruct (list_index _ _); [|split; reflexivity].
        destruct (bool_decide _); split; reflexivity.
    + destruct (send_backward_spec c i Hs Hin) as (n & _ & _ & H).
      case_bool_decide.
      * rewrite H. simpl. split; [reflexivity|]. split; reflexivity.
      * destruct H as [_ [_ _ _ _ Hp]]. split; [exact Hp|].
        unfold send_backward. destruct (selected_in_images c); [|split; reflexivity].
        destruct (list_index _ _); [|split; reflexivity].
        destruct (bool_decide _); split; reflexivity.
  - destruct (no_selection_no_move c E) as (H1 & H2 & H3 & H4).
    destruct a; try contradiction; cbn [canvas_step];
      rewrite ?H1, ?H2, ?H3, ?H4; simpl; (split; [reflexivity|]); split; reflexivity.
Qed.

Lemma canvas_ok_deselected (c : DrawingCanvas) :
  canvas_ok c ->
  canvas_ok (with_selected_image
               (with_objs c (deselect_all (objs c) (images c))) None).
Proof.
  intros [H1 H2 H3 H4]. split; simpl.
  - exact H1.
  - intros i Hin. rewrite deselect_all_lookup.
    destruct (H2 i Hin) as [o ->]. simpl. eauto.
  - discriminate.
  - intros j Hj. unfold is_selected. simpl.
    destruct (deselect_all (objs c) (images c) !! j) as [o|] eqn:E.
    + rewrite (deselect_all_selected _ _ _ _ Hj E). split; discriminate.
    + split; discriminate.
Qed.

Lemma canvas_ok_press (c : DrawingCanvas) (ev : QMouseEvent) :
  canvas_ok c -> canvas_ok (mousePressEvent c ev).
Proof.
  intros Hok.
  destruct (decide (button ev = LeftButton)) as [Hb|Hb].
  2:{ unfold mousePressEvent. rewrite (bool_decide_false _ Hb). exact Hok. }
  destruct (decide (mode c = SelectMode)) as [Hm|Hm].
  2:{ unfold mousePressEvent.
      rewrite (bool_decide_true _ Hb), (bool_decide_false _ Hm).
      destruct Hok. split; assumption. }
  destruct (mousePressEvent_select c ev Hm Hb) as [Hi Hsel].
  destruct Hok as [H1 H2 H3 H4].
  destruct (List.find (hit c (pos ev)) (rev (images c))) as [i|] eqn:Ef.
  - destruct Hsel as [Hs Ho].
    apply find_rev_Some in Ef as (n & Hn & _ & _).
    assert (Hin : i ∈ images c) by (apply list_elem_of_lookup; eauto).
    split.
    + rewrite Hi. exact H1.
    + intros j Hj. rewrite Hi in Hj. rewrite Ho.
      destruct (H2 j Hj) as [o Hoj].
      destruct (decide (i = j)) as [->|Hne].
      * rewrite lookup_alter_eq, deselect_all_lookup, Hoj. simpl. eauto.
      * rewrite lookup_alter_ne, deselect_all_lookup, Hoj by exact Hne.
        simpl. eauto.
    + intros j Hj. rewrite Hi. congruence.
    + intros j Hj. rewrite Hi in Hj. unfold is_selected. rewrite Ho, Hs.
      destruct (decide (i = j)) as [->|Hne].
      * rewrite lookup_alter_eq, deselect_all_lookup.
        destruct (H2 j Hj) as [o ->]. simpl. tauto.
      * rewrite lookup_alter_ne by exact Hne.
        destruct (deselect_all (objs c) (images c) !! j) as [o|] eqn:E.
        -- rewrite (deselect_all_selected _ _ _ _ Hj E).
           split; [discriminate|congruence].
        -- split; [discriminate|congruence].
  - destruct Hsel as [Hs Ho].
    pose proof (canvas_ok_deselected c (Build_canvas_ok c H1 H2 H3 H4))
      as [K1 K2 K3 K4]. simpl in K1, K2, K3, K4.
    split.
    + rewrite Hi. exact H1.
    + intros j Hj. rewrite Hi in Hj. rewrite Ho. apply K2. exact Hj.
    + rewrite Hs. discriminate.
    + intros j Hj. rewrite Hi in Hj. rewrite Hs. unfold is_selected.
      rewrite Ho. apply (K4 j Hj).
Qed.

Lemma canvas_ok_move (c : DrawingCanvas) (ev : QMouseEvent) :
  canvas_ok c -> canvas_ok (mouseMoveEvent c ev).
Proof.
  apply canvas_ok_frame.
  - unfold mouseMoveEvent, draw_segment.
    repeat (match goal with |- context [if ?b then _ else _] => destruct b
            | |- context [match ?o with Some _ => _ | None => _ end] =>
                destruct o end); reflexivity.
  - unfold mouseMoveEvent, draw_segment.
    destruct (selected_image c) eqn:E;
    repeat (match goal with |- context [if ?b then _ else _] => destruct b
            end); simpl; congruence.
  - intros j. unfold mouseMoveEvent, draw_segment.
    destruct (selected_image c) as [i|];
    repeat (match goal with |- context [if ?b then _ else _] => destruct b
            end); simpl; try reflexivity.
    + destruct (decide (i = j)) as [->|Hne].
      * rewrite lookup_alter_eq. destruct (objs c !! j); reflexivity.
      * rewrite lookup_alter_ne by exact Hne. reflexivity.
    + destruct (decide (i = j)) as [->|Hne].
      * rewrite lookup_alter_eq. destruct (objs c !! j); reflexivity.
      * rewrite lookup_alter_ne by exact Hne. reflexivity.
Qed.

Lemma canvas_ok_add (c : DrawingCanvas) (loaded : option QPixmap) :
  canvas_ok c -> canvas_ok (snd (add_image c loaded)).
Proof.
  intros [H1 H2 H3 H4]. destruct loaded as [pm|]; [|split; assumption].
  pose proof (new_objid_unused c) as Hnew.
  assert (Hnot : new_objid c ∉ images c).
  { intros Hin. destruct (H2 _ Hin) as [o Ho]. congruence. }
  split; simpl.
  - apply NoDup_app. split; [exact H1|]. split; [|apply NoDup_singleton].
    intros j Hj Hj'. apply list_elem_of_singleton in Hj'. congruence.
  - intros j Hj. apply elem_of_app in Hj as [Hj|Hj].
    + rewrite lookup_insert_ne by congruence. apply H2. exact Hj.
    + apply list_elem_of_singleton in Hj. subst j. rewrite lookup_insert_eq. eauto.
  - intros j Hj. apply elem_of_app. left. apply H3. exact Hj.
  - intros j Hj. unfold is_selected. simpl.
    apply elem_of_app in Hj as [Hj|Hj].
    + rewrite lookup_insert_ne by congruence. apply (H4 j Hj).
    + apply list_elem_of_singleton in Hj. subst j. rewrite lookup_insert_eq.
      simpl. split; [discriminate|]. intros Hs. apply H3 in Hs. contradiction.
Qed.

Lemma canvas_ok_delete (c : DrawingCanvas) :
  canvas_ok c -> canvas_ok (snd (delete_selected_image c)).
Proof.
  intros [H1 H2 H3 H4]. unfold delete_selected_image.
  destruct (selected_in_images c) as [i|] eqn:E; [|split; assumption].
  apply selected_in_images_inv in E as [Hs Hin]. split; simpl.
  - apply list_remove_NoDup. exact H1.
  - intros j Hj. apply H2. eapply list_remove_subset. exact Hj.
  - discriminate.
  - intros j Hj.
    assert (Hne : j <> i).
    { intros ->. exact (list_remove_gone i _ H1 Hin Hj). }
    apply list_remove_subset in Hj. change (is_selected _ j) with (is_selected c j).
    rewrite (H4 j Hj), Hs. split; [congruence|discriminate].
Qed.

Lemma canvas_ok_step (c : DrawingCanvas) (a : CanvasAction) :
  canvas_ok c -> canvas_ok (canvas_step c a).
Proof.
  intros Hok. destruct a; cbn [canvas_step].
  - apply canvas_ok_add. exact Hok.
  - apply canvas_ok_press. exact Hok.
  - apply canvas_ok_move. exact Hok.
  - unfold mouseReleaseEvent. destruct (bool_decide _); [|exact Hok].
    destruct Hok. split; assumption.
  - apply canvas_ok_delete. exact Hok.
  - destruct (layer_ops_frame c BringToFront I) as (Hp & Hs & Ho).
    apply (canvas_ok_frame c); [exact Hp|exact Hs| |exact Hok].
    intros j. cbn [canvas_step] in Ho. rewrite Ho. reflexivity.
  - destruct (layer_ops_frame c SendToBack I) as (Hp & Hs & Ho).
    apply (canvas_ok_frame c); [exact Hp|exact Hs| |exact Hok].
    intros j. cbn [canvas_step] in Ho. rewrite Ho. reflexivity.
  - destruct (layer_ops_frame c BringForward I) as (Hp & Hs & Ho).
    apply (canvas_ok_frame c); [exact Hp|exact Hs| |exact Hok].
    intros j. cbn [canvas_step] in Ho. rewrite Ho. reflexivity.
  - destruct (layer_ops_frame c SendBackward I) as (Hp & Hs & Ho).
    apply (canvas_ok_frame c); [exact Hp|exact Hs| |exact Hok].
    intros j. cbn [canvas_step] in Ho. rewrite Ho. reflexivity.
  - destruct m; unfold set_mode.
    + pose proof (canvas_ok_deselected c Hok) as [K1 K2 K3 K4].
      split; assumption.
    + destruct Hok. split; assumption.
  - destruct Hok. split; assumption.
  - destruct Hok. split; assumption.
  - split; simpl.
    + apply NoDup_nil_2.
    + intros i Hi. apply elem_of_nil in Hi. contradiction.
    + discriminate.
    + intros i Hi. apply elem_of_nil in Hi. contradiction.
Qed.

(** X2: after any series of calls on a new canvas ([add_image], mouse
    events, deleting, the four layer moves, [set_mode], [set_color],
    [set_eraser], [clear_canvas]) the list holds no image twice, every
    listed image exists, the selected image is in the list, and an image
    of the list is flagged as selected exactly if it is the selected
    image; so at most one image is flagged. *)
Theorem canvas_stays_consistent (l : list CanvasAction) :
  let c := canvas_run l in
  NoDup (images c) /\
  (forall i, i ∈ images c -> is_Some (objs c !! i)) /\
  (forall i, selected_image c = Some i -> i ∈ images c) /\
  (forall j, j ∈ images c ->
     (is_selected c j = true <-> selected_image c = Some j)) /\
  (forall i j, i ∈ images c -> j ∈ images c ->
     is_selected c i = true -> is_selected c j = true -> i = j).
Proof.
  assert (Hok : canvas_ok (canvas_run l)).
  { unfold canvas_run. induction l as [|a l IH] using rev_ind.
    - split; simpl.
      + apply NoDup_nil_2.
      + intros i Hi. apply elem_of_nil in Hi. contradiction.
      + discriminate.
      + intros i Hi. apply elem_of_nil in Hi. contradiction.
    - rewrite foldl_snoc. apply canvas_ok_step. exact IH. }
  destruct Hok as [H1 H2 H3 H4]. cbv zeta.
  split; [exact H1|]. split; [exact H2|]. split; [exact H3|].
  split; [exact H4|].
  intros i j Hi Hj Hsi Hsj. apply H4 in Hsi; [|exact Hi].
  apply H4 in Hsj; [|exact Hj]. congruence.
Qed.

End CanvasFacts.

(* ===================================================================== *)
(** * Properties of new_file and open_file *)
(* ===================================================================== *)

Module SessionFacts.
Import Py Drawing Editor Files FilesMore FilesFacts.

Lemma universal_newlines_plain (s : str) :
  13%N ∉ s -> universal_newlines s = s.
Proof.
  induction s as [|c s IH]; intros Hn; [reflexivity|].
  apply not_elem_of_cons in Hn as [Hc Hn]. cbn [universal_newlines].
  destruct (N.eqb_spec c 13) as [->|_]; [congruence|].
  f_equal. apply IH. exact Hn.
Qed.

Section NewOpen.

Variable writable : str -> bool.
Variable setPlainText : QPlainTextEdit -> str -> QPlainTextEdit.

Local Abbreviation new_file := (FilesMore.new_file writable).
Local Abbreviation open_file := (FilesMore.open_file writable setPlainText).
Local Abbreviation settle_unsaved := (FilesMore.settle_unsaved writable).

(** What saving from the prompt leaves behind when the target is known
    and writable. *)
Lemma settle_save_written (editor : QPlainTextEdit) (current_file : option str)
    (drawing_pad : option DrawingPad) (d : Dialogs) (w : World) (t : str) :
  unsaved editor drawing_pad = true ->
  ask_target current_file d = Some t -> writable t = true ->
  exists editor1 w1,
    settle_unsaved editor current_file drawing_pad Save d w =
      (inr (Some t), (editor1, w1)) /\
    toPlainText editor1 = toPlainText editor /\
    modified editor1 = false /\
    fs w1 !! t = Some (TextFile (toPlainText editor)).
Proof.
  intros Hu Ht Hw. unfold FilesMore.settle_unsaved. rewrite Hu.
  unfold save_file. rewrite Ht, Hw. cbn [negb].
  eexists _, _. split; [reflexivity|]. split; [reflexivity|].
  split; [reflexivity|]. cbn [fs].
  destruct (drawing_path_beside t) as (_ & _ & Hne).
  destruct drawing_pad as [pad|]; [|apply lookup_insert_eq].
  destruct (has_drawing pad && writable (drawing_path_of t)).
  - rewrite lookup_insert_ne by exact Hne. apply lookup_insert_eq.
  - apply lookup_insert_eq.
Qed.

Lemma settle_save_cancelled (editor : QPlainTextEdit)
    (current_file : option str) (drawing_pad : option DrawingPad)
    (d : Dialogs) (w : World) :
  unsaved editor drawing_pad = true ->
  ask_target current_file d = None ->
  settle_unsaved editor current_file drawing_pad Save d w =
    (inr None, (editor, mkWorld (fs w) (boxes w ++ [unsaved_prompt]))).
Proof.
  intros Hu Ht. unfold FilesMore.settle_unsaved. rewrite Hu.
  unfold save_file. rewrite Ht. reflexivity.
Qed.




(** X12: what [save_file] writes, [open_file] reads back: after a save
    to a writable target without a drawing, opening that file hands the
    editor exactly the text that was saved (text without carriage
    returns, which reading would turn into line feeds) and returns the
    same path. *)
Theorem save_then_open_round_trip (editor : QPlainTextEdit)
    (current_file : option str) (drawing_pad : option DrawingPad)
    (reply : Reply) (d d' : Dialogs) (w : World) (t : str) :
  ask_target current_file d = Some t ->
  writable t = true ->
  match drawing_pad with
  | Some pad => has_drawing pad = false
  | None => True
  end ->
  13%N ∉ toPlainText editor ->
  exists editor1 w1,
    save_file writable editor current_file drawing_pad d w =
      (Returned (Some t, editor1), w1) /\
    read_text w1 t = Returned (toPlainText editor) /\
    open_file editor1 (Some t) drawing_pad reply d' t w1 =
      (Returned (Some t),
       (setPlainText editor1 (toPlainText editor),
        clear_pad drawing_pad, w1)).
Proof.
  intros Ht Hw Hpad Hcr.
  assert (Ht0 : t <> []).
  { intros ->. unfold ask_target in Ht.
    destruct (str_bool current_file) eqn:E.
    - subst current_file. discriminate E.
    - destruct (bool_decide (folder_path d = [])); [discriminate|].
      destruct (bool_decide (project_name d = [])) eqn:Ep; [discriminate|].
      apply bool_decide_eq_false in Ep.
      destruct (endswith (project_name d) (lit ".txt")).
      + injection Ht as Ht. congruence.
      + injection Ht as Ht. apply app_eq_nil in Ht as [_ Ht]. discriminate Ht. }
  assert (Hread : forall bs,
            read_text
              (mkWorld (<[t := TextFile (toPlainText editor)]> (fs w)) bs) t =
            Returned (toPlainText editor)).
  { intros bs. unfold read_text. cbn [fs]. rewrite lookup_insert_eq.
    rewrite (universal_newlines_plain _ Hcr). reflexivity. }
  unfold save_file. rewrite Ht, Hw. cbn [negb].
  unfold FilesMore.open_file, FilesMore.settle_unsaved, unsaved.
  cbn [modified orb].
  destruct drawing_pad as [pad|].
  - rewrite Hpad. cbn [andb]. eexists _, _. split; [reflexivity|].
    split; [apply Hread|]. cbn [modified orb]. cbn beta iota.
    rewrite (bool_decide_true _ Ht0), Hread. reflexivity.
  - eexists _, _. split; [reflexivity|].
    split; [apply Hread|]. cbn [modified orb]. cbn beta iota.
    rewrite (bool_decide_true _ Ht0), Hread. reflexivity.
Qed.

End NewOpen.


Lemma save_then_open_round_trip_witness :
  exists editor1 w1,
    save_file always_writable editor_demo (Some (lit "notes/a.txt")) None
      (mkDialogs [] []) world_demo = (Returned (Some (lit "notes/a.txt"), editor1), w1) /\
    fst (open_file always_writable set_text_demo editor1
           (Some (lit "notes/a.txt")) None Discard (mkDialogs [] [])
           (lit "notes/a.txt") w1) = Returned (Some (lit "notes/a.txt")).
Proof.
  destruct (save_then_open_round_trip always_writable set_text_demo
              editor_demo (Some (lit "notes/a.txt")) None Discard
              (mkDialogs [] []) (mkDialogs [] []) world_demo
              (lit "notes/a.txt") eq_refl eq_refl I)
    as (editor1 & w1 & Hs & _ & Ho).
  - refine (bool_decide_unpack _ _). vm_compute. exact I.
  - exists editor1, w1. split; [exact Hs|]. rewrite Ho. reflexivity.
Defined.

End SessionFacts.

(* ===================================================================== *)
(** * Further properties of the voice module *)
(* ===================================================================== *)

Module DictationFacts.
Import Py Voice VoiceFacts.

Lemma quiet_when_idle (s : State) :
  voice_ok s -> is_voice_active s = false ->
  forall w, isRunning s w = false.
Proof.
  intros Hok Hidle w. destruct (isRunning s w) eqn:E; [|reflexivity].
  pose proof (ok_running s Hok w E) as Href. unfold is_voice_active in Hidle.
  rewrite Href in Hidle. congruence.
Qed.

Lemma toggle_voice_result (s : State) (cb : bool) (v : Z) (e1 e2 : bool) :
  voice_ok s ->
  let r := toggle_voice s cb v e1 e2 in
  voice_ok (snd r) /\
  fst r = negb (is_voice_active s) /\
  is_voice_active (snd r) = negb (is_voice_active s).
Proof.
  intros Hok r.
  assert (Hok' : voice_ok (snd r)) by apply (voice_ok_step s (ToggleVoice cb v e1 e2) Hok).
  split; [exact Hok'|]. unfold r. rewrite toggle_voice_cases.
  destruct (is_voice_active s) eqn:Hact.
  - destruct (_voice_worker_ref s) as [w|] eqn:Href.
    + destruct (shutdown_spec s w e1 e2 Hok Href) as (Hr & _).
      cbv zeta. cbn [fst snd negb]. split; [reflexivity|].
      unfold is_voice_active. cbn [_voice_worker_ref]. rewrite Hr. reflexivity.
    + unfold is_voice_active in Hact. rewrite Href in Hact. discriminate.
  - destruct (start_worker_spec s cb v Hok Hact) as (_ & Href & Hrun & _).
    cbn [fst snd negb]. split; [reflexivity|].
    unfold is_voice_active. rewrite Href. exact Hrun.
Qed.

(** X13: after any series of calls and worker exits, [toggle_voice]
    returns whether dictation is on afterwards, which is the opposite of
    what it was before; a worker it starts is the retained one, runs, and
    has the sensitivity and the level callback it was given. *)
Theorem toggle_voice_reports_state (l : list Action) (cb : bool) (v : Z)
    (e1 e2 : bool) :
  let s := exec l in
  let r := toggle_voice s cb v e1 e2 in
  fst r = is_voice_active (snd r) /\
  fst r = negb (is_voice_active s) /\
  (fst r = true ->
   exists w o, _voice_worker_ref (snd r) = Some w /\
     workers (snd r) !! w = Some o /\
     energy_threshold o = v /\ level_connected o = cb /\
     running o = true /\ status o = Running /\ delete_later o = false).
Proof.
  intros s r. pose proof (voice_ok_exec l) as Hok. fold s in Hok.
  destruct (toggle_voice_result s cb v e1 e2 Hok) as (_ & H1 & H2).
  fold r in H1, H2. split; [congruence|]. split; [exact H1|].
  intros Ht. rewrite H1 in Ht. apply negb_true_iff in Ht.
  exists (next_id s). eexists. unfold r. rewrite toggle_voice_cases, Ht.
  cbn [snd]. unfold start_worker. cbn [_voice_worker_ref workers].
  split; [reflexivity|]. split; [apply lookup_insert_eq|].
  repeat split.
Qed.

(** X14: toggling twice in a row restores whether dictation is on;
    after [stop_voice] dictation is off, a second [stop_voice] changes
    nothing, and the next [toggle_voice] starts a worker. *)
Theorem toggle_twice_and_stop (l : list Action) (cb cb' : bool) (v v' : Z)
    (e1 e2 e3 e4 : bool) :
  let s := exec l in
  (* toggling twice restores whether dictation is on *)
  is_voice_active
    (snd (toggle_voice (snd (toggle_voice s cb v e1 e2)) cb' v' e3 e4)) =
    is_voice_active s /\
  (* stopping: off afterwards, a second stop changes nothing, the next
     toggle starts *)
  let s1 := stop_voice s e1 e2 in
  is_voice_active s1 = false /\
  stop_voice s1 e3 e4 = s1 /\
  fst (toggle_voice s1 cb v e3 e4) = true.
Proof.
  intros s. pose proof (voice_ok_exec l) as Hok. fold s in Hok.
  destruct (toggle_voice_result s cb v e1 e2 Hok) as (Hok1 & _ & H1).
  destruct (toggle_voice_result _ cb' v' e3 e4 Hok1) as (_ & _ & H2).
  split; [rewrite H2, H1; apply negb_involutive|].
  intros s1.
  assert (Hok' : voice_ok s1) by apply (voice_ok_step s (StopVoice e1 e2) Hok).
  assert (Hoff : is_voice_active s1 = false).
  { unfold s1, stop_voice, is_voice_active.
    destruct (_voice_worker_ref s) as [w|] eqn:Href.
    - destruct (isRunning s w) eqn:Hrun.
      + destruct (shutdown_spec s w e1 e2 Hok Href) as (-> & _). reflexivity.
      + rewrite Href. exact Hrun.
    - rewrite Href. reflexivity. }
  split; [exact Hoff|]. split.
  - unfold stop_voice. unfold is_voice_active in Hoff.
    destruct (_voice_worker_ref s1) as [w|]; [|reflexivity].
    rewrite Hoff. reflexivity.
  - destruct (toggle_voice_result s1 cb v e3 e4 Hok') as (_ & -> & _).
    rewrite Hoff. reflexivity.
Qed.


End DictationFacts.

(* ===================================================================== *)
(** * Further properties of the spell checker *)
(* ===================================================================== *)

Module HighlightFacts.
Import Py Editor Spell SpellMore SpellFacts.

(** ** What highlighting leaves in the document *)

Lemma set_range_lookup (fs : list QTextCharFormat) (lo hi : Z)
    (f : QTextCharFormat) (i : nat) :
  set_range fs lo hi f !! i =
    (fun old => if (lo <=? Z.of_nat i) && (Z.of_nat i <? hi) then f else old)
      <$> fs !! i.
Proof. unfold set_range. apply list_lookup_imap. Qed.

Lemma underline_in_document (n : Z) (fs : list QTextCharFormat)
    (fc : QTextCursor) (b : bool) (e : Occurrence) :
  in_document n e ->
  underline n (fs, fc, b) e =
    (set_range fs (fst (fst e)) (snd (fst e)) error_fmt,
     mkCursor (fst (fst e)) (snd (fst e)), true).
Proof.
  destruct e as [[s t] w]. unfold in_document. simpl. intros (H0 & H1 & H2).
  unfold underline, setPosition.
  replace ((s <? 0) || (n + 1 <=? s)) with false
    by (symmetry; apply orb_false_intro; [apply Z.ltb_ge|apply Z.leb_gt]; lia).
  replace ((t <? 0) || (n + 1 <=? t)) with false
    by (symmetry; apply orb_false_intro; [apply Z.ltb_ge|apply Z.leb_gt]; lia).
  unfold setCharFormat, hasSelection. simpl.
  replace (t =? s) with false by (symmetry; apply Z.eqb_neq; lia).
  simpl. rewrite Z.min_l, Z.max_r by lia. rewrite orb_true_r. reflexivity.
Qed.

Lemma underline_all_lookup (n : Z) (errors : list Occurrence) :
  Forall (in_document n) errors ->
  forall (fs : list QTextCharFormat) (fc : QTextCursor) (b : bool) (i : nat),
    fst (fst (foldl (underline n) (fs, fc, b) errors)) !! i =
      (fun old => if covered errors i then error_fmt else old) <$> fs !! i.
Proof.
  induction 1 as [|e errors He Hall IH]; intros fs fc b i.
  - simpl. destruct (fs !! i); reflexivity.
  - cbn [foldl]. rewrite (underline_in_document n fs fc b e He), IH.
    rewrite set_range_lookup. unfold covered. cbn [existsb].
    destruct (fs !! i) as [old|]; [|reflexivity]. simpl.
    destruct ((fst (fst e) <=? Z.of_nat i) && (Z.of_nat i <? snd (fst e)));
      simpl; [|reflexivity].
    destruct (existsb _ errors); reflexivity.
Qed.

(** X16: when [apply_highlights] reformats a document and every reported
    range lies in it, afterwards exactly the characters inside a reported
    range carry the red wave underline and every other character has the
    default format, whatever the formats were before. *)
Theorem highlights_mark_reported_ranges (g : Globals) (ed : QPlainTextEdit)
    (errors : list Occurrence) (text_hash : str) :
  _last_text_hash g = Some text_hash ->
  length (formats ed) = length (chars ed) ->
  Forall (in_document (Z.of_nat (length (chars ed)))) errors ->
  exists ed',
    apply_highlights g (Some ed) errors text_hash = Some ed' /\
    chars ed' = chars ed /\
    length (formats ed') = length (chars ed) /\
    forall i, (i < length (chars ed))%nat ->
      formats ed' !! i =
        Some (if covered errors i then error_fmt else default_fmt).
Proof.
  intros Hh Hlen Herr. unfold apply_highlights.
  rewrite bool_decide_false by (rewrite Hh; tauto).
  set (n := Z.of_nat (length (chars ed))) in *.
  assert (H1 : forall i, (i < length (chars ed))%nat ->
            fst (setCharFormat (formats ed) (mkCursor 0 n) default_fmt) !! i =
              Some default_fmt).
  { intros i Hi. unfold setCharFormat, hasSelection. simpl.
    replace (n =? 0) with false by (symmetry; apply Z.eqb_neq; lia).
    simpl. rewrite set_range_lookup.
    destruct (lookup_lt_is_Some_2 (formats ed) i) as [old ->]; [lia|].
    simpl. rewrite Z.min_l, Z.max_r by lia.
    replace ((0 <=? Z.of_nat i) && (Z.of_nat i <? n)) with true
      by (symmetry; apply andb_true_intro; split;
          [apply Z.leb_le|apply Z.ltb_lt]; lia).
    reflexivity. }
  pose proof (setCharFormat_length (formats ed) (mkCursor 0 n) default_fmt) as L1.
  destruct (setCharFormat (formats ed) (mkCursor 0 n) default_fmt)
    as [fs1 e1]. simpl in H1, L1.
  pose proof (underline_all_lookup n errors Herr fs1 (mkCursor 0 n) e1) as H2.
  pose proof (underline_all_length n errors (fs1, mkCursor 0 n, e1)) as L2.
  destruct (foldl (underline n) (fs1, mkCursor 0 n, e1) errors)
    as [[fs2 fc2] e2]. simpl in H2, L2.
  eexists. split; [reflexivity|]. cbn [chars formats].
  split; [reflexivity|]. split; [lia|].
  intros i Hi. rewrite H2, (H1 i Hi). reflexivity.
Qed.

Lemma highlights_mark_reported_ranges_witness :
  exists ed',
    apply_highlights
      (highlight_misspelled_words length_hash globals_init editor_demo)
      (Some editor_demo) [(1, 3, lit "el")] (lit "4") = Some ed' /\
    formats ed' !! 0%nat = Some default_fmt /\
    formats ed' !! 1%nat = Some error_fmt.
Proof.
  destruct (highlights_mark_reported_ranges
              (highlight_misspelled_words length_hash globals_init editor_demo)
              editor_demo [(1, 3, lit "el")] (lit "4") eq_refl eq_refl)
    as (ed' & Ha & _ & _ & Hf).
  - apply Forall_cons. split; [|apply Forall_nil_2].
    unfold in_document. simpl. lia.
  - exists ed'. split; [exact Ha|]. split.
    + apply (Hf 0%nat). simpl. lia.
    + apply (Hf 1%nat). simpl. lia.
Defined.


(** ** Ignoring a word *)

Section Ignore.

Variable uni_isalnum : N -> bool.
Variable lower : str -> str.
Variable hash : str -> Z.
Variable unknown : gset str -> list str.
Variable dict_unknown : str -> bool.

Hypothesis unknown_spec :
  forall (ws : gset str) (w : str),
    w ∈ unknown ws <-> (w ∈ ws) /\ dict_unknown w = true.

(** Whatever is reported was filed under a key, hence is not ignored. *)
Lemma run_reports_not_ignored (ignored : gset str) (text : str) :
  exists errors,
    run uni_isalnum lower hash unknown ignored text =
      Returned (errors, str_of_int (hash text)) /\
    forall m, m ∈ errors -> lower (snd m) ∉ ignored.
Proof.
  unfold run.
  set (ms := finditer uni_isalnum text).
  set (wm := foldl (add_match lower ignored) ∅ ms).
  destruct (collect_returns wm (unknown (dom wm))) as (errors & He & Hm).
  { intros k Hk. apply unknown_spec in Hk as [Hk _].
    apply elem_of_dom in Hk. exact Hk. }
  exists errors. rewrite He. split; [reflexivity|].
  intros m Hin. apply Hm in Hin as (k & occs & _ & Ho & Hin).
  apply (build_member lower hash ignored ms k occs Ho) in Hin as [_ [Hi _]].
  exact Hi.
Qed.


End Ignore.


(** ** The order of the matches *)

Section Order.

Variable uni_isalnum : N -> bool.

Lemma in_order_weaken (lo lo' hi : Z) (l : list Occurrence) :
  lo' <= lo -> in_order lo hi l -> in_order lo' hi l.
Proof.
  destruct l as [|m l]; [tauto|]. simpl.
  intros Hle (H1 & H2). split; [lia|exact H2].
Qed.

Lemma letters_run_bound (s : str) : (letters_run s <= length s)%nat.
Proof.
  induction s as [|c s IH]; simpl; [lia|].
  destruct (is_letter c); simpl; lia.
Qed.

Lemma scan_in_order (s : str) :
  forall (before : option N) (i skip : nat),
    in_order (Z.of_nat (i + skip)) (Z.of_nat (i + length s))
             (scan uni_isalnum before s i skip).
Proof.
  induction s as [|c s IH]; intros before i skip; [exact I|].
  cbn [scan]. destruct skip as [|k].
  - destruct (match_here uni_isalnum before (c :: s)) as [n|] eqn:Em.
    + unfold match_here in Em.
      destruct (boundary uni_isalnum before (head (c :: s))); [|discriminate].
      apply try_end_Some in Em as [Hn _].
      pose proof (letters_run_bound (c :: s)) as Hb.
      cbn [in_order fst snd]. split; [lia|]. split; [lia|].
      split; [lia|]. split.
      * unfold len. rewrite length_take. lia.
      * specialize (IH (Some c) (S i) (n - 1)%nat).
        replace (S i + (n - 1))%nat with (i + n)%nat in IH by lia.
        replace (S i + length s)%nat with (i + length (c :: s))%nat in IH
          by (simpl; lia).
        exact IH.
    + specialize (IH (Some c) (S i) O).
      replace (S i + length s)%nat with (i + length (c :: s))%nat in IH
        by (simpl; lia).
      eapply in_order_weaken; [|exact IH]. lia.
  - specialize (IH (Some c) (S i) k).
    replace (S i + k)%nat with (i + S k)%nat in IH by lia.
    replace (S i + length s)%nat with (i + length (c :: s))%nat in IH
      by (simpl; lia).
    exact IH.
Qed.

(** X18: the matches [finditer] yields come in text order and do not
    overlap: each starts at or after the end of the one before, lies
    within the text, is not empty and is as long as its word. *)
Theorem matches_in_text_order (text : str) :
  in_order 0 (len text) (finditer uni_isalnum text).
Proof.
  unfold finditer. apply (scan_in_order text None O O).
Qed.

End Order.

End HighlightFacts.

(* ===================================================================== *)
(** * Properties of the shared summarizer and of its callers *)
(* ===================================================================== *)

Module TeacherFacts.
Import Py Editor Summarize SummarizeMore.

(** ** Stripping *)

Lemma lstrip_clean (s : str) : clean_head (lstrip s).
Proof.
  induction s as [|c s IH]; [exact I|].
  cbn [lstrip]. destruct (isspace c) eqn:E; [exact IH | exact E].
Qed.

Lemma lstrip_id (s : str) : clean_head s -> lstrip s = s.
Proof.
  destruct s as [|c s]; [reflexivity|].
  cbn [clean_head lstrip]. intros ->. reflexivity.
Qed.

Lemma lstrip_split (s : str) : exists p, s = p ++ lstrip s.
Proof.
  induction s as [|c s [p IH]]; [exists []; reflexivity|].
  cbn [lstrip]. destruct (isspace c).
  - exists (c :: p). cbn [app]. f_equal. exact IH.
  - exists []. reflexivity.
Qed.

Lemma clean_head_prefix (a b : str) : clean_head (a ++ b) -> clean_head a.
Proof. destruct a; [intros _; exact I | exact id]. Qed.

Lemma strip_clean_ends (s : str) :
  clean_head (strip s) /\ clean_head (rev (strip s)).
Proof.
  unfold strip. rewrite rev_involutive. split; [|apply lstrip_clean].
  destruct (lstrip_split (rev (lstrip s))) as [p Hp].
  apply (clean_head_prefix _ (rev p)).
  rewrite <- rev_app_distr, <- Hp, rev_involutive. apply lstrip_clean.
Qed.

Lemma strip_strip (s : str) : strip (strip s) = strip s.
Proof.
  destruct (strip_clean_ends s) as [H1 H2].
  unfold strip at 1. rewrite (lstrip_id _ H1), (lstrip_id _ H2).
  apply rev_involutive.
Qed.

Lemma startswith_cons_head (s p : str) (c : N) :
  startswith s (c :: p) = true -> exists s', s = c :: s'.
Proof.
  destruct s as [|d s]; [discriminate|].
  cbn [startswith]. destruct (N.eqb_spec c d) as [->|]; [eauto | discriminate].
Qed.

(** ** Keys *)

(** X19: [set_token] answers whether the stripped token starts with
    [gsk_]; white space around a token makes no difference to the outcome;
    an accepted token is stored stripped (no white space at either end)
    with the model untouched; a refused token changes nothing, so a key
    accepted earlier stays in use. *)
Theorem set_token_strips_and_keeps_old_key
    (su : FreeTeacherSummarizer) (token : str) :
  set_token su (strip token) = set_token su token /\
  fst (set_token su token) = startswith (strip token) (lit "gsk_") /\
  (fst (set_token su token) = false -> snd (set_token su token) = su) /\
  (fst (set_token su token) = true ->
   exists key,
     snd (set_token su token) =
       mkSummarizer (Some (mkClient key groq_url)) (model su) /\
     key = strip token /\
     clean_head key /\ clean_head (rev key) /\
     startswith key (lit "gsk_") = true).
Proof.
  split; [|split; [|split]].
  - unfold set_token. rewrite strip_strip. reflexivity.
  - unfold set_token. destruct (startswith _ _); reflexivity.
  - unfold set_token. destruct (startswith _ _); [discriminate | reflexivity].
  - unfold set_token. destruct (startswith _ _) eqn:E; [|discriminate].
    intros _. exists (strip token).
    destruct (strip_clean_ends token) as [H1 H2].
    repeat split; assumption.
Qed.

Lemma set_api_token_model (g : option FreeTeacherSummarizer) (t : str) :
  model (fst (get_summarizer (snd (set_api_token g t)))) =
  model (fst (get_summarizer g)).
Proof.
  unfold set_api_token, set_token. cbn [snd get_summarizer fst].
  destruct (negb _); reflexivity.
Qed.

Lemma set_api_token_client (g : option FreeTeacherSummarizer) (t : str) :
  client (fst (get_summarizer (snd (set_api_token g t)))) =
  if is_key t then Some (mkClient (strip t) groq_url)
  else client (fst (get_summarizer g)).
Proof.
  unfold set_api_token, set_token, is_key. cbn [snd get_summarizer fst].
  destruct (startswith _ _); reflexivity.
Qed.

Lemma give_tokens_snoc (g : option FreeTeacherSummarizer) (toks : list str)
    (t : str) :
  give_tokens g (toks ++ [t]) = snd (set_api_token (give_tokens g toks) t).
Proof. unfold give_tokens. rewrite foldl_app. reflexivity. Qed.

Lemma last_accepted_snoc (toks : list str) (t : str) :
  last_accepted (toks ++ [t]) =
  if is_key t then Some (strip t) else last_accepted toks.
Proof.
  unfold last_accepted. rewrite filter_app, filter_cons, filter_nil.
  destruct (decide (is_key t = true)) as [E|E].
  - rewrite E, fmap_app. change (strip <$> [t]) with [strip t].
    rewrite last_snoc. reflexivity.
  - apply not_true_is_false in E. rewrite E, app_nil_r. reflexivity.
Qed.

(** X20: from the start of the program (no summarizer yet), after any
    tokens were given to [set_api_token] the shared summarizer uses the
    last token that was accepted, stripped, at the Groq address, and has no
    client when none was accepted; its model is always the initial one. *)
Theorem last_accepted_key_is_in_use (toks : list str) :
  let su := fst (get_summarizer (give_tokens None toks)) in
  client su = (fun key => mkClient key groq_url) <$> last_accepted toks /\
  model su = lit "llama-3.1-8b-instant" /\
  (toks <> [] -> give_tokens None toks = Some su).
Proof.
  cbv zeta. induction toks as [|t toks IH] using rev_ind.
  - repeat split. intros H. destruct H. reflexivity.
  - destruct IH as (IHc & IHm & _).
    rewrite give_tokens_snoc, last_accepted_snoc.
    split; [|split].
    + rewrite set_api_token_client, IHc. destruct (is_key t); reflexivity.
    + rewrite set_api_token_model. exact IHm.
    + intros _. unfold set_api_token. reflexivity.
Qed.

(** X21: the settings dialog refuses an input that is not a key and then
    changes neither the settings nor the summarizer; when it accepts, the
    key written to the settings is the key the summarizer uses from then
    on, and loading that stored key at the next start of the program
    gives a summarizer with the same client. *)
Theorem save_token_stores_the_key_in_use
    (stored_key : option str) (g : option FreeTeacherSummarizer)
    (input : str) :
  let r := save_token stored_key g input in
  (snd r = false -> r = (stored_key, g, false)) /\
  (snd r = true ->
   exists key,
     fst (fst r) = Some key /\ key = strip input /\
     client (fst (get_summarizer (snd (fst r)))) =
       Some (mkClient key groq_url) /\
     client (fst (get_summarizer (load_key (fst (fst r)) None))) =
       Some (mkClient key groq_url)).
Proof.
  cbv zeta. unfold save_token.
  destruct (startswith (strip input) (lit "gsk_")) eqn:E; cbn [negb snd fst].
  - split; [discriminate|]. intros _. exists (strip input).
    assert (Hk : is_key (strip input) = true).
    { unfold is_key. rewrite strip_strip. exact E. }
    split; [reflexivity|]. split; [reflexivity|]. split.
    + rewrite set_api_token_client, Hk, strip_strip. reflexivity.
    + unfold load_key.
      destruct (startswith_cons_head _ _ _ E) as [s' Hs].
      replace (str_bool (Some (strip input))) with true
        by (rewrite Hs; reflexivity).
      rewrite set_api_token_client, Hk, strip_strip. reflexivity.
  - split; [reflexivity | discriminate].
Qed.

(** ** The summary action *)

Section Remote.

Variable lower : str -> str.
Variable create : Client -> Request -> PyResult Response.
Variable setPlainText : QPlainTextEdit -> str -> QPlainTextEdit.

Lemma summarize_returns (su : FreeTeacherSummarizer) (text : str)
    (kw : option Z) :
  exists s, summarize lower create su text kw = Returned s.
Proof.
  unfold summarize. destruct (client su) as [cl|]; [|eauto].
  destruct (_ || _); [eauto|].
  destruct (ask create cl (model su) text (default 5 kw)) as [r|e]; [eauto|].
  unfold on_error. destruct (_ || _ || _); [eauto|].
  destruct (_ || _); eauto.
Qed.

(** X22: the summary action never raises and leaves the shared summarizer
    as it was.  On blank text it only shows a notice; otherwise the whole
    text of the editor is replaced by what [summarize] returns, also when
    that is a message rather than a summary: without a key the text is
    replaced by the request to enter one, and a text of fewer than ten
    characters by the too-short message. *)
Theorem summarize_action_replaces_text
    (g : option FreeTeacherSummarizer) (editor : QPlainTextEdit)
    (win : Window) :
  let text := toPlainText editor in
  let su := fst (get_summarizer g) in
  let r := summarize_text_trigger lower create setPlainText g editor win in
  fst (get_summarizer (snd r)) = su /\
  (strip text = [] ->
   fst r = Returned (editor,
             mkWindow (title win)
               (info_boxes win ++ [lit "Please provide content!"]))) /\
  (strip text <> [] ->
   exists s,
     summarize lower create su text (Some 5) = Returned s /\
     fst r = Returned (setPlainText editor s,
               mkWindow (lit "SharkPad")
                 (info_boxes win ++ [lit "Explanation complete!"])) /\
     (client su = None ->
      s = lit "Please enter your Groq API Key in Settings.") /\
     (client su <> None -> len (strip text) < 10 ->
      s = lit "The text box is too short for me to explain!")).
Proof.
  cbv zeta. unfold summarize_text_trigger, summarize_text.
  destruct (decide (strip (toPlainText editor) = [])) as [E|E].
  - rewrite (bool_decide_eq_true_2 _ E). cbn [fst snd].
    split; [reflexivity|]. split; [reflexivity|].
    intros H. destruct (H E).
  - rewrite (bool_decide_eq_false_2 _ E).
    destruct (summarize_returns (fst (get_summarizer g))
                (toPlainText editor) (Some 5)) as [s Hs].
    rewrite Hs. cbn [fst snd].
    split; [destruct g; reflexivity|]. split; [intros H; destruct (E H)|].
    intros _. exists s. split; [reflexivity|]. split; [reflexivity|].
    unfold summarize in Hs. split.
    + intros Hc. rewrite Hc in Hs. congruence.
    + intros Hc Hl. destruct (client _); [|destruct (Hc eq_refl)].
      apply Z.ltb_lt in Hl. rewrite Hl, orb_true_r in Hs. congruence.
Qed.

Lemma ascii_check (s : str) :
  forallb (fun c => c <? 128)%N s = true -> Forall (fun c => (c < 128)%N) s.
Proof.
  induction s as [|c s IH]; [constructor|].
  cbn [forallb]. intros H. apply andb_prop in H. destruct H as [Hc Hs].
  constructor; [apply N.ltb_lt; exact Hc | exact (IH Hs)].
Qed.

(** [lower] on ASCII text changes the letters A-Z only. *)
Hypothesis lower_ascii :
  forall s, Forall (fun c => (c < 128)%N) s -> lower s = ascii_lower s.

(** X23: with a key and a text of at least ten characters, a reply without
    choices, or one whose first choice has no content, does not raise: the
    index error or attribute error of the interpreter is caught and
    returned behind [API Error:]. *)
Theorem malformed_reply_is_reported
    (su : FreeTeacherSummarizer) (cl : Client) (text : str) (kw : option Z)
    (reply : Response) :
  client su = Some cl ->
  10 <= len (strip text) ->
  create cl (request_of (model su) text (default 5 kw)) = Returned reply ->
  match choices reply with
  | [] =>
      summarize lower create su text kw =
        Returned (lit "API Error: list index out of range")
  | None :: _ =>
      summarize lower create su text kw =
        Returned
          (lit "API Error: 'NoneType' object has no attribute 'strip'")
  | Some content :: _ =>
      summarize lower create su text kw = Returned (strip content)
  end.
Proof.
  intros Hc Hl Hr.
  assert (Hg : bool_decide (text = []) || (len (strip text) <? 10) = false).
  { apply orb_false_intro.
    - apply bool_decide_eq_false. intros ->. vm_compute in Hl.
      apply Hl. reflexivity.
    - apply Z.ltb_ge. exact Hl. }
  unfold summarize. rewrite Hc, Hg. unfold ask. rewrite Hr.
  destruct (choices reply) as [|[content|] rest]; [| reflexivity |].
  - unfold on_error. rewrite lower_ascii; [reflexivity|].
    apply ascii_check. reflexivity.
  - unfold on_error. rewrite lower_ascii; [reflexivity|].
    apply ascii_check. reflexivity.
Qed.

End Remote.

Lemma malformed_reply_is_reported_witness :
  summarize ascii_lower answering_nothing
    (mkSummarizer (Some client_demo) (lit "llama-3.1-8b-instant"))
    (lit "The quick brown fox jumps.") None =
  Returned (lit "API Error: list index out of range").
Proof.
  apply (malformed_reply_is_reported ascii_lower answering_nothing
           (fun s _ => eq_refl)
           (mkSummarizer (Some client_demo) (lit "llama-3.1-8b-instant"))
           client_demo (lit "The quick brown fox jumps.") None
           (mkResponse [])).
  - reflexivity.
  - vm_compute. discriminate.
  - reflexivity.
Defined.

End TeacherFacts.

(* ===================================================================== *)
(** * Properties of the Open action of main.py *)
(* ===================================================================== *)

Module OpenActionFacts.
Import Py Drawing Editor Files FilesMore MainWindow.

Section Actions.

Variable writable : str -> bool.
Variable setPlainText : QPlainTextEdit -> str -> QPlainTextEdit.

(** On [None] and on paths the two models of [open_file] agree. *)
Lemma open_file_any_agrees (editor : QPlainTextEdit)
    (current_file : option str) (drawing_pad : option DrawingPad)
    (reply : Reply) (d : Dialogs) (file_path : str) (w : World) :
  open_file_any writable setPlainText editor (to_arg current_file)
    drawing_pad reply d file_path w =
  match open_file writable setPlainText editor current_file drawing_pad
          reply d file_path w with
  | (Returned o, s) => (Returned (to_arg o), s)
  | (Raised e, s) => (Raised e, s)
  end.
Proof.
  unfold open_file_any, open_file, settle_unsaved, save_file_any.
  destruct (unsaved editor drawing_pad).
  - destruct reply.
    + destruct current_file as [p|]; cbn [to_arg];
        destruct (save_file writable editor _ drawing_pad d _)
          as [[[saved editor1]|e] w2];
        try reflexivity;
        destruct (bool_decide (file_path <> [])); try reflexivity;
        destruct (read_text w2 file_path); reflexivity.
    + destruct (bool_decide (file_path <> [])); [|reflexivity].
      destruct (read_text _ file_path); reflexivity.
    + reflexivity.
  - destruct (bool_decide (file_path <> [])); [|reflexivity].
    destruct (read_text _ file_path); reflexivity.
Qed.

(** X24: the Open action of the main window hands the drawing pad to
    [open_file] in the place of [current_file].  So it never writes a
    file and never clears or changes the pad; with unmodified text it asks
    nothing, even when there is a drawing, and reads the chosen file into
    the editor (a cancelled dialog changes nothing); and with modified
    text the answer Save raises [TypeError], the text being neither saved
    nor replaced. *)
Theorem open_action_never_saves (editor : QPlainTextEdit)
    (drawing_pad : DrawingPad) (reply : Reply) (d : Dialogs)
    (file_path : str) (w : World) :
  let r := open_action writable setPlainText editor drawing_pad reply d
             file_path w in
  fs (snd (snd r)) = fs w /\
  snd (fst (snd r)) = drawing_pad /\
  (modified editor = false ->
   r = if bool_decide (file_path <> []) then
         match read_text w file_path with
         | Returned text =>
             (Returned (ArgPath file_path),
              (setPlainText editor text, drawing_pad, w))
         | Raised e => (Raised e, (editor, drawing_pad, w))
         end
       else (Returned ArgWidget, (editor, drawing_pad, w))) /\
  (modified editor = true -> reply = Save ->
   r = (Raised (lit "TypeError"),
        (editor, drawing_pad,
         mkWorld (fs w) (boxes w ++ [unsaved_prompt])))).
Proof.
  cbv zeta. unfold open_action, open_file_any, save_file_any, unsaved.
  rewrite orb_false_r.
  destruct (modified editor) eqn:Em.
  - split; [|split; [|split]].
    + destruct reply; cbn [snd fst fs]; try reflexivity.
      destruct (bool_decide (file_path <> [])); [|reflexivity].
      unfold read_text. cbn [fs].
      destruct (fs w !! file_path) as [[content|pic]|]; reflexivity.
    + destruct reply; cbn [snd fst]; try reflexivity.
      destruct (bool_decide (file_path <> [])); [|reflexivity].
      destruct (read_text _ file_path); reflexivity.
    + discriminate.
    + intros _ ->. reflexivity.
  - split; [|split; [|split]].
    + destruct (bool_decide (file_path <> [])); [|reflexivity].
      destruct (read_text w file_path); reflexivity.
    + destruct (bool_decide (file_path <> [])); [|reflexivity].
      destruct (read_text w file_path); reflexivity.
    + intros _. destruct (bool_decide (file_path <> [])); [|reflexivity].
      destruct (read_text w file_path); reflexivity.
    + discriminate.
Qed.

End Actions.

End OpenActionFacts.
